(** * Ingestion pipeline of the RAG chatbot: a shallow embedding

    The development follows the ingestion script (rate limiter, retry
    policy, text extraction, page splitter, driver) and the chunker
    [chunkText].  JavaScript strings are sequences of UTF-16 code units,
    JavaScript numbers that hold integers are modelled by [Z], [N] or
    [nat]; loops that may not terminate carry a fuel argument and return
    [None] when the fuel is exhausted. *)

From Stdlib Require Import Ascii String.
From Stdlib Require Import List ZArith NArith Lia Bool Arith Sorted Permutation.
From Equations Require Import Equations.
Import ListNotations.

(* ===================================================================== *)
(** ** JavaScript strings                                                 *)
(* ===================================================================== *)

Module JS.

(** A UTF-16 code unit. *)
Definition char := N.

(** A JavaScript string: its sequence of code units; [length] is the
    JavaScript [.length]. *)
Definition jsstring := list char.

(** An ASCII literal of the source as a [jsstring]. *)
Definition lit (s : string) : jsstring :=
  map N_of_ascii (list_ascii_of_string s).

(** The class [\s] of a regular expression, which is also the set of code
    units removed by [String.prototype.trim]: TAB, LF, VT, FF, CR, SP, NBSP,
    the other space separators, LS, PS and the byte order mark. *)
Definition is_space (c : char) : bool :=
  ((9 <=? c) && (c <=? 13) || (c =? 32) || (c =? 160) || (c =? 5760)
   || (8192 <=? c) && (c <=? 8202) || (c =? 8232) || (c =? 8233)
   || (c =? 8239) || (c =? 8287) || (c =? 12288) || (c =? 65279))%N.

(** The class [\d] (without the unicode flag): the digits 0 to 9. *)
Definition is_digit (c : char) : bool := ((48 <=? c) && (c <=? 57))%N.

Definition SP : char := 32%N.
Definition LF : char := 10%N.

(** [s.trimStart()]. *)
Fixpoint trimStart (s : jsstring) : jsstring :=
  match s with
  | [] => []
  | c :: s' => if is_space c then trimStart s' else s
  end.

(** [s.trimEnd()]. *)
Definition trimEnd (s : jsstring) : jsstring := rev (trimStart (rev s)).

(** [s.trim()]. *)
Definition trim (s : jsstring) : jsstring := trimEnd (trimStart s).

(** [s.replace(/\s+/g, " ")]: every maximal run of white space becomes one
    space.  [in_run] tells that the previous code unit belongs to the run
    being replaced. *)
Fixpoint replace_ws (in_run : bool) (s : jsstring) : jsstring :=
  match s with
  | [] => []
  | c :: s' =>
      if is_space c
      then (if in_run then replace_ws true s' else SP :: replace_ws true s')
      else c :: replace_ws false s'
  end.

(** The length of a string as a JavaScript number. *)
Definition len (s : jsstring) : Z := Z.of_nat (length s).

(** An index argument of [slice], made relative to the string: a negative
    index counts from the end, and the result is clamped to [0, len]. *)
Definition rel_index (l k : Z) : Z :=
  if (k <? 0)%Z then Z.max (l + k) 0 else Z.min k l.

(** [s.slice(a, b)] for integer [a] and [b]. *)
Definition slice (s : jsstring) (a b : Z) : jsstring :=
  let from := rel_index (len s) a in
  let to := rel_index (len s) b in
  firstn (Z.to_nat (to - from)) (skipn (Z.to_nat from) s).

(** Truthiness of a string: [if (s)] holds of the non-empty strings. *)
Definition truthy (s : jsstring) : bool :=
  match s with [] => false | _ :: _ => true end.

End JS.

Import JS.

(* ===================================================================== *)
(** ** The chunker ([chunkText])                                          *)
(* ===================================================================== *)

Module Chunker.

Open Scope Z_scope.

(** The [while (i < clean.length)] loop of [chunkText]; [chunks] is the
    array being filled, [i] the current offset.  One unit of fuel is one
    test of the loop condition. *)
Fixpoint chunk_loop (fuel : nat) (clean : jsstring) (chunkSize overlap : Z)
    (i : Z) (chunks : list jsstring) : option (list jsstring) :=
  match fuel with
  | O => None
  | S fuel' =>
      if i <? len clean then
        let part := trim (slice clean i (i + chunkSize)) in
        let chunks' := if 60 <? len part then chunks ++ [part] else chunks in
        chunk_loop fuel' clean chunkSize overlap (i + (chunkSize - overlap)) chunks'
      else Some chunks
  end.

(** [const clean = text.replace(/\s+/g, " ").trim()]. *)
Definition normalize (text : jsstring) : jsstring :=
  trim (replace_ws false text).

(** [chunkText(text, chunkSize, overlap)]. *)
Definition chunkText (fuel : nat) (text : jsstring) (chunkSize overlap : Z)
    : option (list jsstring) :=
  chunk_loop fuel (normalize text) chunkSize overlap 0 [].

(** The default arguments [chunkSize = 900] and [overlap = 150], which are
    also the arguments of the ingestion driver. *)
Definition default_chunkSize : Z := 900.
Definition default_overlap : Z := 150.

(** The window of the loop at offset [i], before the test on its length. *)
Definition window (clean : jsstring) (chunkSize i : Z) : jsstring :=
  trim (slice clean i (i + chunkSize)).

(** [part.length > 60]. *)
Definition long_enough (part : jsstring) : bool := 60 <? len part.

(** The offsets [0, step, ..., (n-1) * step]. *)
Definition offsets (step : Z) (n : nat) : list Z :=
  map (fun k => Z.of_nat k * step) (seq 0 n).

(** The offsets [i, i + step, ...] visited from [i] in [n] iterations. *)
Definition offsets_from (step i : Z) (n : nat) : list Z :=
  map (fun k => i + Z.of_nat k * step) (seq 0 n).

(** The number of iterations of the loop for a positive step: the least
    [n] with [n * step >= l]. *)
Definition iterations (l step : Z) : nat := Z.to_nat ((l + step - 1) / step).

(** The last [n] code units of a string. *)
Definition suffix (n : nat) (s : jsstring) : jsstring :=
  skipn (length s - n) s.

(** A text of 1200 code units, letters except for one space at index 899,
    the last position of the first window of the default arguments. *)
Definition spaced_text : jsstring :=
  map (fun k => if Nat.eqb k 899 then SP else (97 + N.of_nat (k mod 26))%N)
      (seq 0 1200).

Close Scope Z_scope.

End Chunker.

(* ===================================================================== *)
(** ** The retry policy ([withRetry])                                     *)
(* ===================================================================== *)

Module Retry.

Open Scope Z_scope.

(** What [Number(retryAfterRaw)] makes of the [retry-after] header of a
    failure.  The HTTP header holds a number of seconds, an integer, or a
    date, which [Number] turns into [NaN]. *)
Inductive RetryAfter : Type :=
| NoHeader            (* no header, or a falsy value: [if (retryAfterRaw)] fails *)
| NotNumeric          (* [Number.isNaN(sec)] *)
| Seconds (sec : Z).

(** What [withRetry] reads of a thrown value [e]: the status
    [e?.status ?? e?.response?.status] ([None] when there is none) and the
    [retry-after] header. *)
Record Failure : Type := mkFailure {
  status : option Z;
  retryAfter : RetryAfter
}.

(** [status === 429 || status === 403]. *)
Definition isRateLimit (e : Failure) : bool :=
  match status e with
  | Some s => (s =? 429) || (s =? 403)
  | None => false
  end.

(** [Math.min(60_000, 1000 * 2 ** i) + Math.floor(Math.random() * 500)],
    where [jitter] is the value of [Math.floor(Math.random() * 500)]. *)
Definition backoff (i : nat) (jitter : Z) : Z :=
  Z.min 60000 (1000 * 2 ^ Z.of_nat i) + jitter.

(** The value of [wait] when [sleep(wait)] is called at attempt [i]. *)
Definition wait_ms (i : nat) (jitter : Z) (e : Failure) : Z :=
  let wait := backoff i jitter in
  match retryAfter e with
  | Seconds sec => if 0 <? sec then Z.max wait (sec * 1000) else wait
  | NoHeader | NotNumeric => wait
  end.

(** The outcome of one call of [fn]. *)
Inductive Attempt (T : Type) : Type :=
| Fulfilled (v : T)
| Rejected (e : Failure).
Arguments Fulfilled {T} v.
Arguments Rejected {T} e.

(** What [withRetry] does, in order: calls of [fn] and sleeps. *)
Inductive Event : Type :=
| Call (i : nat)
| Sleep (ms : Z).

(** How [withRetry] ends: with a value, or by throwing.  [Thrown None] is
    the throw of the initial [lastErr] by a loop that did not run;
    [Thrown (Some e)] is the throw of what a call of [fn] rejected with,
    whatever value that is (its [status] and its [retry-after] header are
    all that the code reads of it). *)
Inductive Result (T : Type) : Type :=
| Returned (v : T)
| Thrown (e : option Failure).
Arguments Returned {T} v.
Arguments Thrown {T} e.

Definition emit {T : Type} (evs : list Event) (p : list Event * Result T)
    : list Event * Result T :=
  (evs ++ fst p, snd p).

Section WithRetry.

Context {T : Type}.

(** [fn i] is the outcome of the call of [fn] at attempt [i]; [jitter i] is
    the value of [Math.floor(Math.random() * 500)] drawn at attempt [i]. *)
Variables (fn : nat -> Attempt T) (jitter : nat -> Z).

(** The loop [for (let i = 0; i < tries; i++)], with [remaining = tries - i]
    iterations left. *)
Fixpoint retry_loop (remaining i : nat) (lastErr : option Failure)
    : list Event * Result T :=
  match remaining with
  | O => ([], Thrown lastErr)
  | S remaining' =>
      match fn i with
      | Fulfilled v => ([Call i], Returned v)
      | Rejected e =>
          if isRateLimit e
          then emit [Call i; Sleep (wait_ms i (jitter i) e)]
                    (retry_loop remaining' (S i) (Some e))
          else ([Call i], Thrown (Some e))
      end
  end.

(** [withRetry(fn, tries)]. *)
Definition withRetry (tries : nat) : list Event * Result T :=
  retry_loop tries 0 None.

End WithRetry.

(** The default value of [tries]. *)
Definition default_tries : nat := 8.

(** The sleeps of a trace, in order. *)
Fixpoint sleeps (tr : list Event) : list Z :=
  match tr with
  | [] => []
  | Call _ :: tr' => sleeps tr'
  | Sleep ms :: tr' => ms :: sleeps tr'
  end.

(** The number of calls of [fn] in a trace. *)
Fixpoint calls (tr : list Event) : nat :=
  match tr with
  | [] => 0
  | Call _ :: tr' => S (calls tr')
  | Sleep _ :: tr' => calls tr'
  end.

(** The events of [k] rate-limited attempts from attempt [i0] on, the
    failure of attempt [j] being [errs j]. *)
Definition retries (errs : nat -> Failure) (jitter : nat -> Z) (i0 k : nat)
    : list Event :=
  flat_map (fun j => [Call j; Sleep (wait_ms j (jitter j) (errs j))]) (seq i0 k).

(** The value of [lastErr] after [k] rate-limited attempts from [i0] on,
    the failure of attempt [j] being [errs j]. *)
Definition last_after (errs : nat -> Failure) (i0 k : nat)
    (lastErr : option Failure) : option Failure :=
  match k with
  | O => lastErr
  | S k' => Some (errs (i0 + k')%nat)
  end.

(** Sample operations: one that is rate limited twice (status 429, no
    retry-after header) and then succeeds, one that always fails with
    status 500, one that is always rate limited with a retry-after of 120
    seconds. *)
Definition rate_limited : Failure := mkFailure (Some 429) NoHeader.
Definition server_error : Failure := mkFailure (Some 500) NoHeader.
Definition told_to_wait : Failure := mkFailure (Some 403) (Seconds 120).

Definition flaky (i : nat) : Attempt nat :=
  if (i <? 2)%nat then Rejected rate_limited else Fulfilled 7%nat.

Definition broken (i : nat) : Attempt nat := Rejected server_error.

Definition throttled (i : nat) : Attempt nat := Rejected told_to_wait.

Definition fixed_jitter (i : nat) : Z := 100.

Close Scope Z_scope.

End Retry.

(* ===================================================================== *)
(** ** The concurrency limiter ([createLimiter])                          *)
(* ===================================================================== *)

Module Limiter.

Open Scope Z_scope.

(** A task is named by the rank of its submission: task [k] is the
    argument of the [k]-th call of [limit], counted from 0. *)
Abbreviation Task := nat (only parsing).

(** How the promise of a task settles. *)
Inductive Settlement : Type :=
| Resolved (value : nat)
| Failed (error : nat).

(** The state of a limiter.  [active] and [queue] are the variables of the
    closure; the other fields record what has happened: the tasks whose
    [fn] has been called and has not settled yet, the tasks in the order
    in which they were started, the settlements passed to [resolve] or
    [reject], and the number of calls of [limit]. *)
Record State : Type := mkState {
  active : Z;
  queue : list Task;
  running : list Task;
  started : list Task;
  delivered : list (Task * Settlement);
  submitted : nat
}.

(** [createLimiter(max)]: nothing active, nothing queued. *)
Definition createLimiter : State := mkState 0 [] [] [] [] 0.

(** [next()]: when a slot is free, takes the first job of the queue,
    counts it as active and runs it, which calls its [fn]. *)
Definition next (max : Z) (st : State) : State :=
  if max <=? active st then st
  else
    match queue st with
    | [] => st
    | job :: rest =>
        mkState (active st + 1) rest (running st ++ [job])
                (started st ++ [job]) (delivered st) (submitted st)
    end.

(** [limit(fn)]: the job of the task is pushed on the queue, then [next()]. *)
Definition limit (max : Z) (st : State) : State :=
  next max (mkState (active st) (queue st ++ [submitted st]) (running st)
                    (started st) (delivered st) (S (submitted st))).

(** The promise of the running task [t] settles: the job passes the
    settlement to [resolve] or [reject], then, in its [finally], decrements
    [active] and calls [next()].  A task that is not running cannot
    settle. *)
Definition settle (max : Z) (st : State) (t : Task) (o : Settlement)
    : option State :=
  if in_dec Nat.eq_dec t (running st) then
    Some (next max (mkState (active st - 1) (queue st)
                            (remove Nat.eq_dec t (running st))
                            (started st) (delivered st ++ [(t, o)])
                            (submitted st)))
  else None.

(** What happens to a limiter: a call of [limit], or the settlement of the
    promise of a task. *)
Inductive Event : Type :=
| Submit
| Settle (t : Task) (o : Settlement).

Definition step (max : Z) (st : State) (ev : Event) : option State :=
  match ev with
  | Submit => Some (limit max st)
  | Settle t o => settle max st t o
  end.

(** The state after a sequence of events, if each of them can happen. *)
Fixpoint run (max : Z) (st : State) (evs : list Event) : option State :=
  match evs with
  | [] => Some st
  | ev :: evs' =>
      match step max st ev with
      | Some st' => run max st' evs'
      | None => None
      end
  end.

(** The number of settlements in a sequence of events. *)
Fixpoint settlements (evs : list Event) : nat :=
  match evs with
  | [] => 0
  | Submit :: evs' => settlements evs'
  | Settle _ _ :: evs' => S (settlements evs')
  end.

(** What holds of every state of a limiter with [max >= 0]. *)
Record Invariant (max : Z) (st : State) : Prop := mkInvariant {
  inv_active : active st = Z.of_nat (length (running st));
  inv_bound : Z.of_nat (length (running st)) <= max;
  inv_fifo : started st ++ queue st = seq 0 (submitted st);
  inv_busy : queue st <> [] -> active st = max;
  inv_running : incl (running st) (started st);
  inv_nodup : NoDup (running st);
  inv_delivered :
    forall t, In t (started st) ->
      In t (running st) \/ exists o, In (t, o) (delivered st)
}.

Close Scope Z_scope.

End Limiter.

(* ===================================================================== *)
(** ** Page markers: the OCR stitching and [splitByPages]                 *)
(* ===================================================================== *)

Module Pages.

Open Scope N_scope.

(** The literal [[PAGE] that opens a marker, and the closing bracket. *)
Definition PAGE_open : jsstring := Eval cbv in lit "[PAGE".
Definition BRACKET_open : char := 91.
Definition BRACKET_close : char := 93.

(** Removes the literal [p] from the front of [s], if it is there. *)
Fixpoint strip_prefix (p s : jsstring) : option jsstring :=
  match p, s with
  | [], _ => Some s
  | _ :: _, [] => None
  | c :: p', d :: s' => if c =? d then strip_prefix p' s' else None
  end.

(** The longest prefix of [s] whose code units satisfy [f], and the rest:
    a greedy [f+] or [f*] of a regular expression. *)
Fixpoint span (f : char -> bool) (s : jsstring) : jsstring * jsstring :=
  match s with
  | [] => ([], [])
  | c :: s' =>
      if f c then (c :: fst (span f s'), snd (span f s')) else ([], s)
  end.

(** A match of the regular expression [/\[PAGE\s+(\d+)\]/] at the start of
    [s]: the captured digits and what follows the match.  White space,
    digits and the closing bracket are disjoint classes, so the greedy
    match is the only one and no backtracking is involved. *)
Definition match_marker (s : jsstring) : option (jsstring * jsstring) :=
  match strip_prefix PAGE_open s with
  | None => None
  | Some s1 =>
      match span is_space s1 with
      | ([], _) => None
      | (_ :: _, s2) =>
          match span is_digit s2 with
          | ([], _) => None
          | (d :: ds, []) => None
          | (d :: ds, c :: s3) =>
              if c =? BRACKET_close then Some (d :: ds, s3) else None
          end
      end
  end.

Lemma strip_prefix_length (p s r : jsstring) :
  strip_prefix p s = Some r -> (length r <= length s)%nat.
Proof.
  revert s. induction p as [|c p IH]; intros s H; simpl in H.
  - injection H as <-. lia.
  - destruct s as [|d s]; [discriminate H|].
    destruct (c =? d); [|discriminate H].
    apply IH in H. simpl. lia.
Qed.

Lemma span_length (f : char -> bool) (s : jsstring) :
  (length (snd (span f s)) <= length s)%nat.
Proof.
  induction s as [|c s IH]; simpl; [lia|].
  destruct (f c); simpl; lia.
Qed.

(** A match is not empty: what follows it is shorter than the string. *)
Lemma match_marker_shorter (s ds rest : jsstring) :
  match_marker s = Some (ds, rest) -> (length rest < length s)%nat.
Proof.
  unfold match_marker. intros H.
  destruct (strip_prefix PAGE_open s) as [s1|] eqn:E1; [|discriminate H].
  apply strip_prefix_length in E1.
  pose proof (span_length is_space s1) as L1.
  destruct (span is_space s1) as [[|w ws] s2]; [discriminate H|].
  pose proof (span_length is_digit s2) as L2.
  destruct (span is_digit s2) as [[|d dg] [|c s3]]; try discriminate H.
  destruct (c =? BRACKET_close); [|discriminate H].
  injection H as _ <-. simpl in *. lia.
Qed.

(** A value together with the equation that it is the value. *)
Definition inspect {A : Type} (a : A) : {b : A | a = b} := exist _ a eq_refl.

(** [text.split(/\[PAGE\s+(\d+)\]/g)], scanning [s]: [cur] holds, in
    reverse, the code units since the last match (or the start).  At each
    position the expression is tried; a match closes the current part and
    adds the captured digits, otherwise the scan moves by one code unit. *)
Equations? split_marker (cur s : jsstring) : list jsstring by wf (length s) lt :=
  split_marker cur [] := [rev cur];
  split_marker cur (c :: s') with inspect (match_marker (c :: s')) := {
    | exist _ (Some (ds, rest)) E := rev cur :: ds :: split_marker [] rest;
    | exist _ None E := split_marker (c :: cur) s' }.
Proof.
  apply match_marker_shorter in E. exact E.
Qed.

(** A page of the document: its number and its text. *)
Record PageRecord : Type := mkPage {
  page : N;
  content : jsstring
}.

(** The value of a decimal digit. *)
Definition digit_value (c : char) : N := c - 48.

(** [Number(ds)] for a string of decimal digits (exact below 2^53, where
    a JavaScript number holds every integer). *)
Definition Number_of_digits (ds : jsstring) : N :=
  fold_left (fun acc c => 10 * acc + digit_value c) ds 0.

(** The loop [for (let i = 1; i < parts.length; i += 2)] of [splitByPages]
    over [parts] from index [i] on, with the records it pushes. *)
Fixpoint pages_loop (parts : list jsstring) : list PageRecord :=
  match parts with
  | [] => []
  | [d] =>
      let content := trim [] in
      if truthy content then [mkPage (Number_of_digits d) content] else []
  | d :: c :: parts' =>
      let content := trim c in
      (if truthy content then [mkPage (Number_of_digits d) content] else [])
        ++ pages_loop parts'
  end.

(** [splitByPages(text)]. *)
Definition splitByPages (text : jsstring) : list PageRecord :=
  let parts := split_marker [] text in
  if (length parts <=? 1)%nat then [mkPage 1 text]
  else
    let out := pages_loop (tl parts) in
    match out with
    | [] => [mkPage 1 text]
    | _ :: _ => out
    end.

(** The page numbers captured by the markers of a text, in order: the
    entries of [parts] at the odd indices. *)
Fixpoint captured (parts : list jsstring) : list N :=
  match parts with
  | [] => []
  | [d] => [Number_of_digits d]
  | d :: _ :: parts' => Number_of_digits d :: captured parts'
  end.

Definition marker_numbers (text : jsstring) : list N :=
  captured (tl (split_marker [] text)).

(** A number in a template literal: its decimal digits.  This is what
    [`${n}`] prints for the integers that a JavaScript number holds
    exactly, up to 2^53; from 10^21 on the literal is in exponent form,
    which [decimal] does not describe. *)
Fixpoint digits_fuel (fuel : nat) (n : N) : jsstring :=
  match fuel with
  | O => []
  | S fuel' =>
      if n <? 10 then [48 + n]
      else digits_fuel fuel' (n / 10) ++ [48 + n mod 10]
  end.

Definition decimal (n : N) : jsstring := digits_fuel (S (N.to_nat (N.log2 n))) n.

(** The marker [[PAGE n]]. *)
Definition marker (pageNum : N) : jsstring :=
  PAGE_open ++ SP :: decimal pageNum ++ [BRACKET_close].

(** What [ocrPdfToText] appends for one page:
    [`\n\n[PAGE ${pageNum}]\n${data.text || ""}`]. *)
Definition page_block (pageNum : N) (text : jsstring) : jsstring :=
  LF :: LF :: marker pageNum ++ LF :: text.

(** The loop of [ocrPdfToText] over the page images, given the number and
    the recognized text of each page. *)
Definition stitch (pages : list (N * jsstring)) : jsstring :=
  fold_left (fun fullText p => fullText ++ page_block (fst p) (snd p)) pages [].

(** The [text] of the result of [ocrPdfToText]: [fullText.trim()]. *)
Definition ocr_text (pages : list (N * jsstring)) : jsstring :=
  trim (stitch pages).

(** Page texts numbered from [k] on: the pages of a document are the
    images [page-1.png], [page-2.png], ... in numeric order. *)
Fixpoint number_from (k : N) (texts : list jsstring) : list (N * jsstring) :=
  match texts with
  | [] => []
  | p :: texts' => (k, p) :: number_from (N.succ k) texts'
  end.

(** Whether the marker expression matches somewhere in [s]. *)
Fixpoint has_marker (s : jsstring) : bool :=
  match s with
  | [] => false
  | _ :: s' =>
      match match_marker s with
      | Some _ => true
      | None => has_marker s'
      end
  end.

(** No match of the marker expression starts inside [s] when [s] is
    followed by [t]. *)
Fixpoint no_match_before (s t : jsstring) : Prop :=
  match s with
  | [] => True
  | c :: s' => match_marker (c :: s' ++ t) = None /\ no_match_before s' t
  end.

(** The stitched text from the text [p] of a page on, [ps] being the texts
    of the pages after it, numbered from [k]; the white space at the end
    of the last page is removed by the final [trim]. *)
Fixpoint body (k : N) (p : jsstring) (ps : list jsstring) : jsstring :=
  match ps with
  | [] => trimEnd p
  | p' :: ps' => p ++ LF :: LF :: marker k ++ LF :: body (N.succ k) p' ps'
  end.

(** The parts that [split] finds in [LF :: body k p ps]. *)
Fixpoint segments (k : N) (p : jsstring) (ps : list jsstring) : list jsstring :=
  match ps with
  | [] => [LF :: trimEnd p]
  | p' :: ps' => (LF :: p ++ [LF; LF]) :: decimal k :: segments (N.succ k) p' ps'
  end.

(** The record expected for a numbered page text. *)
Definition record_of (np : N * jsstring) : PageRecord :=
  mkPage (fst np) (trim (snd np)).

(** A page text that [splitByPages] can give back: it is not blank and the
    marker expression matches nowhere in it. *)
Definition plain_page (p : jsstring) : Prop :=
  trim p <> [] /\ has_marker p = false.

(** The markers of a text, each with what follows it up to the next
    marker: the number of the entry of [parts] at an odd index, paired
    with the entry after it ([parts[i + 1] || ""]). *)
Fixpoint marker_pairs (parts : list jsstring) : list (N * jsstring) :=
  match parts with
  | [] => []
  | [d] => [(Number_of_digits d, [])]
  | d :: c :: parts' => (Number_of_digits d, c) :: marker_pairs parts'
  end.

Definition markers_with_text (text : jsstring) : list (N * jsstring) :=
  marker_pairs (tl (split_marker [] text)).

(** Whether the text after a marker is kept: it is not blank. *)
Definition nonblank (np : N * jsstring) : bool := truthy (trim (snd np)).

(** Sample texts. *)
Definition out_of_order : jsstring :=
  Eval cbv in lit "[PAGE 2] second [PAGE 1] first".

Definition blank_between : jsstring :=
  Eval cbv in lit "[PAGE 1] first [PAGE 2]  [PAGE 3] third [PAGE 3] again".

Definition sample_pages : list jsstring :=
  Eval cbv in [lit "Hello world"; lit " second page "; lit "3"].

Close Scope N_scope.

End Pages.

(* ===================================================================== *)
(** ** Errors, and the text extractor ([extractTextSmart])                *)
(* ===================================================================== *)

Module Extract.

(** The result of a call that may throw. *)
Inductive Outcome (E A : Type) : Type :=
| Ok (a : A)
| Threw (e : E).
Arguments Ok {E A} a.
Arguments Threw {E A} e.

(** [{ text, usedOcr }]. *)
Record ExtractionResult : Type := mkExtraction {
  text : jsstring;
  usedOcr : bool
}.

Section ExtractTextSmart.

Variables (Buffer Path Err : Type).

(** [parsePdf buffer] is the [text] field of what [pdfParse] returns
    ([None] for [undefined]); [ocrPdfToText path] is the [text] and the
    [pages] of the OCR of the document. *)
Variable parsePdf : Buffer -> Outcome Err (option jsstring).
Variable ocrPdfToText : Path -> Outcome Err (jsstring * nat).

(** [(parsed.text || "").trim()]. *)
Definition native_text (parsed_text : option jsstring) : jsstring :=
  trim (match parsed_text with Some s => s | None => [] end).

(** [extractTextSmart(pdfBuffer, pdfPath)]. *)
Definition extractTextSmart (pdfBuffer : Buffer) (pdfPath : Path)
    : Outcome Err ExtractionResult :=
  match parsePdf pdfBuffer with
  | Threw e => Threw e
  | Ok parsed_text =>
      let t := native_text parsed_text in
      if (len t <? 300)%Z then
        match ocrPdfToText pdfPath with
        | Threw e => Threw e
        | Ok ocr => Ok (mkExtraction (fst ocr) true)
        end
      else Ok (mkExtraction t false)
  end.

End ExtractTextSmart.

Arguments extractTextSmart {Buffer Path Err} parsePdf ocrPdfToText pdfBuffer pdfPath.

(** Sample documents: the buffer is the text that native extraction finds;
    the OCR of every document finds one page. *)
Definition parse_as_is (buffer : jsstring) : Outcome unit (option jsstring) :=
  Ok (Some buffer).

Definition scanned : jsstring := Eval cbv in lit "[PAGE 1] scanned text".

Definition ocr_one_page (path : unit) : Outcome unit (jsstring * nat) :=
  Ok (scanned, 1).

(** A native text of 300 letters after a line feed. *)
Definition padded_text : jsstring := LF :: repeat 97%N 300.

End Extract.

(* ===================================================================== *)
(** ** The ingestion driver ([main])                                      *)
(* ===================================================================== *)

Module Ingest.

Import Extract Pages Chunker.

Section Main.

(** File names, buffers, thrown values, the numbers of an embedding and
    the text of a vector literal are left abstract. *)
Variables (File Buffer Err Num Literal : Type).

(** A row of [rag_chunks], without its [id]. *)
Record Row : Type := mkRow {
  source : File;
  page_of : N;
  chunk_index : nat;
  chunk : jsstring;
  embedding : Literal
}.

(** The state that [main] changes: the rows of the table, in the order of
    their insertion, and the number of calls of [embed] so far. *)
Record State : Type := mkState {
  db : list Row;
  embed_calls : nat
}.

(** How a run ends: normally, by a thrown value, or not at all. *)
Inductive Run (A : Type) : Type :=
| Finished (a : A) (st : State)
| Aborted (e : Err) (st : State)
| Diverged.
Arguments Finished {A} a st.
Arguments Aborted {A} e st.
Arguments Diverged {A}.

(** Computations on the state that may throw. *)
Definition M (A : Type) : Type := State -> Run A.

Definition ret {A : Type} (a : A) : M A := fun st => Finished a st.

Definition bind {A B : Type} (m : M A) (k : A -> M B) : M B :=
  fun st =>
    match m st with
    | Finished a st' => k a st'
    | Aborted e st' => Aborted e st'
    | Diverged => Diverged
    end.

Notation "x <- m ;; k" := (bind m (fun x => k))
  (at level 61, m at next level, right associativity).
Notation "m ;;; k" := (bind m (fun _ => k))
  (at level 61, right associativity).

Definition lift {A : Type} (o : Outcome Err A) : M A :=
  fun st =>
    match o with
    | Ok a => Finished a st
    | Threw e => Aborted e st
    end.

(** The environment of [main]: the check of [DATABASE_URL], [db.connect()]
    and [ensureSchema(db)]; the test [f.toLowerCase().endsWith(".pdf")];
    [fs.readFileSync]; the text of [pdfParse] and the OCR of a file;
    [embed], whose result may depend on the number of earlier calls; the
    text of a vector literal; what the store answers to the insertion of
    a row ([None] when it accepts the row); the error of an empty vector. *)
Variable startup : Outcome Err unit.
Variable is_pdf : File -> bool.
Variable readFileSync : File -> Outcome Err Buffer.
Variable parsePdf : Buffer -> Outcome Err (option jsstring).
Variable ocrPdfToText : File -> Outcome Err (jsstring * nat).
Variable embed : nat -> jsstring -> Outcome Err (list Num).
Variable vector_literal : list Num -> Literal.
Variable insert_error : Row -> option Err.
Variable empty_vector : Err.

(** [await embed(ch)]. *)
Definition embed_m (ch : jsstring) : M (list Num) :=
  fun st =>
    let st' := mkState (db st) (S (embed_calls st)) in
    match embed (embed_calls st) ch with
    | Ok vec => Finished vec st'
    | Threw e => Aborted e st'
    end.

(** [toVectorLiteral(v)]. *)
Definition toVectorLiteral (v : list Num) : Outcome Err Literal :=
  match v with
  | [] => Threw empty_vector
  | _ :: _ => Ok (vector_literal v)
  end.

(** [await db.query(`INSERT INTO public.rag_chunks ...`, [...])]. *)
Definition insert_m (row : Row) : M unit :=
  fun st =>
    match insert_error row with
    | Some e => Aborted e st
    | None => Finished tt (mkState (db st ++ [row]) (embed_calls st))
    end.

(** The loop [for (let idx = 0; idx < chunks.length; idx++)], from [idx]
    on, [chunks] being the chunks from that index on. *)
Fixpoint chunk_loop (file : File) (page : N) (idx : nat) (chunks : list jsstring)
    : M unit :=
  match chunks with
  | [] => ret tt
  | ch :: chunks' =>
      vec <- embed_m ch ;;
      vecLit <- lift (toVectorLiteral vec) ;;
      insert_m (mkRow file page idx ch vecLit) ;;;
      chunk_loop file page (S idx) chunks'
  end.

(** [chunkText(p.content, 900, 150)].  The offset grows by 750 at each
    iteration, so the loop ends within [length content] iterations. *)
Definition chunk_page (content : jsstring) : M (list jsstring) :=
  fun st =>
    match chunkText (S (length content)) content 900 150 with
    | Some chunks => Finished chunks st
    | None => Diverged
    end.

(** The loop [for (const p of pages)]. *)
Fixpoint page_loop (file : File) (pages : list PageRecord) : M unit :=
  match pages with
  | [] => ret tt
  | p :: pages' =>
      chunks <- chunk_page (content p) ;;
      chunk_loop file (page p) 0 chunks ;;;
      page_loop file pages'
  end.

(** [usedOcr ? splitByPages(text) : [{ page: 1, content: text }]]. *)
Definition pages_of (r : ExtractionResult) : list PageRecord :=
  if usedOcr r then splitByPages (text r) else [mkPage 1 (text r)].

(** The loop [for (const file of files)]. *)
Fixpoint file_loop (files : list File) : M unit :=
  match files with
  | [] => ret tt
  | file :: files' =>
      pdfBuffer <- lift (readFileSync file) ;;
      r <- lift (extractTextSmart parsePdf ocrPdfToText pdfBuffer file) ;;
      page_loop file (pages_of r) ;;;
      file_loop files'
  end.

(** [main()], [listing] being what [fs.readdirSync(POLICIES_DIR)] returns. *)
Definition main (listing : list File) : M unit :=
  lift startup ;;;
  file_loop (filter is_pdf listing).

(** *** The order that the specification gives to the rows *)

(** What identifies a row: file, page, index of the chunk, chunk. *)
Definition Key : Type := File * N * nat * jsstring.

Definition key (r : Row) : Key := (source r, page_of r, chunk_index r, chunk r).

(** The chunks of a page. *)
Definition chunks_of (content : jsstring) : list jsstring :=
  match chunkText (S (length content)) content 900 150 with
  | Some chunks => chunks
  | None => []
  end.

(** The keys of the rows of [chunks], with the indices [idx], [idx + 1], ... *)
Definition chunk_plan (file : File) (page : N) (idx : nat) (chunks : list jsstring)
    : list Key :=
  map (fun ic => (file, page, fst ic, snd ic))
      (combine (seq idx (length chunks)) chunks).

(** The keys of a page: its chunks with the indices 0, 1, 2, ... *)
Definition page_plan (file : File) (p : PageRecord) : list Key :=
  chunk_plan file (page p) 0 (chunks_of (content p)).

(** The keys of a file: those of its pages, in the order of the pages. *)
Definition file_plan (file : File) : list Key :=
  match readFileSync file with
  | Threw _ => []
  | Ok pdfBuffer =>
      match extractTextSmart parsePdf ocrPdfToText pdfBuffer file with
      | Threw _ => []
      | Ok r => flat_map (page_plan file) (pages_of r)
      end
  end.

(** The keys of a run: those of the files, in the order of the listing. *)
Definition plan (listing : list File) : list Key :=
  flat_map file_plan (filter is_pdf listing).

(** [embed], the literal of its vector and the insertion of the row, for
    the chunk [ch] of index [idx]: the body of the innermost loop. *)
Definition insert_chunk (file : File) (page : N) (idx : nat) (ch : jsstring)
    : M unit :=
  vec <- embed_m ch ;;
  vecLit <- lift (toVectorLiteral vec) ;;
  insert_m (mkRow file page idx ch vecLit).

(** A run from [st] appends rows with the keys [expected], one call of
    [embed] for each; if it is aborted, it has appended the first of
    these rows, and has called [embed] at most once for a row that it did
    not insert. *)
Definition appends {A : Type} (expected : list Key) (st : State) (r : Run A)
    : Prop :=
  match r with
  | Finished _ st' =>
      exists rows,
        db st' = db st ++ rows /\ map key rows = expected /\
        embed_calls st' = embed_calls st + length rows
  | Aborted _ st' =>
      exists rows rest,
        db st' = db st ++ rows /\ expected = map key rows ++ rest /\
        embed_calls st + length rows <= embed_calls st' /\
        embed_calls st' <= embed_calls st + length rows + 1
  | Diverged => False
  end.

End Main.

Arguments Finished {File Err Literal A} a st.
Arguments Aborted {File Err Literal A} e st.
Arguments Diverged {File Err Literal A}.
Arguments mkRow {File Literal} source page_of chunk_index chunk embedding.
Arguments mkState {File Literal} db embed_calls.
Arguments db {File Literal} s.
Arguments embed_calls {File Literal} s.
Arguments source {File Literal} r.
Arguments page_of {File Literal} r.
Arguments chunk_index {File Literal} r.
Arguments chunk {File Literal} r.
Arguments key {File Literal} r.
Arguments ret {File Err Literal A} a st.
Arguments bind {File Err Literal A B} m k st.
Arguments lift {File Err Literal A} o st.
Arguments embed_m {File Err Num Literal} embed ch st.
Arguments toVectorLiteral {Err Num Literal} vector_literal empty_vector v.
Arguments insert_m {File Err Literal} insert_error row st.
Arguments chunk_loop {File Err Num Literal} embed vector_literal insert_error
  empty_vector file page idx chunks st.
Arguments insert_chunk {File Err Num Literal} embed vector_literal insert_error
  empty_vector file page idx ch st.
Arguments chunk_page {File Err Literal} content st.
Arguments page_loop {File Err Num Literal} embed vector_literal insert_error
  empty_vector file pages st.
Arguments file_loop {File Buffer Err Num Literal} readFileSync parsePdf
  ocrPdfToText embed vector_literal insert_error empty_vector files st.
Arguments main {File Buffer Err Num Literal} startup is_pdf readFileSync parsePdf
  ocrPdfToText embed vector_literal insert_error empty_vector listing st.
Arguments chunk_plan {File} file page idx chunks.
Arguments page_plan {File} file p.
Arguments file_plan {File Buffer Err} readFileSync parsePdf ocrPdfToText file.
Arguments plan {File Buffer Err} is_pdf readFileSync parsePdf ocrPdfToText listing.
Arguments appends {File Err Literal A} expected st r.

(** A sample run: one document of 1000 letters that native extraction
    reads, an [embed] that returns the rank of its call, a store that
    accepts every row. *)
Definition sample_main (listing : list nat) :
    M nat nat (list nat) unit :=
  main (Ok tt) (fun _ => true)
       (fun _ => Ok (repeat 97%N 1000))
       (fun buffer => Ok (Some buffer))
       (fun _ => Threw 0)
       (fun n _ => Ok [n])
       (fun v => v)
       (fun _ => None)
       1
       listing.

End Ingest.

(* ===================================================================== *)
(** ** Collapsed white space                                              *)
(* ===================================================================== *)

Module Whitespace.

(** Whether every white space code unit of [s] is a space that does not
    follow another one; [after_space] tells that the code unit before [s]
    is white space. *)
Fixpoint single_spaced (after_space : bool) (s : jsstring) : bool :=
  match s with
  | [] => true
  | c :: s' =>
      if is_space c
      then (c =? SP)%N && negb after_space && single_spaced true s'
      else single_spaced false s'
  end.

End Whitespace.

(* ===================================================================== *)
(** ** The pacer ([paceEmbeds])                                           *)
(* ===================================================================== *)

Module Pacer.

Open Scope Z_scope.

(** What the clock shows during one call of [paceEmbeds]: [now] is the
    first [Date.now()], [woke] the [Date.now()] that is stored, after the
    sleep if there is one. *)
Record Reading : Type := mkReading {
  now : Z;
  woke : Z
}.

(** The argument of [sleep], if [paceEmbeds] sleeps. *)
Definition pause (EMBED_MIN_DELAY_MS lastEmbedCallAt now : Z) : option Z :=
  let elapsed := now - lastEmbedCallAt in
  if elapsed <? EMBED_MIN_DELAY_MS
  then Some (EMBED_MIN_DELAY_MS - elapsed)
  else None.

(** [paceEmbeds()]: the sleep it asks for, and the new value of
    [lastEmbedCallAt]. *)
Definition paceEmbeds (EMBED_MIN_DELAY_MS lastEmbedCallAt : Z) (r : Reading)
    : option Z * Z :=
  (pause EMBED_MIN_DELAY_MS lastEmbedCallAt (now r), woke r).

(** The values of [lastEmbedCallAt] after successive calls. *)
Fixpoint pace_all (EMBED_MIN_DELAY_MS lastEmbedCallAt : Z) (rs : list Reading)
    : list Z :=
  match rs with
  | [] => []
  | r :: rs' =>
      let last' := snd (paceEmbeds EMBED_MIN_DELAY_MS lastEmbedCallAt r) in
      last' :: pace_all EMBED_MIN_DELAY_MS last' rs'
  end.

(** The clock during a call: a timer does not fire early, and the clock
    does not go back between the two readings. *)
Definition on_time (EMBED_MIN_DELAY_MS lastEmbedCallAt : Z) (r : Reading) : Prop :=
  match pause EMBED_MIN_DELAY_MS lastEmbedCallAt (now r) with
  | Some ms => now r + ms <= woke r
  | None => now r <= woke r
  end.

Fixpoint all_on_time (EMBED_MIN_DELAY_MS lastEmbedCallAt : Z) (rs : list Reading)
    : Prop :=
  match rs with
  | [] => True
  | r :: rs' =>
      on_time EMBED_MIN_DELAY_MS lastEmbedCallAt r /\
      all_on_time EMBED_MIN_DELAY_MS (woke r) rs'
  end.

(** Times that are at least [d] apart, from [prev] on. *)
Fixpoint spaced (d prev : Z) (times : list Z) : Prop :=
  match times with
  | [] => True
  | t :: times' => prev + d <= t /\ spaced d t times'
  end.

Definition sample_readings : list Reading :=
  [mkReading 1000 1000; mkReading 1040 1152; mkReading 1400 1401].

Close Scope Z_scope.

End Pacer.

(* ===================================================================== *)
(** ** The limiter as the driver uses it                                  *)
(* ===================================================================== *)

Module LimiterUse.

Import Limiter.

(** The events of calls of [limit] that are awaited one after the other,
    as the driver awaits [embed]: each task is submitted and settles
    before the next call.  [first] is the rank of the first task,
    [outcomes] tells how the tasks settle. *)
Fixpoint one_at_a_time (first : nat) (outcomes : list Settlement) : list Event :=
  match outcomes with
  | [] => []
  | o :: outcomes' =>
      Submit :: Settle first o :: one_at_a_time (S first) outcomes'
  end.

(** The states that a limiter goes through when it is used for one task
    at a time: idle, or running the one task that was just submitted. *)
Definition at_most_one (st : State) : Prop :=
  queue st = [] /\ (length (running st) <= 1)%nat.

(** The tasks whose settlement has been delivered are distinct, are not
    running, and have been started. *)
Definition Settled (st : State) : Prop :=
  NoDup (map fst (delivered st) ++ running st) /\
  incl (map fst (delivered st)) (started st).

(** The bound of [limitEmbed]: [Math.max(1, EMBED_CONCURRENCY)]. *)
Definition limitEmbed_max (EMBED_CONCURRENCY : Z) : Z := Z.max 1 EMBED_CONCURRENCY.

End LimiterUse.

(* ===================================================================== *)
(** ** The page images of the OCR ([ocrPdfToText])                        *)
(* ===================================================================== *)

Module OcrImages.

Import Pages.

Open Scope N_scope.

(** The literals [page-] and [.png]. *)
Definition PAGE_dash : jsstring := Eval cbv in lit "page-".
Definition DOT_png : jsstring := Eval cbv in lit ".png".

(** [s.startsWith(p)]. *)
Definition startsWith (s p : jsstring) : bool :=
  match strip_prefix p s with
  | Some _ => true
  | None => false
  end.

(** [s.endsWith(p)]. *)
Definition endsWith (s p : jsstring) : bool := startsWith (rev s) (rev p).

(** A match of [/page-(\d+)\.png/] at the start of [s]: the digits. *)
Definition match_page_png (s : jsstring) : option jsstring :=
  match strip_prefix PAGE_dash s with
  | None => None
  | Some s1 =>
      match span is_digit s1 with
      | ([], _) => None
      | (d :: ds, s2) =>
          match strip_prefix DOT_png s2 with
          | Some _ => Some (d :: ds)
          | None => None
          end
      end
  end.

(** [s.match(/page-(\d+)\.png/)?.[1]]: the digits of the leftmost match. *)
Fixpoint search_page_png (s : jsstring) : option jsstring :=
  match s with
  | [] => None
  | _ :: s' =>
      match match_page_png s with
      | Some ds => Some ds
      | None => search_page_png s'
      end
  end.

(** [Number(name.match(/page-(\d+)\.png/)?.[1] ?? 0)], exact for the
    names whose number is at most [MAX_SAFE_INTEGER] below. *)
Definition page_number (name : jsstring) : N :=
  match search_page_png name with
  | Some ds => Number_of_digits ds
  | None => 0
  end.

(** [Number.MAX_SAFE_INTEGER], 2^53 - 1.  Up to it every integer is a
    JavaScript number: [Number] of its digits is the integer itself and a
    template literal prints all its digits.  Above it [Number] rounds, so
    [page_number] and [decimal] describe the code for page numbers up to
    this bound only. *)
Definition MAX_SAFE_INTEGER : N := 9007199254740991.

(** The page numbers of the names are integers that JavaScript holds
    exactly. *)
Definition safe_page_numbers (names : list jsstring) : Prop :=
  Forall (fun f => page_number f <= MAX_SAFE_INTEGER) names.

(** [f.startsWith("page-") && f.endsWith(".png")]. *)
Definition is_page_image (f : jsstring) : bool :=
  startsWith f PAGE_dash && endsWith f DOT_png.

(** The sort of the images with the comparator [pa - pb].  The sort of an
    array is stable, and the comparator orders the names by their page
    numbers, so the result is the one of any stable sort: here the
    insertion, from the last name to the first, of each name before the
    first name whose page number is not smaller. *)
Fixpoint insert_image (a : jsstring) (sorted : list jsstring) : list jsstring :=
  match sorted with
  | [] => [a]
  | b :: rest =>
      if page_number a <=? page_number b then a :: sorted
      else b :: insert_image a rest
  end.

Definition sort_images (names : list jsstring) : list jsstring :=
  fold_right insert_image [] names.

(** [images], [listing] being what [fs.readdirSync(tmpDir)] returns. *)
Definition images (listing : list jsstring) : list jsstring :=
  sort_images (filter is_page_image listing).

Section Recognition.

(** [recognize imgName] is the text [data.text || ""] that the worker
    recognizes in the image. *)
Variable recognize : jsstring -> jsstring.

(** The number and the text of the page of each image. *)
Definition pages_of_images (imgs : list jsstring) : list (N * jsstring) :=
  map (fun imgName => (page_number imgName, recognize imgName)) imgs.

(** What [ocrPdfToText] returns when nothing throws: [text] and [pages]. *)
Definition ocrPdfToText (listing : list jsstring) : jsstring * nat :=
  let imgs := images listing in
  (ocr_text (pages_of_images imgs), length imgs).

End Recognition.

(** The name [page-<digits>.png] that the rasterizer gives to a page. *)
Definition page_file (digits : jsstring) : jsstring :=
  PAGE_dash ++ digits ++ DOT_png.

(** What the loop appends for a page, given its number and its text. *)
Definition block_of (q : N * jsstring) : jsstring := page_block (fst q) (snd q).

(** The stitched text from the text [p] of a page on, [rest] being the
    numbers and texts of the pages after it. *)
Fixpoint body_of (p : jsstring) (rest : list (N * jsstring)) : jsstring :=
  match rest with
  | [] => trimEnd p
  | (k, p') :: rest' => p ++ LF :: LF :: marker k ++ LF :: body_of p' rest'
  end.

(** The parts that [split] finds in [LF :: body_of p rest]. *)
Fixpoint segments_of (p : jsstring) (rest : list (N * jsstring)) : list jsstring :=
  match rest with
  | [] => [LF :: trimEnd p]
  | (k, p') :: rest' => (LF :: p ++ [LF; LF]) :: decimal k :: segments_of p' rest'
  end.

(** A directory listing with ten pages and another file, and the text
    that is recognized in each image: its own name. *)
Definition sample_listing : list jsstring :=
  Eval cbv in
    [lit "page-10.png"; lit "page-09.png"; lit "notes.txt"; lit "page-2.png"].

Close Scope N_scope.

End OcrImages.

(* ===================================================================== *)
(** ** Vector literals ([toVectorLiteral])                                *)
(* ===================================================================== *)

Module VectorLiteral.

Import Extract.

Open Scope N_scope.

Definition COMMA : char := 44.

(** [parts.join(sep)]. *)
Fixpoint join (sep : jsstring) (parts : list jsstring) : jsstring :=
  match parts with
  | [] => []
  | [p] => p
  | p :: rest => p ++ sep ++ join sep rest
  end.

(** A part that is not empty and holds no comma. *)
Definition piece (p : jsstring) : Prop := ~ In COMMA p /\ p <> [].

Section Render.

(** The numbers of a vector, and [render x], the text
    [Number(x).toString()] of a number. *)
Variable Num : Type.
Variable render : Num -> jsstring.

(** [`[${v.map((x) => Number(x).toString()).join(",")}]`]. *)
Definition literal_of (v : list Num) : jsstring :=
  Pages.BRACKET_open :: join [COMMA] (map render v) ++ [Pages.BRACKET_close].

(** [toVectorLiteral] of the search ([rag.ts]): the literal, also of an
    empty vector. *)
Definition toVectorLiteral_search (v : list Num) : jsstring := literal_of v.

(** [toVectorLiteral] of the ingestion script, which throws
    [Error("Empty embedding vector")] for an empty vector: the function of
    the driver, with the literal made explicit. *)
Definition toVectorLiteral_ingest {Err : Type} (empty_vector : Err)
    (v : list Num) : Outcome Err jsstring :=
  Ingest.toVectorLiteral literal_of empty_vector v.

End Render.

Arguments literal_of {Num} render v.
Arguments toVectorLiteral_search {Num} render v.
Arguments toVectorLiteral_ingest {Num} render {Err} empty_vector v.

(** A rendering of natural numbers for examples: their decimal digits. *)
Definition render_nat (n : nat) : jsstring := Pages.decimal (N.of_nat n).

Close Scope N_scope.

End VectorLiteral.

(* ===================================================================== *)
(** ** Notions about the rows of a run                                    *)
(* ===================================================================== *)

Module IngestNotions.

Import Extract Ingest.

Section Rows.

Variables (File Err Num Literal : Type).
Variable embed : nat -> jsstring -> Outcome Err (list Num).
Variable vector_literal : list Num -> Literal.
Variable insert_error : Row File Literal -> option Err.

(** A row that the store accepted and whose embedding is the literal of a
    vector, not empty, that [embed] returned for the chunk of the row. *)
Definition embedded_row (row : Row File Literal) : Prop :=
  insert_error row = None /\
  exists n vec,
    embed n (chunk row) = Ok vec /\ vec <> [] /\
    embedding _ _ row = vector_literal vec.

(** A run from [st] keeps the rows of the table and appends rows that
    satisfy [P]. *)
Definition grows {A : Type} (P : Row File Literal -> Prop)
    (st : State File Literal) (r : Run File Err Literal A) : Prop :=
  match r with
  | Finished _ st' | Aborted _ st' =>
      exists rows, db st' = db st ++ rows /\ Forall P rows
  | Diverged => True
  end.

(** What holds of a key: the file is a PDF of the listing, the chunk has
    more than 60 and at most 900 code units and no white space at its
    ends. *)
Definition good_key (is_pdf : File -> bool) (listing : list File)
    (k : Key File) : Prop :=
  let '(file, _, _, ch) := k in
  is_pdf file = true /\ In file listing /\
  (60 < len ch <= 900)%Z /\ trim ch = ch.

End Rows.

Arguments embedded_row {File Err Num Literal} embed vector_literal insert_error row.
Arguments grows {File Err Literal A} P st r.
Arguments good_key {File} is_pdf listing k.

End IngestNotions.

(* ===================================================================== *)
(** ** Facts about JavaScript strings                                     *)
(* ===================================================================== *)

Module JSFacts.

Lemma trimStart_length (s : jsstring) : length (trimStart s) <= length s.
Proof.
  induction s as [|c s IH]; simpl; [lia|].
  destruct (is_space c); simpl; lia.
Qed.

Lemma trimEnd_length (s : jsstring) : length (trimEnd s) <= length s.
Proof.
  unfold trimEnd. rewrite length_rev.
  pose proof (trimStart_length (rev s)) as H.
  rewrite length_rev in H. exact H.
Qed.

Lemma trim_length (s : jsstring) : length (trim s) <= length s.
Proof.
  unfold trim.
  pose proof (trimEnd_length (trimStart s)).
  pose proof (trimStart_length s). lia.
Qed.

Lemma replace_ws_length (b : bool) (s : jsstring) :
  length (replace_ws b s) <= length s.
Proof.
  revert b. induction s as [|c s IH]; intros b; simpl; [lia|].
  destruct (is_space c); [destruct b|]; simpl.
  - specialize (IH true). lia.
  - specialize (IH true). lia.
  - specialize (IH false). lia.
Qed.

(** White space in front of a string is removed by [trimStart]. *)
Lemma trimStart_app_space (w s : jsstring) :
  forallb is_space w = true -> trimStart (w ++ s) = trimStart s.
Proof.
  induction w as [|c w IH]; simpl; [reflexivity|].
  intros H. apply andb_true_iff in H as [Hc Hw].
  rewrite Hc. auto.
Qed.

(** [trimStart] stops at the first code unit that is not white space. *)
Lemma trimStart_app_stop (u v : jsstring) (c : char) :
  is_space c = false ->
  trimStart (u ++ c :: v) = trimStart u ++ c :: v.
Proof.
  intros Hc. induction u as [|d u IH]; simpl.
  - rewrite Hc. reflexivity.
  - destruct (is_space d); [exact IH | reflexivity].
Qed.

Lemma trimStart_stop (c : char) (s : jsstring) :
  is_space c = false -> trimStart (c :: s) = c :: s.
Proof. intros H. simpl. rewrite H. reflexivity. Qed.

Lemma trimStart_all_space (w : jsstring) :
  forallb is_space w = true -> trimStart w = [].
Proof.
  intros H. rewrite <- (app_nil_r w). rewrite trimStart_app_space; auto.
Qed.

Lemma trimEnd_app_space (s w : jsstring) :
  forallb is_space w = true -> trimEnd (s ++ w) = trimEnd s.
Proof.
  intros H. unfold trimEnd. rewrite rev_app_distr.
  rewrite trimStart_app_space; [reflexivity|].
  rewrite forallb_forall in *. intros x Hx. apply H.
  apply in_rev. exact Hx.
Qed.

(** [trimEnd] leaves everything up to the last code unit that is not white
    space. *)
Lemma trimEnd_app_stop (u v : jsstring) (c : char) :
  is_space c = false ->
  trimEnd (u ++ c :: v) = u ++ c :: trimEnd v.
Proof.
  intros Hc. unfold trimEnd.
  rewrite rev_app_distr. simpl. rewrite <- app_assoc. simpl.
  rewrite trimStart_app_stop by exact Hc.
  rewrite rev_app_distr. simpl. rewrite rev_involutive.
  rewrite <- app_assoc. reflexivity.
Qed.

Lemma trimEnd_nil : trimEnd [] = [].
Proof. reflexivity. Qed.

Lemma trimStart_idem (s : jsstring) : trimStart (trimStart s) = trimStart s.
Proof.
  induction s as [|c s IH]; simpl; [reflexivity|].
  destruct (is_space c) eqn:E; [exact IH|].
  simpl. rewrite E. reflexivity.
Qed.

Lemma trimEnd_idem (s : jsstring) : trimEnd (trimEnd s) = trimEnd s.
Proof.
  unfold trimEnd. rewrite rev_involutive, trimStart_idem. reflexivity.
Qed.

(** A string is either white space only, or has a first code unit that is
    not white space. *)
Lemma trimStart_cases (s : jsstring) :
  (forallb is_space s = true /\ trimStart s = []) \/
  (exists w c r, s = w ++ c :: r /\ forallb is_space w = true /\
                 is_space c = false /\ trimStart s = c :: r).
Proof.
  induction s as [|d s IH]; simpl.
  - left. split; reflexivity.
  - destruct (is_space d) eqn:E.
    + destruct IH as [[Ha Hb]|(w & c & r & -> & Hw & Hc & Ht)].
      * left. simpl. auto.
      * right. exists (d :: w), c, r. simpl. rewrite E, Hw. auto.
    + right. exists [], d, s. simpl. auto.
Qed.

(** The result of [trim] is not changed by [trimStart]. *)
Lemma trimStart_trim (s : jsstring) : trimStart (trim s) = trim s.
Proof.
  unfold trim.
  destruct (trimStart_cases s) as [[_ ->]|(w & c & r & _ & _ & Hc & ->)].
  - reflexivity.
  - pose proof (trimEnd_app_stop [] r c Hc) as E. simpl in E.
    rewrite E. simpl. rewrite Hc. reflexivity.
Qed.

(** [trim] is idempotent. *)
Lemma trim_idem (s : jsstring) : trim (trim s) = trim s.
Proof.
  unfold trim at 1. rewrite trimStart_trim.
  unfold trim. apply trimEnd_idem.
Qed.

(** [trim] removes white space at both ends. *)
Lemma trim_app_space (w1 s w2 : jsstring) :
  forallb is_space w1 = true -> forallb is_space w2 = true ->
  trim (w1 ++ s ++ w2) = trim s.
Proof.
  intros H1 H2. unfold trim. rewrite trimStart_app_space by exact H1.
  destruct (trimStart_cases s) as [[Ha Hb]|(w & c & r & -> & Hw & Hc & Ht)].
  - rewrite Hb. rewrite <- (app_nil_l w2) at 1.
    rewrite trimStart_app_space; [|exact Ha].
    rewrite trimStart_all_space by exact H2. reflexivity.
  - rewrite Ht. rewrite <- app_assoc. rewrite trimStart_app_space by exact Hw.
    simpl. rewrite Hc.
    change (c :: r ++ w2) with ((c :: r) ++ w2).
    apply trimEnd_app_space. exact H2.
Qed.

Lemma len_nonneg (s : jsstring) : (0 <= len s)%Z.
Proof. unfold len. lia. Qed.

Lemma rel_index_nonneg (l k : Z) :
  (0 <= k)%Z -> rel_index l k = Z.min k l.
Proof.
  intros H. unfold rel_index.
  destruct (Z.ltb_spec k 0); [lia | reflexivity].
Qed.

Lemma rel_index_range (l k : Z) :
  (0 <= l)%Z -> (0 <= rel_index l k <= l)%Z.
Proof.
  intros H. unfold rel_index. destruct (Z.ltb_spec k 0); lia.
Qed.

(** A slice that starts at 0 and ends at or after the end is the string. *)
Lemma slice_all (s : jsstring) (b : Z) :
  (len s <= b)%Z -> slice s 0 b = s.
Proof.
  intros H. pose proof (len_nonneg s). unfold slice.
  rewrite !rel_index_nonneg by lia.
  rewrite Z.min_r by lia. rewrite Z.min_l by lia. simpl.
  rewrite Z.sub_0_r. unfold len. rewrite Nat2Z.id. apply firstn_all.
Qed.

(** A slice from a non-negative offset holds at most what follows it. *)
Lemma slice_length_le (s : jsstring) (a b : Z) :
  (0 <= a)%Z -> (len (slice s a b) <= len s - a)%Z \/ slice s a b = [].
Proof.
  intros Ha. pose proof (len_nonneg s) as Hs.
  pose proof (rel_index_range (len s) b Hs) as Hb.
  destruct (Z.le_gt_cases (len s) a) as [Hle|Hlt].
  - right. unfold slice. rewrite (rel_index_nonneg (len s) a Ha).
    rewrite Z.min_r by lia.
    replace (Z.to_nat (len s)) with (length s) by (unfold len; lia).
    rewrite skipn_all. apply firstn_nil.
  - left. unfold slice. rewrite (rel_index_nonneg (len s) a Ha).
    rewrite Z.min_l by lia.
    unfold len at 1. rewrite length_firstn, length_skipn.
    unfold len in *. lia.
Qed.

Lemma slice_len_bound (s : jsstring) (a b : Z) :
  (0 <= a)%Z -> (len (slice s a b) <= Z.max 0 (len s - a))%Z.
Proof.
  intros Ha. destruct (slice_length_le s a b Ha) as [H|H].
  - lia.
  - rewrite H. unfold len. simpl. lia.
Qed.

Lemma trim_len_le (s : jsstring) : (len (trim s) <= len s)%Z.
Proof. unfold len. pose proof (trim_length s). lia. Qed.

End JSFacts.

(* ===================================================================== *)
(** ** The chunker: windows, termination, short texts                     *)
(* ===================================================================== *)

Module ChunkerFacts.

Import JSFacts Chunker.

Open Scope Z_scope.

Section Loop.

Variables (clean : jsstring) (chunkSize overlap : Z).

Let step := chunkSize - overlap.

Lemma offsets_from_S (i : Z) (n : nat) :
  offsets_from step i (S n) = i :: offsets_from step (i + step) n.
Proof.
  unfold offsets_from. rewrite <- cons_seq, <- seq_shift. simpl.
  rewrite map_map. f_equal; [lia|].
  apply map_ext. intros k. lia.
Qed.

(** With [n] iterations left before the offset reaches the length, and
    more than [n] units of fuel, the loop returns the long windows at the
    offsets it visits, appended to the chunks it started with. *)
Lemma chunk_loop_run (n : nat) :
  forall (fuel : nat) (i : Z) (chunks : list jsstring),
    (n < fuel)%nat ->
    (forall k, (k < n)%nat -> i + Z.of_nat k * step < len clean) ->
    len clean <= i + Z.of_nat n * step ->
    chunk_loop fuel clean chunkSize overlap i chunks =
    Some (chunks ++
          filter long_enough (map (window clean chunkSize) (offsets_from step i n))).
Proof.
  induction n as [|n IH]; intros fuel i chunks Hfuel Hlt Hge.
  - destruct fuel as [|fuel]; [lia|]. simpl.
    destruct (Z.ltb_spec i (len clean)); [lia|].
    rewrite app_nil_r. reflexivity.
  - destruct fuel as [|fuel]; [lia|]. simpl chunk_loop.
    pose proof (Hlt 0%nat ltac:(lia)) as H0.
    destruct (Z.ltb_spec i (len clean)); [|lia].
    rewrite offsets_from_S. fold step.
    rewrite IH.
    + simpl map. simpl filter. unfold long_enough at 2, window at 2.
      destruct (60 <? len (trim (slice clean i (i + chunkSize)))).
      * rewrite <- app_assoc. reflexivity.
      * reflexivity.
    + lia.
    + intros k Hk. specialize (Hlt (S k) ltac:(lia)). lia.
    + lia.
Qed.

(** When the step is not positive the offset never passes the length. *)
Lemma chunk_loop_stuck (fuel : nat) :
  forall (i : Z) (chunks : list jsstring),
    step <= 0 -> i < len clean ->
    chunk_loop fuel clean chunkSize overlap i chunks = None.
Proof.
  induction fuel as [|fuel IH]; intros i chunks Hstep Hi; simpl.
  - reflexivity.
  - destruct (Z.ltb_spec i (len clean)); [|lia].
    apply IH; [exact Hstep|]. fold step. lia.
Qed.

End Loop.

Lemma offsets_from_0 (step : Z) (n : nat) :
  offsets_from step 0 n = offsets step n.
Proof.
  unfold offsets_from, offsets. apply map_ext. intros k. lia.
Qed.

(** [iterations l step] is the least number of steps that reach [l]. *)
Lemma iterations_spec (l step : Z) :
  0 <= l -> 0 < step ->
  l <= Z.of_nat (iterations l step) * step /\
  forall k, (k < iterations l step)%nat -> Z.of_nat k * step < l.
Proof.
  intros Hl Hs. unfold iterations.
  assert (Hq : 0 <= (l + step - 1) / step) by (apply Z.div_pos; lia).
  pose proof (Z.div_mod (l + step - 1) step ltac:(lia)) as Hdm.
  pose proof (Z.mod_pos_bound (l + step - 1) step Hs) as Hm.
  rewrite Z2Nat.id by exact Hq.
  split; [nia|].
  intros k Hk. assert (Z.of_nat k < (l + step - 1) / step) by lia.
  nia.
Qed.

(** The chunks are the long windows at the offsets [0, step, 2 step, ...]
    below the length of the normalized text. *)
Lemma chunkText_windows (text : jsstring) (chunkSize overlap : Z) (fuel : nat) :
  overlap < chunkSize ->
  (iterations (len (normalize text)) (chunkSize - overlap) < fuel)%nat ->
  chunkText fuel text chunkSize overlap =
  Some (filter long_enough
          (map (window (normalize text) chunkSize)
               (offsets (chunkSize - overlap)
                        (iterations (len (normalize text)) (chunkSize - overlap))))).
Proof.
  intros Hlt Hfuel. unfold chunkText.
  destruct (iterations_spec (len (normalize text)) (chunkSize - overlap))
    as [Hge Hbelow]; [apply len_nonneg | lia |].
  rewrite (chunk_loop_run (normalize text) chunkSize overlap
             (iterations (len (normalize text)) (chunkSize - overlap))
             fuel 0 [] Hfuel).
  - simpl. rewrite offsets_from_0. reflexivity.
  - intros k Hk. specialize (Hbelow k Hk). lia.
  - lia.
Qed.

Lemma filter_map_none {A B : Type} (f : B -> bool) (g : A -> B) (l : list A) :
  (forall x, In x l -> f (g x) = false) -> filter f (map g l) = [].
Proof.
  induction l as [|a l IH]; intros H; simpl; [reflexivity|].
  rewrite (H a) by (left; reflexivity).
  apply IH. intros x Hx. apply H. right. exact Hx.
Qed.

Lemma normalize_trimmed (text : jsstring) :
  trim (normalize text) = normalize text.
Proof. unfold normalize. apply trim_idem. Qed.

Lemma normalize_len_le (text : jsstring) : len (normalize text) <= len text.
Proof.
  unfold normalize, len.
  pose proof (trim_length (replace_ws false text)).
  pose proof (replace_ws_length false text). lia.
Qed.

(** A window that starts at [o >= 0] holds at most the [len clean - o] code
    units that follow the offset. *)
Lemma window_len_bound (clean : jsstring) (chunkSize o : Z) :
  0 <= o -> len (window clean chunkSize o) <= Z.max 0 (len clean - o).
Proof.
  intros Ho. unfold window.
  pose proof (trim_len_le (slice clean o (o + chunkSize))).
  pose proof (slice_len_bound clean o (o + chunkSize) Ho). lia.
Qed.

(** C1 (amended): a text shorter than [chunkSize] whose normalized length
    is at most [chunkSize - overlap + 60], chunked with [overlap < chunkSize],
    yields the normalized text as the only chunk when it is longer than 60
    code units, and no chunk otherwise. *)
Theorem chunkText_short_text (text : jsstring) (chunkSize overlap : Z) (fuel : nat) :
  len text < chunkSize ->
  overlap < chunkSize ->
  len (normalize text) <= chunkSize - overlap + 60 ->
  (iterations (len (normalize text)) (chunkSize - overlap) < fuel)%nat ->
  chunkText fuel text chunkSize overlap =
  Some (if long_enough (normalize text) then [normalize text] else []).
Proof.
  intros Hshort Hov Hfit Hfuel.
  rewrite chunkText_windows by assumption. f_equal.
  set (clean := normalize text) in *.
  set (step := chunkSize - overlap) in *.
  pose proof (len_nonneg clean) as Hnn.
  pose proof (normalize_len_le text) as Hle. fold clean in Hle.
  destruct (iterations_spec (len clean) step Hnn ltac:(lia)) as [Hge Hbelow].
  destruct (iterations (len clean) step) as [|n] eqn:En.
  - simpl. unfold long_enough.
    destruct (Z.ltb_spec 60 (len clean)); [lia | reflexivity].
  - unfold offsets. rewrite <- cons_seq. rewrite !map_cons.
    assert (Hw0 : window clean chunkSize (Z.of_nat 0 * step) = clean).
    { unfold window. simpl. rewrite slice_all by lia.
      apply normalize_trimmed. }
    rewrite Hw0. cbn [filter].
    rewrite filter_map_none.
    + reflexivity.
    + intros o Ho. apply in_map_iff in Ho as (k & <- & Hk).
      apply in_seq in Hk. unfold long_enough.
      pose proof (window_len_bound clean chunkSize (Z.of_nat k * step)
                    ltac:(nia)) as Hb.
      destruct (Z.ltb_spec 60 (len (window clean chunkSize (Z.of_nat k * step))));
        [|reflexivity].
      assert (step <= Z.of_nat k * step) by nia. lia.
Qed.

(** The claim C1 as it is stated fails for a text of 899 letters chunked
    with the default arguments: the second window, at offset 750, holds 149
    code units and is emitted as a second chunk. *)
Lemma chunkText_short_text_two_chunks :
  len (repeat 97%N 899) < default_chunkSize /\
  chunkText 3 (repeat 97%N 899) default_chunkSize default_overlap =
  Some [repeat 97%N 899; repeat 97%N 149].
Proof. split; vm_compute; reflexivity. Qed.

Lemma chunkText_short_text_witness :
  chunkText 2 (repeat 97%N 100) 900 150 = Some [repeat 97%N 100].
Proof.
  apply (chunkText_short_text (repeat 97%N 100) 900 150 2);
    first [ vm_compute; reflexivity | vm_compute; discriminate | vm_compute; lia ].
Defined.

(** Two consecutive untrimmed windows, the earlier one of full length,
    share [overlap] code units. *)
Lemma slice_overlap (clean : jsstring) (chunkSize overlap o : Z) :
  0 <= o -> 0 <= overlap -> overlap < chunkSize ->
  o + chunkSize <= len clean ->
  suffix (Z.to_nat overlap) (slice clean o (o + chunkSize)) =
  firstn (Z.to_nat overlap)
         (slice clean (o + (chunkSize - overlap))
                (o + (chunkSize - overlap) + chunkSize)) /\
  len (suffix (Z.to_nat overlap) (slice clean o (o + chunkSize))) = overlap.
Proof.
  intros Ho Hov Hlt Hfull. pose proof (len_nonneg clean) as Hnn.
  unfold suffix, slice. rewrite !rel_index_nonneg by lia.
  rewrite (Z.min_l o) by lia. rewrite (Z.min_l (o + chunkSize)) by lia.
  rewrite (Z.min_l (o + (chunkSize - overlap))) by lia.
  assert (Hlen : length (firstn (Z.to_nat (o + chunkSize - o))
                                (skipn (Z.to_nat o) clean)) = Z.to_nat chunkSize).
  { rewrite length_firstn, length_skipn. unfold len in *. lia. }
  rewrite Hlen.
  rewrite skipn_firstn_comm, skipn_skipn, firstn_firstn.
  replace (Z.to_nat (o + chunkSize - o) - (Z.to_nat chunkSize - Z.to_nat overlap))%nat
    with (Z.to_nat overlap) by lia.
  replace (Z.to_nat chunkSize - Z.to_nat overlap + Z.to_nat o)%nat
    with (Z.to_nat (o + (chunkSize - overlap))) by lia.
  split.
  - f_equal. lia.
  - unfold len in *. rewrite length_firstn, length_skipn. lia.
Qed.

(** C7 (amended): for [overlap < chunkSize] the chunks are the windows, in
    order, at the offsets [0, step, 2 step, ...] below the length of the
    normalized text ([step = chunkSize - overlap]) that are longer than 60
    code units; two consecutive windows share exactly [overlap] code units
    (the suffix of the earlier is the prefix of the later) when
    [0 <= overlap], the earlier window has the full [chunkSize] and [trim]
    removes nothing from either window. *)
Theorem chunkText_offsets_and_overlap (text : jsstring) (chunkSize overlap : Z) :
  overlap < chunkSize ->
  let clean := normalize text in
  let step := chunkSize - overlap in
  let n := iterations (len clean) step in
  (forall fuel, (n < fuel)%nat ->
     chunkText fuel text chunkSize overlap =
     Some (filter long_enough (map (window clean chunkSize) (offsets step n)))) /\
  (forall k, (k < n)%nat ->
     nth k (offsets step n) 0 = Z.of_nat k * step /\
     Z.of_nat k * step < len clean) /\
  len clean <= Z.of_nat n * step /\
  (forall o, 0 <= o -> 0 <= overlap -> o + chunkSize <= len clean ->
     window clean chunkSize o = slice clean o (o + chunkSize) ->
     window clean chunkSize (o + step) =
       slice clean (o + step) (o + step + chunkSize) ->
     suffix (Z.to_nat overlap) (window clean chunkSize o) =
       firstn (Z.to_nat overlap) (window clean chunkSize (o + step)) /\
     len (suffix (Z.to_nat overlap) (window clean chunkSize o)) = overlap).
Proof.
  intros Hlt clean step n.
  destruct (iterations_spec (len clean) step (len_nonneg clean) ltac:(unfold step; lia))
    as [Hge Hbelow].
  split; [|split; [|split]].
  - intros fuel Hfuel. apply chunkText_windows; assumption.
  - intros k Hk. split; [|apply Hbelow; exact Hk].
    unfold offsets.
    transitivity (nth k (map (fun k => Z.of_nat k * step) (seq 0 n))
                      ((fun k => Z.of_nat k * step) 0%nat)).
    { apply nth_indep. rewrite length_map, length_seq. exact Hk. }
    rewrite (map_nth (fun k : nat => Z.of_nat k * step)).
    rewrite seq_nth by exact Hk. reflexivity.
  - exact Hge.
  - intros o Ho Hov Hfull Hw1 Hw2. rewrite Hw1, Hw2.
    apply slice_overlap; assumption.
Qed.

(** The claim C7 as it is stated fails for [spaced_text] with the default
    arguments: the first window ends with a space, which [trim] removes, so
    the last 150 code units of the first chunk are not the first 150 of the
    second, although both chunks are longer than 60 code units. *)
Lemma chunkText_overlap_not_shared :
  chunkText 3 spaced_text default_chunkSize default_overlap =
    Some [firstn 899 spaced_text; skipn 750 spaced_text] /\
  long_enough (firstn 899 spaced_text) = true /\
  long_enough (skipn 750 spaced_text) = true /\
  suffix (Z.to_nat default_overlap) (firstn 899 spaced_text) <>
  firstn (Z.to_nat default_overlap) (skipn 750 spaced_text).
Proof.
  split; [vm_compute; reflexivity|].
  split; [vm_compute; reflexivity|].
  split; [vm_compute; reflexivity|].
  intros H. apply (f_equal (fun l => hd 0%N l)) in H.
  vm_compute in H. discriminate H.
Qed.

Lemma chunkText_offsets_and_overlap_witness :
  chunkText 3 (repeat 97%N 1000) 900 150 =
    Some [repeat 97%N 900; repeat 97%N 250] /\
  suffix 150 (window (normalize (repeat 97%N 1000)) 900 0) =
    firstn 150 (window (normalize (repeat 97%N 1000)) 900 750).
Proof.
  destruct (chunkText_offsets_and_overlap (repeat 97%N 1000) 900 150 ltac:(lia))
    as (H & _ & _ & Hshare).
  split.
  - rewrite (H 3%nat); vm_compute; first [reflexivity | lia].
  - apply (Hshare 0); vm_compute; first [reflexivity | discriminate].
Defined.

(** C10: [chunkText] returns on every text exactly when
    [overlap < chunkSize].  In that case the offset grows by
    [chunkSize - overlap > 0] at each iteration and the loop ends after
    [iterations] iterations, in particular for the arguments 900 and 150 of
    the driver; when [overlap >= chunkSize] the loop does not return on
    any text whose normalization is not empty. *)
Theorem chunkText_terminates_iff (chunkSize overlap : Z) :
  ((forall text, exists fuel chunks,
       chunkText fuel text chunkSize overlap = Some chunks) <->
   overlap < chunkSize) /\
  (overlap < chunkSize ->
   forall text fuel,
     (iterations (len (normalize text)) (chunkSize - overlap) < fuel)%nat ->
     chunkText fuel text chunkSize overlap =
     Some (filter long_enough
             (map (window (normalize text) chunkSize)
                  (offsets (chunkSize - overlap)
                     (iterations (len (normalize text)) (chunkSize - overlap)))))) /\
  (chunkSize <= overlap ->
   forall text, normalize text <> [] ->
   forall fuel, chunkText fuel text chunkSize overlap = None) /\
  (forall text, exists fuel chunks,
      chunkText fuel text default_chunkSize default_overlap = Some chunks).
Proof.
  assert (Hstuck : chunkSize <= overlap ->
            forall text, normalize text <> [] ->
            forall fuel, chunkText fuel text chunkSize overlap = None).
  { intros Hge text Hne fuel. unfold chunkText.
    apply chunk_loop_stuck; [lia|].
    unfold len. destruct (normalize text); [congruence | simpl; lia]. }
  split; [split|split; [|split]].
  - intros Hall. destruct (Z.lt_ge_cases overlap chunkSize) as [H|H]; [exact H|].
    destruct (Hall [97%N]) as (fuel & chunks & Hsome).
    rewrite (Hstuck H [97%N]) in Hsome; [discriminate Hsome|].
    vm_compute. discriminate.
  - intros Hlt text. eexists (S _), _.
    apply chunkText_windows; [exact Hlt | apply Nat.lt_succ_diag_r].
  - intros Hlt text fuel Hfuel. apply chunkText_windows; assumption.
  - exact Hstuck.
  - intros text. eexists (S _), _.
    apply chunkText_windows; [unfold default_overlap, default_chunkSize; lia
                             | apply Nat.lt_succ_diag_r].
Qed.

Lemma chunkText_terminates_iff_witness :
  chunkText 5 (repeat 97%N 100) 100 100 = None /\
  chunkText 2 (repeat 97%N 100) 900 150 = Some [repeat 97%N 100].
Proof.
  split.
  - destruct (chunkText_terminates_iff 100 100) as (_ & _ & H & _).
    apply H; [lia | vm_compute; discriminate].
  - destruct (chunkText_terminates_iff 900 150) as (_ & H & _).
    rewrite H; vm_compute; first [reflexivity | lia].
Defined.

Close Scope Z_scope.

End ChunkerFacts.

(* ===================================================================== *)
(** ** The retry policy: waits and propagation                            *)
(* ===================================================================== *)

Module RetryFacts.

Import Retry.

Lemma emit_nil {T : Type} (p : list Event * Result T) : emit [] p = p.
Proof. destruct p. reflexivity. Qed.

Lemma emit_emit {T : Type} (a b : list Event) (p : list Event * Result T) :
  emit a (emit b p) = emit (a ++ b) p.
Proof. unfold emit. simpl. rewrite app_assoc. reflexivity. Qed.

Lemma sleeps_app (a b : list Event) : sleeps (a ++ b) = sleeps a ++ sleeps b.
Proof.
  induction a as [|[i|ms] a IH]; simpl; [reflexivity | exact IH |].
  rewrite IH. reflexivity.
Qed.

Lemma calls_app (a b : list Event) : calls (a ++ b) = calls a + calls b.
Proof.
  induction a as [|[i|ms] a IH]; simpl; [reflexivity | | exact IH].
  rewrite IH. reflexivity.
Qed.

Lemma retries_S (errs : nat -> Failure) (jitter : nat -> Z) (i0 k : nat) :
  retries errs jitter i0 (S k) =
  Call i0 :: Sleep (wait_ms i0 (jitter i0) (errs i0)) :: retries errs jitter (S i0) k.
Proof. reflexivity. Qed.

Lemma sleeps_retries_length (errs : nat -> Failure) (jitter : nat -> Z) (k : nat) :
  forall i0, length (sleeps (retries errs jitter i0 k)) = k.
Proof.
  induction k as [|k IH]; intros i0; [reflexivity|].
  rewrite retries_S. simpl. rewrite IH. reflexivity.
Qed.

Lemma calls_retries (errs : nat -> Failure) (jitter : nat -> Z) (k : nat) :
  forall i0, calls (retries errs jitter i0 k) = k.
Proof.
  induction k as [|k IH]; intros i0; [reflexivity|].
  rewrite retries_S. simpl. rewrite IH. reflexivity.
Qed.

Section Prefix.

Context {T : Type}.
Variables (fn : nat -> Attempt T) (jitter : nat -> Z) (errs : nat -> Failure).

(** [k] rate-limited attempts in a row are [k] rounds of a call and a
    sleep, after which the loop goes on with [k] iterations less. *)
Lemma retry_loop_prefix (k : nat) :
  forall (remaining i0 : nat) (lastErr : option Failure),
    (forall j, i0 <= j < i0 + k ->
       fn j = Rejected (errs j) /\ isRateLimit (errs j) = true) ->
    retry_loop fn jitter (k + remaining) i0 lastErr =
    emit (retries errs jitter i0 k)
         (retry_loop fn jitter remaining (i0 + k) (last_after errs i0 k lastErr)).
Proof.
  induction k as [|k IH]; intros remaining i0 lastErr H.
  - simpl. rewrite Nat.add_0_r. rewrite emit_nil. reflexivity.
  - destruct (H i0 ltac:(lia)) as [Hfn Hrl].
    simpl retry_loop. rewrite Hfn, Hrl.
    rewrite IH by (intros j Hj; apply H; lia).
    rewrite emit_emit. rewrite retries_S.
    replace (S i0 + k) with (i0 + S k) by lia.
    f_equal. f_equal.
    destruct k as [|k']; simpl.
    + rewrite Nat.add_0_r. reflexivity.
    + f_equal. f_equal. lia.
Qed.

End Prefix.

Open Scope Z_scope.

(** C3: when attempt [i] and the attempts before it fail with a rate-limit
    status, the sleep that follows attempt [i] lasts
    [min(60000, 1000 * 2^i)] ms plus the jitter, which lies between 0 and
    500 ms, and when the failure has a positive numeric retry-after of [s]
    seconds, the maximum of that delay and [s * 1000] ms. *)
Theorem withRetry_wait {T : Type} (fn : nat -> Attempt T) (jitter : nat -> Z)
    (errs : nat -> Failure) (tries i : nat) :
  (forall j, 0 <= jitter j < 500) ->
  (i < tries)%nat ->
  (forall j, (j <= i)%nat ->
     fn j = Rejected (errs j) /\ isRateLimit (errs j) = true) ->
  let computed := Z.min 60000 (1000 * 2 ^ Z.of_nat i) + jitter i in
  let wait := wait_ms i (jitter i) (errs i) in
  (exists rest,
     withRetry fn jitter tries =
     emit (retries errs jitter 0 i ++ [Call i; Sleep wait]) rest) /\
  nth_error (sleeps (fst (withRetry fn jitter tries))) i = Some wait /\
  0 <= jitter i <= 500 /\
  (forall s, retryAfter (errs i) = Seconds s -> 0 < s ->
     wait = Z.max computed (s * 1000)) /\
  ((forall s, retryAfter (errs i) = Seconds s -> s <= 0) -> wait = computed).
Proof.
  intros Hj Hi Hfail computed wait.
  assert (Hrun : withRetry fn jitter tries =
                 emit (retries errs jitter 0 i ++ [Call i; Sleep wait])
                      (retry_loop fn jitter (tries - S i) (S i) (Some (errs i)))).
  { unfold withRetry.
    replace tries with (i + S (tries - S i))%nat at 1 by lia.
    rewrite (retry_loop_prefix fn jitter errs i)
      by (intros j Hr; apply Hfail; lia).
    destruct (Hfail i ltac:(lia)) as [Hfn Hrl].
    simpl retry_loop. rewrite Hfn, Hrl. rewrite emit_emit. reflexivity. }
  split; [eexists; exact Hrun|].
  split.
  { rewrite Hrun. unfold emit. cbn [fst].
    rewrite <- app_assoc, sleeps_app.
    rewrite nth_error_app2 by (rewrite sleeps_retries_length; lia).
    rewrite sleeps_retries_length. rewrite Nat.sub_diag. reflexivity. }
  split; [specialize (Hj i); lia|].
  split.
  - intros s Hs Hpos. unfold wait, wait_ms. rewrite Hs.
    destruct (Z.ltb_spec 0 s); [reflexivity | lia].
  - intros Hnone. unfold wait, wait_ms.
    destruct (retryAfter (errs i)) as [| |s] eqn:E; try reflexivity.
    specialize (Hnone s eq_refl).
    destruct (Z.ltb_spec 0 s); [lia | reflexivity].
Qed.

Lemma withRetry_wait_witness :
  nth_error (sleeps (fst (withRetry flaky fixed_jitter 8))) 1 = Some 2100 /\
  nth_error (sleeps (fst (withRetry throttled fixed_jitter 8))) 3 = Some 120000.
Proof.
  assert (Hjit : forall j, 0 <= fixed_jitter j < 500)
    by (intros j; unfold fixed_jitter; lia).
  split.
  - assert (Hfail : forall j, (j <= 1)%nat ->
              flaky j = Rejected rate_limited /\ isRateLimit rate_limited = true).
    { intros j Hj. destruct j as [|[|j]]; [split; reflexivity | split; reflexivity | lia]. }
    destruct (withRetry_wait flaky fixed_jitter (fun _ => rate_limited) 8 1
                Hjit ltac:(lia) Hfail) as (_ & H & _).
    exact H.
  - assert (Hfail : forall j, (j <= 3)%nat ->
              throttled j = Rejected told_to_wait /\ isRateLimit told_to_wait = true).
    { intros j Hj. split; reflexivity. }
    destruct (withRetry_wait throttled fixed_jitter (fun _ => told_to_wait) 8 3
                Hjit ltac:(lia) Hfail) as (_ & H & _).
    exact H.
Defined.

Close Scope Z_scope.

(** C4: after [k] rate-limited attempts, a failure of attempt [k] with
    another status is thrown at once, after [k + 1] calls and with no sleep
    after it; a success of attempt [k] is returned; and when all the [tries]
    attempts are rate limited ([tries] is 8 by default), [fn] has been
    called [tries] times and the last failure is thrown. *)
Theorem withRetry_propagation {T : Type} (fn : nat -> Attempt T)
    (jitter : nat -> Z) (errs : nat -> Failure) (tries k : nat) :
  (forall j, j < k -> fn j = Rejected (errs j) /\ isRateLimit (errs j) = true) ->
  (forall e, k < tries -> fn k = Rejected e -> isRateLimit e = false ->
     withRetry fn jitter tries =
       (retries errs jitter 0 k ++ [Call k], Thrown (Some e))) /\
  (forall v, k < tries -> fn k = Fulfilled v ->
     withRetry fn jitter tries =
       (retries errs jitter 0 k ++ [Call k], Returned v)) /\
  (k = tries ->
     withRetry fn jitter tries =
       (retries errs jitter 0 tries, Thrown (last_after errs 0 tries None)) /\
     calls (fst (withRetry fn jitter tries)) = tries) /\
  (k = default_tries ->
     calls (fst (withRetry fn jitter default_tries)) = 8 /\
     snd (withRetry fn jitter default_tries) = Thrown (Some (errs 7))) /\
  calls (retries errs jitter 0 k ++ [Call k]) = S k /\
  length (sleeps (retries errs jitter 0 k ++ [Call k])) = k.
Proof.
  intros Hfail.
  assert (Hpre : forall remaining,
            withRetry fn jitter (k + remaining) =
            emit (retries errs jitter 0 k)
                 (retry_loop fn jitter remaining k (last_after errs 0 k None))).
  { intros remaining. unfold withRetry.
    rewrite (retry_loop_prefix fn jitter errs k)
      by (intros j Hj; apply Hfail; lia).
    reflexivity. }
  assert (Hall : withRetry fn jitter k =
                 (retries errs jitter 0 k, Thrown (last_after errs 0 k None))).
  { specialize (Hpre 0). rewrite Nat.add_0_r in Hpre. rewrite Hpre.
    unfold emit. simpl. rewrite app_nil_r. reflexivity. }
  split; [|split; [|split; [|split; [|split]]]].
  - intros e Hk Hfn Hrl.
    replace tries with (k + S (tries - S k)) by lia.
    rewrite Hpre. simpl retry_loop. rewrite Hfn, Hrl. reflexivity.
  - intros v Hk Hfn.
    replace tries with (k + S (tries - S k)) by lia.
    rewrite Hpre. simpl retry_loop. rewrite Hfn. reflexivity.
  - intros <-. rewrite Hall. split; [reflexivity|].
    cbn [fst]. apply calls_retries.
  - intros ->. rewrite Hall. split; [|reflexivity].
    cbn [fst]. apply calls_retries.
  - rewrite calls_app, calls_retries. simpl. lia.
  - rewrite sleeps_app, length_app, sleeps_retries_length. simpl. lia.
Qed.

Lemma withRetry_propagation_witness :
  withRetry flaky fixed_jitter 8 =
    ([Call 0; Sleep 1100; Call 1; Sleep 2100; Call 2], Returned 7) /\
  withRetry broken fixed_jitter 8 = ([Call 0], Thrown (Some server_error)) /\
  snd (withRetry throttled fixed_jitter 8) = Thrown (Some told_to_wait).
Proof.
  split; [|split].
  - assert (Hfail : forall j, j < 2 ->
              flaky j = Rejected rate_limited /\ isRateLimit rate_limited = true).
    { intros j Hj. destruct j as [|[|j]]; [split; reflexivity | split; reflexivity | lia]. }
    destruct (withRetry_propagation flaky fixed_jitter (fun _ => rate_limited) 8 2 Hfail)
      as (_ & H & _).
    apply (H 7); [lia | reflexivity].
  - assert (Hfail : forall j, j < 0 ->
              broken j = Rejected rate_limited /\ isRateLimit rate_limited = true).
    { intros j Hj. lia. }
    destruct (withRetry_propagation broken fixed_jitter (fun _ => rate_limited) 8 0 Hfail)
      as (H & _).
    apply (H server_error); [lia | reflexivity | reflexivity].
  - assert (Hfail : forall j, j < 8 ->
              throttled j = Rejected told_to_wait /\ isRateLimit told_to_wait = true).
    { intros j Hj. split; reflexivity. }
    destruct (withRetry_propagation throttled fixed_jitter (fun _ => told_to_wait) 8 8 Hfail)
      as (_ & _ & _ & H & _).
    apply H. reflexivity.
Defined.

End RetryFacts.

(* ===================================================================== *)
(** ** Page markers: the records of [splitByPages]                        *)
(* ===================================================================== *)

Module PagesFacts.

Import JSFacts Pages.

Open Scope N_scope.

(** Induction over a list two elements at a time, as the loop of
    [splitByPages] reads it. *)
Lemma pairs_ind (P : list jsstring -> Prop) :
  P [] -> (forall d, P [d]) -> (forall d c l, P l -> P (d :: c :: l)) ->
  forall l, P l.
Proof.
  intros Hnil Hone Hstep.
  assert (H : forall l, P l /\ forall d, P (d :: l)).
  { induction l as [|c l [IH1 IH2]].
    - split; [exact Hnil | exact Hone].
    - split; [apply IH2|]. intros d. apply Hstep. exact IH1. }
  intros l. apply H.
Qed.

Lemma truthy_true (s : jsstring) : truthy s = true -> s <> [].
Proof. destruct s; [discriminate | discriminate]. Qed.

(** The records pushed by the loop have a content that is not empty and
    that [trim] leaves as it is. *)
Lemma pages_loop_content (parts : list jsstring) :
  Forall (fun r => content r <> [] /\ trim (content r) = content r)
         (pages_loop parts).
Proof.
  induction parts as [|d|d c l IH] using pairs_ind.
  - constructor.
  - simpl. constructor.
  - cbn [pages_loop]. apply Forall_app. split; [|exact IH].
    destruct (truthy (trim c)) eqn:E; [|constructor].
    constructor; [|constructor]. simpl. split.
    + apply truthy_true. exact E.
    + apply trim_idem.
Qed.

(** The pages of the records are among the captured numbers. *)
Lemma pages_loop_captured (parts : list jsstring) (x : N) :
  In x (map page (pages_loop parts)) -> In x (captured parts).
Proof.
  induction parts as [|d|d c l IH] using pairs_ind.
  - simpl. tauto.
  - simpl. tauto.
  - cbn [pages_loop captured]. rewrite map_app, in_app_iff.
    intros [H|H].
    + destruct (truthy (trim c)); simpl in H; [|tauto].
      destruct H as [<-|[]]. left. reflexivity.
    + right. apply IH. exact H.
Qed.

(** The loop keeps the order of the captured numbers. *)
Lemma pages_loop_sorted (parts : list jsstring) :
  StronglySorted N.le (captured parts) ->
  StronglySorted N.le (map page (pages_loop parts)).
Proof.
  induction parts as [|d|d c l IH] using pairs_ind.
  - intros _. constructor.
  - intros _. simpl. constructor.
  - cbn [pages_loop captured]. intros H.
    apply StronglySorted_inv in H as [Hl Hd].
    rewrite map_app.
    destruct (truthy (trim c)); simpl.
    + constructor; [apply IH; exact Hl|].
      rewrite Forall_forall in *. intros x Hx. apply Hd.
      apply pages_loop_captured. exact Hx.
    + apply IH. exact Hl.
Qed.

(** The loop pushes a record for each marker whose text is not blank, in
    the order of the markers. *)
Lemma pages_loop_pairs (parts : list jsstring) :
  pages_loop parts = map record_of (filter nonblank (marker_pairs parts)).
Proof.
  induction parts as [|d|d c l IH] using pairs_ind.
  - reflexivity.
  - reflexivity.
  - cbn [pages_loop marker_pairs filter]. unfold nonblank at 1. cbn [snd].
    destruct (truthy (trim c)); rewrite IH; reflexivity.
Qed.

Lemma marker_pairs_captured (parts : list jsstring) :
  map fst (marker_pairs parts) = captured parts.
Proof.
  induction parts as [|d|d c l IH] using pairs_ind.
  - reflexivity.
  - reflexivity.
  - cbn [marker_pairs captured map fst]. rewrite IH. reflexivity.
Qed.

(** C2 (amended): [splitByPages] returns at least one record.  Either no
    marker of the text is followed by a text that is not blank, and the
    result is the single record of page 1 whose content is the text as it
    is (which may be empty); or the records are, in the order of the
    markers, one for each marker whose text is not blank, with the number
    that the marker captures and that text trimmed, so that no content is
    empty.  The page numbers are non-decreasing whenever the numbers
    captured by the markers of the text, in the order of the text, are. *)
Theorem splitByPages_records (text : jsstring) :
  splitByPages text <> [] /\
  (filter nonblank (markers_with_text text) = [] /\
   splitByPages text = [mkPage 1 text]
   \/
   filter nonblank (markers_with_text text) <> [] /\
   splitByPages text =
     map record_of (filter nonblank (markers_with_text text)) /\
   Forall (fun r => content r <> [] /\ trim (content r) = content r)
          (splitByPages text)) /\
  map fst (markers_with_text text) = marker_numbers text /\
  (Sorted N.le (marker_numbers text) ->
   Sorted N.le (map page (splitByPages text))).
Proof.
  unfold splitByPages, marker_numbers, markers_with_text.
  rewrite marker_pairs_captured.
  destruct (length (split_marker [] text) <=? 1)%nat eqn:E.
  - split; [discriminate|]. split.
    + left. split; [|reflexivity].
      apply Nat.leb_le in E.
      destruct (split_marker [] text) as [|a [|b l]];
        [reflexivity | reflexivity | simpl in E; lia].
    + split; [reflexivity|]. intros _. simpl. repeat constructor.
  - pose proof (pages_loop_content (tl (split_marker [] text))) as Hc.
    pose proof (pages_loop_sorted (tl (split_marker [] text))) as Hs.
    pose proof (pages_loop_pairs (tl (split_marker [] text))) as Hp.
    destruct (pages_loop (tl (split_marker [] text))) as [|r rs].
    + split; [discriminate|]. split.
      * left. split; [|reflexivity].
        destruct (filter nonblank (marker_pairs (tl (split_marker [] text))));
          [reflexivity | discriminate Hp].
      * split; [reflexivity|]. intros _. simpl. repeat constructor.
    + split; [discriminate|]. split.
      * right. split; [|split; [exact Hp | exact Hc]].
        intros H0. rewrite H0 in Hp. discriminate Hp.
      * split; [reflexivity|].
        intros H. apply StronglySorted_Sorted. apply Hs.
        apply Sorted_StronglySorted; [|exact H].
        intros x y z. apply N.le_trans.
Qed.

(** The claim C2 as it is stated fails: the records follow the order of the
    markers, which need not be increasing, and the text without a marker
    is returned as the content of page 1 even when it is empty. *)
Lemma splitByPages_unsorted_or_empty :
  map page (splitByPages out_of_order) = [2; 1] /\
  ~ Sorted N.le (map page (splitByPages out_of_order)) /\
  splitByPages [] = [mkPage 1 []].
Proof.
  split; [vm_compute; reflexivity|].
  split; [|vm_compute; reflexivity].
  intros H. vm_compute in H.
  inversion H as [|a l _ Hd]; subst.
  inversion Hd as [|b l' Hle]; subst.
  apply Hle. reflexivity.
Qed.

Lemma splitByPages_records_witness :
  Sorted N.le (marker_numbers blank_between) /\
  Sorted N.le (map page (splitByPages blank_between)).
Proof.
  assert (H : Sorted N.le (marker_numbers blank_between)).
  { vm_compute. repeat constructor; discriminate. }
  split; [exact H|].
  destruct (splitByPages_records blank_between) as (_ & _ & _ & Hs).
  apply Hs. exact H.
Defined.

(** *** Decimal digits *)

Lemma Number_of_digits_snoc (l : jsstring) (c : char) :
  Number_of_digits (l ++ [c]) = 10 * Number_of_digits l + digit_value c.
Proof. unfold Number_of_digits. rewrite fold_left_app. reflexivity. Qed.

Lemma is_digit_48 (m : N) : m < 10 -> is_digit (48 + m) = true.
Proof.
  intros H. unfold is_digit. apply andb_true_iff. split; apply N.leb_le; lia.
Qed.

(** With enough fuel the digits are not empty, are digits, and read back
    as the number. *)
Lemma digits_fuel_spec (fuel : nat) :
  forall n, n < 2 ^ N.of_nat (S fuel) ->
    digits_fuel (S fuel) n <> [] /\
    forallb is_digit (digits_fuel (S fuel) n) = true /\
    Number_of_digits (digits_fuel (S fuel) n) = n.
Proof.
  induction fuel as [|fuel IH]; intros n Hn.
  - change (2 ^ N.of_nat 1) with 2 in Hn.
    cbn [digits_fuel]. destruct (N.ltb_spec n 10); [|lia].
    split; [discriminate|]. split.
    + cbn [forallb]. rewrite is_digit_48 by lia. reflexivity.
    + unfold Number_of_digits, digit_value. cbn [fold_left]. lia.
  - remember (S fuel) as f. cbn [digits_fuel].
    destruct (N.ltb_spec n 10) as [Hlt|Hge].
    + split; [discriminate|]. split.
      * cbn [forallb]. rewrite is_digit_48 by lia. reflexivity.
      * unfold Number_of_digits, digit_value. cbn [fold_left]. lia.
    + assert (Hdiv : n / 10 < 2 ^ N.of_nat f).
      { rewrite Nat2N.inj_succ, N.pow_succ_r' in Hn.
        apply N.Div0.div_lt_upper_bound.
        revert Hn. generalize (2 ^ N.of_nat f). intros x Hx. lia. }
      subst f. destruct (IH (n / 10) Hdiv) as (Hne & Hdig & Hnum).
      pose proof (N.mod_upper_bound n 10 ltac:(lia)) as Hmod.
      split; [|split].
      * intros H. apply app_eq_nil in H as [_ H]. discriminate H.
      * rewrite forallb_app, Hdig. cbn [forallb]. rewrite is_digit_48 by lia. reflexivity.
      * rewrite Number_of_digits_snoc, Hnum. unfold digit_value.
        pose proof (N.div_mod n 10 ltac:(lia)) as H. revert H Hmod.
        generalize (n mod 10) (n / 10). intros m q H Hm. lia.
Qed.

Lemma decimal_spec (n : N) :
  decimal n <> [] /\ forallb is_digit (decimal n) = true /\
  Number_of_digits (decimal n) = n.
Proof.
  unfold decimal. apply digits_fuel_spec.
  rewrite Nat2N.inj_succ, N2Nat.id.
  destruct (N.eq_dec n 0) as [->|Hn]; [reflexivity|].
  apply N.log2_spec. lia.
Qed.

(** *** Greedy runs *)

Lemma span_stop (f : char -> bool) (l t : jsstring) (c : char) :
  forallb f l = true -> f c = false -> span f (l ++ c :: t) = (l, c :: t).
Proof.
  intros Hl Hc. induction l as [|x l IH]; simpl.
  - rewrite Hc. reflexivity.
  - simpl in Hl. apply andb_true_iff in Hl as [Hx Hl].
    rewrite Hx, (IH Hl). reflexivity.
Qed.

Lemma span_app_rest (f : char -> bool) (s t a b : jsstring) (c : char) :
  span f s = (a, c :: b) -> span f (s ++ t) = (a, c :: b ++ t).
Proof.
  revert a. induction s as [|x s IH]; intros a H; simpl in *.
  - discriminate H.
  - destruct (f x).
    + injection H as <- Hsnd.
      rewrite (IH (fst (span f s))); [reflexivity|].
      rewrite <- Hsnd. apply surjective_pairing.
    + injection H as <- <- <-. reflexivity.
Qed.

Lemma span_app_all (f : char -> bool) (s t a : jsstring) :
  span f s = (a, []) ->
  a = s /\ span f (s ++ t) = (s ++ fst (span f t), snd (span f t)).
Proof.
  revert a. induction s as [|x s IH]; intros a H; simpl in *.
  - injection H as <-. split; [reflexivity|]. apply surjective_pairing.
  - destruct (f x); [|discriminate H].
    injection H as <- Hsnd.
    destruct (IH (fst (span f s))) as [Ha Hs].
    { rewrite <- Hsnd. apply surjective_pairing. }
    rewrite Hs. simpl. rewrite Ha. auto.
Qed.

(** *** Matches of the marker expression *)

Lemma strip_prefix_same (p x : jsstring) : strip_prefix p (p ++ x) = Some x.
Proof.
  induction p as [|c p IH]; simpl; [reflexivity|].
  rewrite N.eqb_refl. exact IH.
Qed.

Lemma strip_prefix_app (p s t r : jsstring) :
  strip_prefix p s = Some r -> strip_prefix p (s ++ t) = Some (r ++ t).
Proof.
  revert s. induction p as [|c p IH]; intros s H; simpl in *.
  - injection H as <-. reflexivity.
  - destruct s as [|d s]; [discriminate H|]. simpl.
    destruct (c =? d); [apply IH; exact H | discriminate H].
Qed.

(** A prefix that is followed by a code unit foreign to the literal ends
    inside the first part. *)
Lemma strip_prefix_app_inv (p s t r : jsstring) (x : char) :
  ~ In x p -> strip_prefix p (s ++ x :: t) = Some r ->
  exists s1, strip_prefix p s = Some s1 /\ r = s1 ++ x :: t.
Proof.
  revert s. induction p as [|c p IH]; intros s Hx H; simpl in *.
  - injection H as <-. exists s. auto.
  - destruct s as [|d s]; simpl in H.
    + destruct (N.eqb_spec c x) as [->|_]; [|discriminate H].
      exfalso. apply Hx. left. reflexivity.
    + destruct (c =? d); [|discriminate H].
      apply IH; [|exact H]. intros Hin. apply Hx. right. exact Hin.
Qed.

Lemma digit_not_space (c : char) : is_digit c = true -> is_space c = false.
Proof.
  unfold is_digit, is_space. intros H.
  apply andb_true_iff in H as [H1 H2].
  apply N.leb_le in H1, H2.
  repeat match goal with
         | |- context [?a <=? ?b] => destruct (N.leb_spec a b); try lia
         | |- context [?a =? ?b] => destruct (N.eqb_spec a b); try lia
         end; reflexivity.
Qed.

Lemma marker_app (k : N) (t : jsstring) :
  marker k ++ t = PAGE_open ++ SP :: decimal k ++ BRACKET_close :: t.
Proof.
  unfold marker. rewrite <- app_assoc, <- app_comm_cons, <- app_assoc.
  reflexivity.
Qed.

(** The expression matches a marker, and captures its digits. *)
Lemma match_marker_marker (k : N) (t : jsstring) :
  match_marker (marker k ++ t) = Some (decimal k, t).
Proof.
  destruct (decimal_spec k) as (Hne & Hdig & _).
  rewrite marker_app. unfold match_marker. rewrite strip_prefix_same.
  destruct (decimal k) as [|d ds] eqn:E; [congruence|].
  cbn [forallb] in Hdig. apply andb_true_iff in Hdig as [Hd Hds].
  rewrite <- app_comm_cons.
  cbn [span]. change (is_space SP) with true. cbv iota.
  rewrite (digit_not_space d Hd). cbn [fst snd].
  change (d :: ds ++ BRACKET_close :: t) with ((d :: ds) ++ BRACKET_close :: t).
  rewrite (span_stop is_digit (d :: ds) t BRACKET_close).
  - rewrite N.eqb_refl. reflexivity.
  - cbn [forallb]. rewrite Hd, Hds. reflexivity.
  - reflexivity.
Qed.

(** A match does not depend on what follows it. *)
Lemma match_marker_app (s t ds rest : jsstring) :
  match_marker s = Some (ds, rest) ->
  match_marker (s ++ t) = Some (ds, rest ++ t).
Proof.
  unfold match_marker. intros H.
  destruct (strip_prefix PAGE_open s) as [s1|] eqn:E1; [|discriminate H].
  rewrite (strip_prefix_app _ _ t _ E1).
  destruct (span is_space s1) as [[|w ws] s2] eqn:E2; [discriminate H|].
  destruct (span is_digit s2) as [[|d dg] [|c s3]] eqn:E3; try discriminate H.
  destruct s2 as [|x s2']; [discriminate E3|].
  rewrite (span_app_rest is_space s1 t _ _ _ E2).
  pose proof (span_app_rest is_digit (x :: s2') t _ _ _ E3) as E3'.
  change ((x :: s2') ++ t) with (x :: s2' ++ t) in E3'. rewrite E3'.
  destruct (c =? BRACKET_close); [|discriminate H].
  injection H as <- <-. reflexivity.
Qed.

(** A match that begins in [s], when [s] is followed by two line feeds and
    an opening bracket, ends in [s]. *)
Lemma match_marker_before_gap (s t ds rest : jsstring) :
  match_marker (s ++ LF :: LF :: BRACKET_open :: t) = Some (ds, rest) ->
  exists rest', match_marker s = Some (ds, rest').
Proof.
  unfold match_marker. intros H.
  destruct (strip_prefix PAGE_open (s ++ LF :: LF :: BRACKET_open :: t))
    as [r|] eqn:E1; [|discriminate H].
  apply strip_prefix_app_inv in E1 as (s1 & E1 & ->).
  2: { vm_compute. intros [F|[F|[F|[F|[F|[]]]]]]; discriminate F. }
  rewrite E1.
  destruct (span is_space s1) as [ws [|c b]] eqn:E2.
  - destruct (span_app_all is_space s1 (LF :: LF :: BRACKET_open :: t) ws E2)
      as [-> Hs].
    rewrite Hs in H.
    change (span is_space (LF :: LF :: BRACKET_open :: t))
      with ([LF; LF], BRACKET_open :: t) in H.
    cbn [fst snd] in H.
    destruct (s1 ++ [LF; LF]); [discriminate H|].
    change (span is_digit (BRACKET_open :: t)) with (@nil char, BRACKET_open :: t) in H.
    discriminate H.
  - rewrite (span_app_rest is_space s1 _ _ _ _ E2) in H.
    destruct ws as [|w ws]; [discriminate H|].
    change (c :: b ++ LF :: LF :: BRACKET_open :: t)
      with ((c :: b) ++ LF :: LF :: BRACKET_open :: t) in H.
    destruct (span is_digit (c :: b)) as [dg [|e s3]] eqn:E3.
    + destruct (span_app_all is_digit (c :: b) (LF :: LF :: BRACKET_open :: t) dg E3)
        as [-> Hs].
      rewrite Hs in H.
      change (span is_digit (LF :: LF :: BRACKET_open :: t))
        with (@nil char, LF :: LF :: BRACKET_open :: t) in H.
      cbn [fst snd] in H. rewrite app_nil_r in H.
      change (LF =? BRACKET_close) with false in H. discriminate H.
    + rewrite (span_app_rest is_digit (c :: b) _ _ _ _ E3) in H.
      destruct dg as [|d dg]; [discriminate H|].
      destruct (e =? BRACKET_close); [|discriminate H].
      injection H as <- _. eexists. reflexivity.
Qed.

Lemma has_marker_cons (c : char) (s : jsstring) :
  has_marker (c :: s) = false ->
  match_marker (c :: s) = None /\ has_marker s = false.
Proof.
  cbn [has_marker]. destruct (match_marker (c :: s)); [discriminate|auto].
Qed.

(** No match starts in a text without a match that is followed by two
    line feeds and an opening bracket, or by nothing. *)
Lemma no_match_before_gap (s t : jsstring) :
  has_marker s = false -> no_match_before s (LF :: LF :: BRACKET_open :: t).
Proof.
  induction s as [|c s IH]; intros H; cbn [no_match_before]; [exact I|].
  apply has_marker_cons in H as [Hm Hs]. split; [|apply IH; exact Hs].
  destruct (match_marker (c :: s ++ LF :: LF :: BRACKET_open :: t))
    as [[ds rest]|] eqn:E; [|reflexivity].
  apply (match_marker_before_gap (c :: s)) in E as [rest' E]. congruence.
Qed.

Lemma no_match_before_end (s : jsstring) :
  has_marker s = false -> no_match_before s [].
Proof.
  induction s as [|c s IH]; intros H; cbn [no_match_before]; [exact I|].
  apply has_marker_cons in H as [Hm Hs]. rewrite app_nil_r. auto.
Qed.

Lemma no_match_before_app (a b t : jsstring) :
  no_match_before a (b ++ t) -> no_match_before b t ->
  no_match_before (a ++ b) t.
Proof.
  intros Ha Hb. induction a as [|c a IH]; [exact Hb|].
  cbn [no_match_before app] in *. destruct Ha as [Hm Ha].
  rewrite <- app_assoc. split; [exact Hm | apply IH; exact Ha].
Qed.

(** A prefix of a text without a match has no match. *)
Lemma has_marker_prefix (a b : jsstring) :
  has_marker (a ++ b) = false -> has_marker a = false.
Proof.
  induction a as [|c a IH]; intros H; [reflexivity|].
  change ((c :: a) ++ b) with (c :: a ++ b) in H.
  apply has_marker_cons in H as [Hm Hs].
  cbn [has_marker].
  destruct (match_marker (c :: a)) as [[ds rest]|] eqn:E; [|apply IH; exact Hs].
  apply (match_marker_app _ b) in E.
  change ((c :: a) ++ b) with (c :: a ++ b) in E. congruence.
Qed.

Lemma trimStart_suffix (s : jsstring) : exists w, s = w ++ trimStart s.
Proof.
  induction s as [|c s [w IH]]; [exists []; reflexivity|].
  simpl. destruct (is_space c).
  - exists (c :: w). simpl. f_equal. exact IH.
  - exists []. reflexivity.
Qed.

Lemma trimEnd_prefix (s : jsstring) : exists w, s = trimEnd s ++ w.
Proof.
  unfold trimEnd. destruct (trimStart_suffix (rev s)) as [w H].
  exists (rev w). rewrite <- rev_app_distr, <- H. symmetry. apply rev_involutive.
Qed.

(** *** The parts of a text *)

Lemma split_marker_None (cur s : jsstring) (c : char) :
  match_marker (c :: s) = None ->
  split_marker cur (c :: s) = split_marker (c :: cur) s.
Proof.
  intros H. rewrite split_marker_equation_2.
  destruct (inspect (match_marker (c :: s))) as [[[ds rest]|] E].
  - congruence.
  - reflexivity.
Qed.

Lemma split_marker_Some (cur s ds rest : jsstring) (c : char) :
  match_marker (c :: s) = Some (ds, rest) ->
  split_marker cur (c :: s) = rev cur :: ds :: split_marker [] rest.
Proof.
  intros H. rewrite split_marker_equation_2.
  destruct (inspect (match_marker (c :: s))) as [[[ds' rest']|] E].
  - assert (E' := E). rewrite H in E'. injection E' as Hd Hr.
    subst ds' rest'. reflexivity.
  - congruence.
Qed.

(** Where no match starts, the scan moves on and keeps what it read. *)
Lemma split_marker_skip (s t : jsstring) :
  forall cur, no_match_before s t ->
    split_marker cur (s ++ t) = split_marker (rev s ++ cur) t.
Proof.
  induction s as [|c s IH]; intros cur H; [reflexivity|].
  cbn [no_match_before] in H. destruct H as [Hm Hs].
  cbn [app]. rewrite (split_marker_None _ _ _ Hm).
  rewrite (IH _ Hs). cbn [rev]. rewrite <- app_assoc. reflexivity.
Qed.

(** At a marker, the scan closes the current part and adds the digits. *)
Lemma split_marker_at_marker (cur t : jsstring) (k : N) :
  split_marker cur (marker k ++ t) =
  rev cur :: decimal k :: split_marker [] t.
Proof.
  pose proof (match_marker_marker k t) as H.
  rewrite marker_app in *.
  change (PAGE_open ++ SP :: decimal k ++ BRACKET_close :: t)
    with (BRACKET_open :: tl PAGE_open ++ SP :: decimal k ++ BRACKET_close :: t) in *.
  apply split_marker_Some. exact H.
Qed.

(** *** The stitched text *)

Lemma stitch_concat (pages : list (N * jsstring)) :
  stitch pages = concat (map (fun p => page_block (fst p) (snd p)) pages).
Proof.
  unfold stitch.
  assert (H : forall acc,
            fold_left (fun fullText p => fullText ++ page_block (fst p) (snd p))
                      pages acc =
            acc ++ concat (map (fun p => page_block (fst p) (snd p)) pages)).
  { induction pages as [|p pages IH]; intros acc; simpl.
    - rewrite app_nil_r. reflexivity.
    - rewrite IH, <- app_assoc. reflexivity. }
  apply H.
Qed.

(** A text that is not blank has a code unit that is not white space. *)
Lemma nonblank_split (p : jsstring) :
  trim p <> [] ->
  exists w c r, p = w ++ c :: r /\ forallb is_space w = true /\ is_space c = false.
Proof.
  intros H.
  destruct (trimStart_cases p) as [[_ Hb]|(w & c & r & Hp & Hw & Hc & _)].
  - exfalso. apply H. unfold trim. rewrite Hb. reflexivity.
  - exists w, c, r. auto.
Qed.

Lemma trimEnd_app_nonblank (x p : jsstring) :
  trim p <> [] -> trimEnd (x ++ p) = x ++ trimEnd p.
Proof.
  intros H. destruct (nonblank_split p H) as (w & c & r & -> & _ & Hc).
  rewrite app_assoc. rewrite !trimEnd_app_stop by exact Hc.
  rewrite <- app_assoc. reflexivity.
Qed.

(** White space at the end does not change what [trim] returns. *)
Lemma trim_trimEnd (p : jsstring) : trim (trimEnd p) = trim p.
Proof.
  unfold trim.
  destruct (trimStart_cases p) as [[Ha Hb]|(w & c & r & -> & Hw & Hc & Ht)].
  - rewrite Hb.
    assert (E : trimEnd p = []).
    { rewrite <- (app_nil_l p). rewrite trimEnd_app_space by exact Ha.
      reflexivity. }
    rewrite E. reflexivity.
  - rewrite Ht. rewrite trimEnd_app_stop by exact Hc.
    rewrite trimStart_app_space by exact Hw.
    rewrite (trimStart_stop c _ Hc).
    pose proof (trimEnd_app_stop [] (trimEnd r) c Hc) as E1.
    pose proof (trimEnd_app_stop [] r c Hc) as E2.
    cbn [app] in E1, E2. rewrite E1, E2, trimEnd_idem. reflexivity.
Qed.

(** The final [trim] of the stitched text only reaches the last page. *)
Lemma trimEnd_body (ps : list jsstring) :
  forall (k : N) (p x : jsstring),
    Forall plain_page (p :: ps) ->
    trimEnd (x ++ p ++
             concat (map (fun q => page_block (fst q) (snd q)) (number_from k ps))) =
    x ++ body k p ps.
Proof.
  induction ps as [|p' ps IH]; intros k p x H.
  - cbn [number_from map concat body]. rewrite app_nil_r.
    apply trimEnd_app_nonblank.
    apply Forall_inv in H. apply H.
  - cbn [number_from map concat body fst snd]. unfold page_block at 1.
    apply Forall_inv_tail in H.
    specialize (IH (N.succ k) p' (x ++ p ++ LF :: LF :: marker k ++ [LF]) H).
    etransitivity; [|etransitivity; [exact IH|]].
    + f_equal.
      repeat (rewrite <- app_assoc || rewrite <- app_comm_cons). reflexivity.
    + repeat (rewrite <- app_assoc || rewrite <- app_comm_cons). reflexivity.
Qed.

Lemma marker_head (k : N) (t : jsstring) :
  marker k ++ t = BRACKET_open :: tl PAGE_open ++ SP :: decimal k ++ BRACKET_close :: t.
Proof. rewrite marker_app. reflexivity. Qed.

Lemma trimStart_block (k : N) (t : jsstring) :
  trimStart (LF :: LF :: marker k ++ t) = marker k ++ t.
Proof. rewrite marker_head. reflexivity. Qed.

(** The text that [ocrPdfToText] returns for page texts numbered from [k]. *)
Lemma ocr_text_body (k : N) (p : jsstring) (ps : list jsstring) :
  Forall plain_page (p :: ps) ->
  ocr_text (number_from k (p :: ps)) = marker k ++ LF :: body (N.succ k) p ps.
Proof.
  intros H. unfold ocr_text, trim. rewrite stitch_concat.
  cbn [number_from map concat fst snd]. unfold page_block at 1.
  assert (E : trimStart ((LF :: LF :: marker k ++ LF :: p) ++
                concat (map (fun q => page_block (fst q) (snd q))
                            (number_from (N.succ k) ps))) =
              (marker k ++ [LF]) ++ p ++
                concat (map (fun q => page_block (fst q) (snd q))
                            (number_from (N.succ k) ps))).
  { repeat (rewrite <- app_assoc || rewrite <- app_comm_cons).
    rewrite trimStart_block. reflexivity. }
  rewrite E. rewrite (trimEnd_body ps (N.succ k) p _ H).
  rewrite <- app_assoc. reflexivity.
Qed.

(** *** Splitting the stitched text *)

Lemma has_marker_LF (s : jsstring) : has_marker (LF :: s) = has_marker s.
Proof. reflexivity. Qed.

Lemma split_marker_body (ps : list jsstring) :
  forall (k : N) (p : jsstring),
    Forall plain_page (p :: ps) ->
    split_marker [] (LF :: body k p ps) = segments k p ps.
Proof.
  induction ps as [|p' ps IH]; intros k p H.
  - cbn [body segments].
    pose proof (Forall_inv H) as [_ Hp].
    rewrite <- (app_nil_r (LF :: trimEnd p)) at 1.
    rewrite split_marker_skip.
    + rewrite split_marker_equation_1, app_nil_r, rev_involutive. reflexivity.
    + apply no_match_before_end. rewrite has_marker_LF.
      destruct (trimEnd_prefix p) as [w Hw].
      apply (has_marker_prefix _ w). rewrite <- Hw. exact Hp.
  - cbn [body segments].
    pose proof (Forall_inv H) as [_ Hp].
    apply Forall_inv_tail in H.
    replace (LF :: p ++ LF :: LF :: marker k ++ LF :: body (N.succ k) p' ps)
      with ((LF :: p ++ [LF; LF]) ++ marker k ++ LF :: body (N.succ k) p' ps)
      by (repeat (rewrite <- app_assoc || rewrite <- app_comm_cons); reflexivity).
    rewrite split_marker_skip.
    + rewrite split_marker_at_marker. rewrite app_nil_r, rev_involutive.
      rewrite (IH _ _ H). reflexivity.
    + change (LF :: p ++ [LF; LF]) with ((LF :: p) ++ [LF; LF]).
      apply no_match_before_app.
      * rewrite marker_head. apply no_match_before_gap.
        rewrite has_marker_LF. exact Hp.
      * cbn [no_match_before]. auto.
Qed.

Lemma truthy_nonempty (s : jsstring) : s <> [] -> truthy s = true.
Proof. destruct s; [congruence | reflexivity]. Qed.

Lemma pages_loop_step (d c : jsstring) (parts : list jsstring) :
  pages_loop (d :: c :: parts) =
  (if truthy (trim c) then [mkPage (Number_of_digits d) (trim c)] else [])
    ++ pages_loop parts.
Proof. reflexivity. Qed.

Lemma pages_loop_segments (ps : list jsstring) :
  forall (k : N) (p : jsstring),
    Forall plain_page (p :: ps) ->
    pages_loop (decimal k :: segments (N.succ k) p ps) =
    map record_of (number_from k (p :: ps)).
Proof.
  induction ps as [|p' ps IH]; intros k p H.
  - cbn [segments pages_loop number_from map]. unfold record_of. cbn [fst snd].
    pose proof (Forall_inv H) as [Hp _].
    assert (E : trim (LF :: trimEnd p) = trim p).
    { rewrite <- (trim_trimEnd p).
      pose proof (trim_app_space [LF] (trimEnd p) [] eq_refl eq_refl) as E.
      rewrite app_nil_r in E. exact E. }
    rewrite E, (truthy_nonempty _ Hp).
    destruct (decimal_spec k) as (_ & _ & ->). reflexivity.
  - cbn [segments]. rewrite pages_loop_step.
    pose proof (Forall_inv H) as [Hp _].
    apply Forall_inv_tail in H.
    rewrite (IH _ _ H).
    assert (E : trim (LF :: p ++ [LF; LF]) = trim p).
    { apply (trim_app_space [LF] p [LF; LF]); reflexivity. }
    rewrite E, (truthy_nonempty _ Hp).
    destruct (decimal_spec k) as (_ & _ & ->). reflexivity.
Qed.

(** The records of the stitched text of page texts numbered from [k]. *)
Lemma splitByPages_ocr_text (k : N) (p : jsstring) (ps : list jsstring) :
  Forall plain_page (p :: ps) ->
  splitByPages (ocr_text (number_from k (p :: ps))) =
  map record_of (number_from k (p :: ps)).
Proof.
  intros H. unfold splitByPages.
  rewrite (ocr_text_body k p ps H).
  rewrite split_marker_at_marker.
  rewrite (split_marker_body ps (N.succ k) p H).
  cbn [tl rev].
  rewrite (pages_loop_segments ps k p H).
  destruct (segments (N.succ k) p ps); reflexivity.
Qed.

(** C5 (amended): for every list of page texts that is not empty, each of
    them not blank and without a match of the marker expression, the
    records of the text stitched by the OCR step with the markers
    [[PAGE 1]], [[PAGE 2]], ... are the pages 1, 2, ... with the trimmed
    texts. *)
Theorem splitByPages_left_inverse (ps : list jsstring) :
  ps <> [] ->
  Forall plain_page ps ->
  splitByPages (ocr_text (number_from 1 ps)) = map record_of (number_from 1 ps).
Proof.
  intros Hne H. destruct ps as [|p ps]; [congruence|].
  apply splitByPages_ocr_text. exact H.
Qed.

(** The claim C5 as it is stated fails for the empty list of pages: the
    stitched text is empty, and [splitByPages] returns the record of page 1
    with an empty content instead of no record. *)
Lemma splitByPages_no_page :
  Forall plain_page [] /\
  splitByPages (ocr_text (number_from 1 [])) = [mkPage 1 []] /\
  splitByPages (ocr_text (number_from 1 [])) <> map record_of (number_from 1 []).
Proof.
  split; [constructor|]. split; [vm_compute; reflexivity|].
  vm_compute. discriminate.
Qed.

Lemma splitByPages_left_inverse_witness :
  splitByPages (ocr_text (number_from 1 sample_pages)) =
  [mkPage 1 (lit "Hello world"); mkPage 2 (lit "second page"); mkPage 3 (lit "3")].
Proof.
  rewrite (splitByPages_left_inverse sample_pages).
  - reflexivity.
  - discriminate.
  - repeat constructor; vm_compute; discriminate.
Defined.

Close Scope N_scope.

End PagesFacts.

(* ===================================================================== *)
(** ** The text extractor: native text or OCR                             *)
(* ===================================================================== *)

Module ExtractFacts.

Import Extract.

Open Scope Z_scope.

(** C6 (amended): when native extraction succeeds, [extractTextSmart] trims
    its text; if fewer than 300 code units remain it returns what the OCR
    returns with [usedOcr = true], and otherwise it returns the trimmed
    native text with [usedOcr = false], whatever the OCR would do. *)
Theorem extractTextSmart_threshold {Buffer Path Err : Type}
    (parsePdf : Buffer -> Outcome Err (option jsstring))
    (ocrPdfToText : Path -> Outcome Err (jsstring * nat))
    (pdfBuffer : Buffer) (pdfPath : Path) (parsed_text : option jsstring) :
  parsePdf pdfBuffer = Ok parsed_text ->
  (len (native_text parsed_text) < 300 ->
   extractTextSmart parsePdf ocrPdfToText pdfBuffer pdfPath =
   match ocrPdfToText pdfPath with
   | Ok ocr => Ok (mkExtraction (fst ocr) true)
   | Threw e => Threw e
   end) /\
  (300 <= len (native_text parsed_text) ->
   forall ocr' : Path -> Outcome Err (jsstring * nat),
     extractTextSmart parsePdf ocr' pdfBuffer pdfPath =
     Ok (mkExtraction (native_text parsed_text) false)).
Proof.
  intros Hparse. unfold extractTextSmart. rewrite Hparse. split.
  - intros H. destruct (Z.ltb_spec (len (native_text parsed_text)) 300); [|lia].
    reflexivity.
  - intros H ocr'.
    destruct (Z.ltb_spec (len (native_text parsed_text)) 300); [lia|].
    reflexivity.
Qed.

(** The claim C6 as it is stated fails for a native text with white space
    at an end: the text returned with [usedOcr = false] is the trimmed
    text, not the text that native extraction produced. *)
Lemma extractTextSmart_trims_native_text :
  extractTextSmart parse_as_is ocr_one_page padded_text tt =
    Ok (mkExtraction (repeat 97%N 300) false) /\
  repeat 97%N 300 <> padded_text.
Proof.
  split; [vm_compute; reflexivity|].
  unfold padded_text. discriminate.
Qed.

Lemma extractTextSmart_threshold_witness :
  extractTextSmart parse_as_is ocr_one_page (repeat 97%N 50) tt =
    Ok (mkExtraction scanned true) /\
  extractTextSmart parse_as_is ocr_one_page (repeat 97%N 5000) tt =
    Ok (mkExtraction (repeat 97%N 5000) false).
Proof.
  split.
  - destruct (extractTextSmart_threshold parse_as_is ocr_one_page
                (repeat 97%N 50) tt (Some (repeat 97%N 50)) eq_refl) as [H _].
    rewrite H; [reflexivity | vm_compute; reflexivity].
  - destruct (extractTextSmart_threshold parse_as_is ocr_one_page
                (repeat 97%N 5000) tt (Some (repeat 97%N 5000)) eq_refl) as [_ H].
    rewrite H; [vm_compute; reflexivity | vm_compute; discriminate].
Defined.

Close Scope Z_scope.

End ExtractFacts.

(* ===================================================================== *)
(** ** The concurrency limiter: bound, order, progress                    *)
(* ===================================================================== *)

Module LimiterFacts.

Import Limiter.

Open Scope Z_scope.

Lemma remove_length_nodup (t : Task) (l : list Task) :
  NoDup l -> In t l ->
  S (length (remove Nat.eq_dec t l)) = length l.
Proof.
  induction 1 as [|x l Hx Hnd IH]; intros Hin; [destruct Hin|].
  simpl. destruct (Nat.eq_dec t x) as [->|Hne].
  - rewrite notin_remove by exact Hx. reflexivity.
  - destruct Hin as [->|Hin]; [congruence|].
    simpl. rewrite IH by exact Hin. reflexivity.
Qed.

Lemma remove_nodup (t : Task) (l : list Task) :
  NoDup l -> NoDup (remove Nat.eq_dec t l).
Proof.
  induction 1 as [|x l Hx Hnd IH]; simpl; [constructor|].
  destruct (Nat.eq_dec t x); [exact IH|].
  constructor; [|exact IH].
  intros Hin. apply in_remove in Hin as [Hin _]. contradiction.
Qed.

(** [next()] establishes the invariant from a state in which only the
    queue may be longer than the free slots allow. *)
Lemma next_invariant (max : Z) (st : State) :
  0 <= max ->
  active st = Z.of_nat (length (running st)) ->
  Z.of_nat (length (running st)) <= max ->
  started st ++ queue st = seq 0 (submitted st) ->
  incl (running st) (started st) ->
  NoDup (running st) ->
  (forall t, In t (started st) ->
     In t (running st) \/ exists o, In (t, o) (delivered st)) ->
  (forall job rest, queue st = job :: rest -> rest <> [] -> max <= active st + 1) ->
  Invariant max (next max st).
Proof.
  intros Hmax Ha Hb Hf Hincl Hnd Hdel Hq. unfold next.
  destruct (Z.leb_spec max (active st)) as [Hfull|Hfree].
  - constructor; try assumption. intros _. lia.
  - destruct (queue st) as [|job rest] eqn:Eq.
    + constructor; try assumption.
      * rewrite Eq. exact Hf.
      * rewrite Eq. congruence.
    + assert (Hfresh : ~ In job (started st)).
      { pose proof (seq_NoDup (submitted st) 0) as Hseq. rewrite <- Hf in Hseq.
        apply NoDup_remove_2 in Hseq. intros Hin. apply Hseq.
        apply in_or_app. left. exact Hin. }
      constructor; cbn [active queue running started delivered submitted].
      * rewrite length_app. simpl. lia.
      * rewrite length_app. simpl. lia.
      * rewrite <- app_assoc. exact Hf.
      * intros Hrest. specialize (Hq job rest eq_refl Hrest). lia.
      * intros x Hx. apply in_app_or in Hx. apply in_or_app.
        destruct Hx as [Hx|Hx]; [left; apply Hincl; exact Hx | right; exact Hx].
      * apply NoDup_app; [exact Hnd | repeat constructor; intros [] |].
        intros x Hx [<-|[]]. apply Hfresh. apply Hincl. exact Hx.
      * intros t Ht. apply in_app_or in Ht as [Ht|[<-|[]]].
        -- destruct (Hdel t Ht) as [Hr|Hd]; [left|right; exact Hd].
           apply in_or_app. left. exact Hr.
        -- left. apply in_or_app. right. left. reflexivity.
Qed.

Lemma limit_invariant (max : Z) (st : State) :
  0 <= max -> Invariant max st -> Invariant max (limit max st).
Proof.
  intros Hmax [Ha Hb Hf Hbusy Hincl Hnd Hdel]. unfold limit.
  apply next_invariant; cbn [active queue running started delivered submitted];
    try assumption.
  - rewrite app_assoc, Hf. symmetry. apply seq_S.
  - intros job rest Hq Hrest.
    destruct (queue st) as [|j q] eqn:Eq.
    + simpl in Hq. injection Hq as _ Hr. exfalso. apply Hrest.
      symmetry. exact Hr.
    + rewrite Hbusy by discriminate. lia.
Qed.

Lemma settle_invariant (max : Z) (st st' : State) (t : Task) (o : Settlement) :
  0 <= max -> Invariant max st -> settle max st t o = Some st' ->
  Invariant max st'.
Proof.
  intros Hmax [Ha Hb Hf Hbusy Hincl Hnd Hdel]. unfold settle.
  destruct (in_dec Nat.eq_dec t (running st)) as [Hin|]; [|discriminate].
  intros H. injection H as <-.
  pose proof (remove_length_nodup t (running st) Hnd Hin) as Hlen.
  apply next_invariant; cbn [active queue running started delivered submitted];
    try assumption.
  - lia.
  - lia.
  - intros x Hx. apply in_remove in Hx as [Hx _]. apply Hincl. exact Hx.
  - apply remove_nodup. exact Hnd.
  - intros x Hx. destruct (Hdel x Hx) as [Hr|[o' Hd]].
    + destruct (Nat.eq_dec x t) as [->|Hne].
      * right. exists o. apply in_or_app. right. left. reflexivity.
      * left. apply in_in_remove; assumption.
    + right. exists o'. apply in_or_app. left. exact Hd.
  - intros job rest Hq _. rewrite Hbusy by (rewrite Hq; discriminate). lia.
Qed.

Lemma createLimiter_invariant (max : Z) : 0 <= max -> Invariant max createLimiter.
Proof.
  intros Hmax. constructor; simpl.
  - reflexivity.
  - exact Hmax.
  - reflexivity.
  - congruence.
  - intros x [].
  - constructor.
  - intros t [].
Qed.

Lemma step_invariant (max : Z) (st st' : State) (ev : Event) :
  0 <= max -> Invariant max st -> step max st ev = Some st' -> Invariant max st'.
Proof.
  intros Hmax Hinv. destruct ev as [|t o]; simpl.
  - intros H. injection H as <-. apply limit_invariant; assumption.
  - apply settle_invariant; assumption.
Qed.

Lemma run_invariant (max : Z) (evs : list Event) :
  forall st st', 0 <= max -> Invariant max st ->
    run max st evs = Some st' -> Invariant max st'.
Proof.
  induction evs as [|ev evs IH]; intros st st' Hmax Hinv; simpl.
  - intros H. injection H as <-. exact Hinv.
  - destruct (step max st ev) as [st1|] eqn:E; [|discriminate].
    apply IH; [exact Hmax|]. apply (step_invariant max st st1 ev); assumption.
Qed.


(** [next()] starts nothing twice and forgets nothing. *)
Lemma next_started (max : Z) (st : State) (t : Task) :
  In t (started st) -> In t (started (next max st)).
Proof.
  unfold next. destruct (max <=? active st); [auto|].
  destruct (queue st); [auto|]. simpl. intros H. apply in_or_app. auto.
Qed.


Lemma step_started (max : Z) (st st' : State) (ev : Event) (t : Task) :
  step max st ev = Some st' -> In t (started st) -> In t (started st').
Proof.
  destruct ev as [|u o]; simpl.
  - intros H Hin. injection H as <-. unfold limit. apply next_started. exact Hin.
  - unfold settle. destruct (in_dec Nat.eq_dec u (running st)); [|discriminate].
    intros H Hin. injection H as <-. apply next_started. exact Hin.
Qed.


Lemma run_started (max : Z) (evs : list Event) (t : Task) :
  forall st st', run max st evs = Some st' ->
    In t (started st) -> In t (started st').
Proof.
  induction evs as [|ev evs IH]; intros st st'; simpl.
  - intros H. injection H as <-. auto.
  - destruct (step max st ev) as [st1|] eqn:E; [|discriminate].
    intros H Hin. apply (IH st1 st' H). apply (step_started max st st1 ev); assumption.
Qed.



(** A task at position [k] of the queue has been started once [k + 1]
    running tasks have settled. *)
Lemma queued_task_starts (max : Z) (evs : list Event) :
  forall (st st' : State) (k : nat) (t : Task),
    1 <= max -> Invariant max st ->
    nth_error (queue st) k = Some t ->
    run max st evs = Some st' ->
    (k < settlements evs)%nat ->
    In t (started st').
Proof.
  induction evs as [|ev evs IH]; intros st st' k t Hmax Hinv Hk Hrun Hcount.
  - simpl in Hcount. lia.
  - simpl in Hrun. destruct (step max st ev) as [st1|] eqn:E; [|discriminate].
    assert (Hinv1 : Invariant max st1)
      by (apply (step_invariant max st st1 ev); [lia | assumption | assumption]).
    assert (Hne : queue st <> [])
      by (intros Hq; rewrite Hq in Hk; destruct k; discriminate Hk).
    pose proof (inv_busy max st Hinv Hne) as Hbusy.
    destruct ev as [|u o]; simpl in E, Hcount.
    + injection E as <-.
      apply (IH _ st' k t Hmax Hinv1); [|exact Hrun | exact Hcount].
      unfold limit, next. cbn [active queue].
      destruct (Z.leb_spec max (active st)); [|lia].
      cbn [queue]. rewrite nth_error_app1; [exact Hk|].
      apply nth_error_Some. congruence.
    + unfold settle in E.
      destruct (in_dec Nat.eq_dec u (running st)); [|discriminate].
      injection E as <-.
      unfold next in *. cbn [active queue] in *.
      destruct (Z.leb_spec max (active st - 1)); [lia|].
      destruct (queue st) as [|job rest] eqn:Eq; [congruence|].
      destruct k as [|k].
      * simpl in Hk. injection Hk as ->.
        apply (run_started max evs t _ st' Hrun).
        cbn [started]. apply in_or_app. right. left. reflexivity.
      * simpl in Hk.
        apply (IH _ st' k t Hmax Hinv1); [exact Hk | exact Hrun | lia].
Qed.








Close Scope Z_scope.

End LimiterFacts.

(* ===================================================================== *)
(** ** The ingestion driver: the order of the rows                        *)
(* ===================================================================== *)

Module IngestFacts.

Import JSFacts Chunker ChunkerFacts Extract Pages Ingest.

(** The loop of the chunker ends within [l] iterations when the step is
    positive. *)
Lemma iterations_le (l step : Z) :
  (0 <= l)%Z -> (0 < step)%Z -> iterations l step <= Z.to_nat l.
Proof.
  intros Hl Hs. unfold iterations.
  apply Z2Nat.inj_le; [apply Z.div_pos; lia | lia |].
  apply Z.lt_succ_r. apply Z.div_lt_upper_bound; [lia | nia].
Qed.

(** With the arguments of the driver and the fuel of [chunk_page],
    [chunkText] returns. *)
Lemma chunkText_driver_total (content : jsstring) :
  exists chunks, chunkText (S (length content)) content 900 150 = Some chunks.
Proof.
  eexists. apply chunkText_windows; [lia|].
  pose proof (normalize_len_le content) as Hle.
  pose proof (iterations_le (len (normalize content)) (900 - 150)
                (len_nonneg _) ltac:(lia)) as Hit.
  unfold len in *. lia.
Qed.

Section MainFacts.

Variables (File Buffer Err Num Literal : Type).
Variable startup : Outcome Err unit.
Variable is_pdf : File -> bool.
Variable readFileSync : File -> Outcome Err Buffer.
Variable parsePdf : Buffer -> Outcome Err (option jsstring).
Variable ocrPdfToText : File -> Outcome Err (jsstring * nat).
Variable embed : nat -> jsstring -> Outcome Err (list Num).
Variable vector_literal : list Num -> Literal.
Variable insert_error : Row File Literal -> option Err.
Variable empty_vector : Err.

Local Abbreviation State := (Ingest.State File Literal).

Lemma appends_ret {A : Type} (a : A) (st : State) :
  appends (Err := Err) [] st (ret a st).
Proof. exists []. simpl. rewrite app_nil_r. auto. Qed.

Lemma appends_lift {A : Type} (o : Outcome Err A) (st : State) :
  appends [] st (lift o st).
Proof.
  destruct o as [a|e]; simpl.
  - exists []. simpl. rewrite app_nil_r. auto.
  - exists [], []. simpl. rewrite app_nil_r. repeat split; auto; lia.
Qed.

(** A computation followed by another appends what both append. *)
Lemma appends_bind {A B : Type} (m : M File Err Literal A)
    (k : A -> M File Err Literal B) (e1 e2 : list (Key File)) (st : State) :
  appends e1 st (m st) ->
  (forall a st', appends e2 st' (k a st')) ->
  appends (e1 ++ e2) st (bind m k st).
Proof.
  intros Hm Hk. unfold bind.
  destruct (m st) as [a st1|e st1|]; simpl in Hm.
  - destruct Hm as (rows1 & Hdb1 & Hkeys1 & Hc1).
    specialize (Hk a st1). destruct (k a st1) as [b st2|e st2|]; simpl in *.
    + destruct Hk as (rows2 & Hdb2 & Hkeys2 & Hc2). exists (rows1 ++ rows2).
      rewrite Hdb2, Hdb1, <- app_assoc, map_app, Hkeys1, Hkeys2, length_app.
      repeat split; auto. lia.
    + destruct Hk as (rows2 & rest & Hdb2 & Hkeys2 & Hc2 & Hc3).
      exists (rows1 ++ rows2), rest.
      rewrite Hdb2, Hdb1, <- !app_assoc, map_app, Hkeys1, Hkeys2, <- app_assoc,
        length_app.
      repeat split; auto; lia.
    + exact Hk.
  - destruct Hm as (rows1 & rest & Hdb1 & Hkeys1 & Hc1 & Hc2).
    exists rows1, (rest ++ e2).
    rewrite Hkeys1, <- app_assoc. auto.
  - exact Hm.
Qed.

(** The body of the innermost loop calls [embed] once, and appends the row
    of the chunk unless it is aborted. *)
Lemma appends_insert_chunk (file : File) (page : N) (idx : nat) (ch : jsstring)
    (st : State) :
  appends [(file, page, idx, ch)] st
          (insert_chunk embed vector_literal insert_error empty_vector
                        file page idx ch st).
Proof.
  unfold insert_chunk, bind, embed_m.
  destruct (embed (embed_calls st) ch) as [vec|e].
  - unfold lift. destruct (toVectorLiteral vector_literal empty_vector vec)
      as [vecLit|e].
    + unfold insert_m.
      destruct (insert_error (mkRow file page idx ch vecLit)) as [e|]; simpl.
      * exists [], [(file, page, idx, ch)]. simpl. rewrite app_nil_r.
        repeat split; auto; lia.
      * exists [mkRow file page idx ch vecLit]. simpl. repeat split; auto. lia.
    + simpl. exists [], [(file, page, idx, ch)]. simpl. rewrite app_nil_r.
      repeat split; auto; lia.
  - simpl. exists [], [(file, page, idx, ch)]. simpl. rewrite app_nil_r.
    repeat split; auto; lia.
Qed.

Lemma chunk_loop_step (file : File) (page : N) (idx : nat) (ch : jsstring)
    (chunks : list jsstring) (st : State) :
  chunk_loop embed vector_literal insert_error empty_vector
             file page idx (ch :: chunks) st =
  bind (insert_chunk embed vector_literal insert_error empty_vector
                     file page idx ch)
       (fun _ => chunk_loop embed vector_literal insert_error empty_vector
                            file page (S idx) chunks) st.
Proof.
  cbn [chunk_loop]. unfold insert_chunk, bind.
  destruct (embed_m embed ch st) as [vec st1|e st1|]; [|reflexivity|reflexivity].
  destruct (lift (toVectorLiteral vector_literal empty_vector vec) st1)
    as [vecLit st2|e st2|]; reflexivity.
Qed.

(** The loop over the chunks of a page appends their rows, in order, with
    consecutive indices. *)
Lemma appends_chunk_loop (file : File) (page : N) (chunks : list jsstring) :
  forall (idx : nat) (st : State),
    appends (chunk_plan file page idx chunks) st
            (chunk_loop embed vector_literal insert_error empty_vector
                        file page idx chunks st).
Proof.
  induction chunks as [|ch chunks IH]; intros idx st.
  - apply appends_ret.
  - rewrite chunk_loop_step.
    unfold chunk_plan. cbn [length seq combine map fst snd].
    change ((file, page, idx, ch) ::
            map (fun ic => (file, page, fst ic, snd ic))
                (combine (seq (S idx) (length chunks)) chunks))
      with ([(file, page, idx, ch)] ++ chunk_plan file page (S idx) chunks).
    apply appends_bind; [apply appends_insert_chunk|].
    intros _ st1. apply IH.
Qed.

Lemma chunk_page_finished (content : jsstring) (st : State) :
  chunk_page (Err := Err) content st = Finished (chunks_of content) st.
Proof.
  unfold chunk_page, chunks_of.
  destruct (chunkText_driver_total content) as [chunks ->]. reflexivity.
Qed.

(** The loop over the pages of a file appends the rows of each page, in
    the order of the pages. *)
Lemma appends_page_loop (file : File) (pages : list PageRecord) :
  forall st : State,
    appends (flat_map (page_plan file) pages) st
            (page_loop embed vector_literal insert_error empty_vector
                       file pages st).
Proof.
  induction pages as [|p pages IH]; intros st.
  - apply appends_ret.
  - cbn [page_loop flat_map]. unfold bind at 1.
    rewrite chunk_page_finished.
    apply appends_bind; [apply appends_chunk_loop|].
    intros _ st1. apply IH.
Qed.

(** The loop over the files appends the rows of each file, in the order of
    the files. *)
Lemma appends_file_loop (files : list File) :
  forall st : State,
    appends (flat_map (file_plan readFileSync parsePdf ocrPdfToText) files) st
            (file_loop readFileSync parsePdf ocrPdfToText embed vector_literal
                       insert_error empty_vector files st).
Proof.
  induction files as [|file files IH]; intros st.
  - apply appends_ret.
  - cbn [file_loop flat_map]. unfold file_plan at 1. unfold bind at 1.
    destruct (readFileSync file) as [pdfBuffer|e]; cbn [lift].
    + unfold bind at 1.
      destruct (extractTextSmart parsePdf ocrPdfToText pdfBuffer file)
        as [r|e]; cbn [lift].
      * apply appends_bind; [apply appends_page_loop|].
        intros _ st1. apply IH.
      * exists [], (flat_map (file_plan readFileSync parsePdf ocrPdfToText) files).
        simpl. rewrite app_nil_r. repeat split; auto; lia.
    + exists [], (flat_map (file_plan readFileSync parsePdf ocrPdfToText) files).
      simpl. rewrite app_nil_r. repeat split; auto; lia.
Qed.

Lemma chunk_plan_indices (file : File) (page : N) (chunks : list jsstring) :
  forall idx,
    map (fun k : Key File => snd (fst k)) (chunk_plan file page idx chunks) =
    seq idx (length chunks).
Proof.
  unfold chunk_plan.
  induction chunks as [|ch chunks IH]; intros idx; [reflexivity|].
  simpl. f_equal. apply IH.
Qed.

(** C8: a run of [main] does not diverge and appends to the table the rows
    of the files in the order of the listing, within a file those of its
    pages in the order of the pages, within a page those of its chunks in
    the order of the chunks, with one call of [embed] for each row: a row
    is inserted before the next chunk is embedded.  A run that is aborted
    has inserted the first of these rows.  Within a page the indices of
    the chunks are 0, 1, 2, ... *)
Theorem main_rows_in_order (listing : list File) (st : State) :
  appends (plan is_pdf readFileSync parsePdf ocrPdfToText listing) st
          (main startup is_pdf readFileSync parsePdf ocrPdfToText embed
                vector_literal insert_error empty_vector listing st) /\
  (forall file p,
     map (fun k : Key File => snd (fst k)) (page_plan file p) =
     seq 0 (length (chunks_of (content p)))).
Proof.
  split.
  - unfold main, plan.
    change (flat_map (file_plan readFileSync parsePdf ocrPdfToText)
                     (filter is_pdf listing))
      with ([] ++ flat_map (file_plan readFileSync parsePdf ocrPdfToText)
                           (filter is_pdf listing)).
    apply appends_bind; [apply appends_lift|].
    intros _ st1. apply appends_file_loop.
  - intros file p. apply chunk_plan_indices.
Qed.

End MainFacts.

(** The sample run inserts the two chunks of the document in order. *)
Example sample_main_rows :
  sample_main [5] (mkState [] 0) =
  Finished tt (mkState [mkRow 5 1%N 0 (repeat 97%N 900) [0];
                        mkRow 5 1%N 1 (repeat 97%N 250) [1]] 2).
Proof. vm_compute. reflexivity. Qed.

End IngestFacts.

(* ===================================================================== *)
(** ** The chunker: what the chunks are made of                           *)
(* ===================================================================== *)

Module ChunkerMore.

Import JSFacts Chunker ChunkerFacts Whitespace.

Open Scope Z_scope.

(** More fuel does not change what the loop returns. *)
Lemma chunk_loop_more_fuel (fuel : nat) :
  forall clean chunkSize overlap i chunks r fuel',
    chunk_loop fuel clean chunkSize overlap i chunks = Some r ->
    (fuel <= fuel')%nat ->
    chunk_loop fuel' clean chunkSize overlap i chunks = Some r.
Proof.
  induction fuel as [|fuel IH]; intros clean chunkSize overlap i chunks r fuel' H Hle.
  - discriminate H.
  - destruct fuel' as [|fuel']; [lia|]. simpl in *.
    destruct (i <? len clean); [|exact H].
    apply (IH _ _ _ _ _ _ fuel' H). lia.
Qed.

(** Whatever fuel makes [chunkText] return, the chunks are the long windows
    at the offsets of the loop. *)
Lemma chunkText_returns_windows (text : jsstring) (chunkSize overlap : Z)
    (fuel : nat) (chunks : list jsstring) :
  overlap < chunkSize ->
  chunkText fuel text chunkSize overlap = Some chunks ->
  chunks =
  filter long_enough
    (map (window (normalize text) chunkSize)
         (offsets (chunkSize - overlap)
                  (iterations (len (normalize text)) (chunkSize - overlap)))).
Proof.
  intros Hlt H.
  set (n := iterations (len (normalize text)) (chunkSize - overlap)).
  pose proof (chunk_loop_more_fuel fuel _ _ _ _ _ _ (Nat.max fuel (S n)) H
                (Nat.le_max_l _ _)) as H1.
  pose proof (chunkText_windows text chunkSize overlap (Nat.max fuel (S n)) Hlt) as H2.
  unfold chunkText in H2. fold n in H2.
  rewrite H2 in H1 by lia. injection H1 as H1. symmetry. exact H1.
Qed.

Lemma offsets_nonneg (step : Z) (n : nat) (o : Z) :
  0 < step -> In o (offsets step n) -> 0 <= o.
Proof.
  intros Hs Ho. unfold offsets in Ho.
  apply in_map_iff in Ho as (k & <- & _). nia.
Qed.

(** A slice from a non-negative offset is no longer than its bounds say. *)
Lemma slice_len_width (s : jsstring) (a w : Z) :
  0 <= a -> 0 <= w -> len (slice s a (a + w)) <= w.
Proof.
  intros Ha Hw. pose proof (len_nonneg s) as Hs.
  unfold slice. rewrite !rel_index_nonneg by lia.
  unfold len at 1. rewrite length_firstn. lia.
Qed.

(** The slice of a string lies in the string. *)
Lemma slice_inside (s : jsstring) (a b : Z) :
  exists u v, s = u ++ slice s a b ++ v.
Proof.
  unfold slice.
  set (from := Z.to_nat (rel_index (len s) a)).
  set (n := Z.to_nat (rel_index (len s) b - rel_index (len s) a)).
  exists (firstn from s), (skipn n (skipn from s)).
  rewrite (firstn_skipn n (skipn from s)). symmetry. apply firstn_skipn.
Qed.

(** What [trim] returns lies in its argument. *)
Lemma trim_inside (s : jsstring) : exists u v, s = u ++ trim s ++ v.
Proof.
  unfold trim.
  destruct (PagesFacts.trimStart_suffix s) as [u Hu].
  destruct (PagesFacts.trimEnd_prefix (trimStart s)) as [v Hv].
  exists u, v. rewrite <- Hv. exact Hu.
Qed.

Lemma window_inside (clean : jsstring) (chunkSize o : Z) :
  exists u v, clean = u ++ window clean chunkSize o ++ v.
Proof.
  unfold window.
  destruct (slice_inside clean o (o + chunkSize)) as (u1 & v1 & H1).
  destruct (trim_inside (slice clean o (o + chunkSize))) as (u2 & v2 & H2).
  exists (u1 ++ u2), (v2 ++ v1).
  rewrite H1 at 1. rewrite H2 at 1.
  repeat rewrite <- app_assoc. reflexivity.
Qed.

(** What holds of the chunks that [chunkText] returns. *)
Lemma returned_chunks (text : jsstring) (chunkSize overlap : Z)
    (fuel : nat) (chunks : list jsstring) :
  0 <= chunkSize ->
  overlap < chunkSize ->
  chunkText fuel text chunkSize overlap = Some chunks ->
  Forall (fun c => 60 < len c <= chunkSize /\ trim c = c /\
                   exists u v, normalize text = u ++ c ++ v) chunks /\
  (length chunks <= iterations (len (normalize text)) (chunkSize - overlap))%nat.
Proof.
  intros Hsize Hlt H.
  rewrite (chunkText_returns_windows text chunkSize overlap fuel chunks Hlt H).
  split.
  - apply Forall_forall. intros c Hc.
    apply filter_In in Hc as [Hc Hlong].
    apply in_map_iff in Hc as (o & <- & Ho).
    apply offsets_nonneg in Ho; [|lia].
    split; [|split].
    + unfold long_enough in Hlong. apply Z.ltb_lt in Hlong.
      split; [exact Hlong|]. unfold window.
      pose proof (trim_len_le (slice (normalize text) o (o + chunkSize))).
      pose proof (slice_len_width (normalize text) o chunkSize Ho Hsize). lia.
    + unfold window. apply trim_idem.
    + apply window_inside.
  - etransitivity; [apply filter_length_le|].
    unfold offsets. rewrite !length_map, length_seq. lia.
Qed.

(** X1: when [0 <= chunkSize] and [overlap < chunkSize], every chunk that
    [chunkText] returns has more than 60 and at most [chunkSize] code
    units, has no white space at its ends, and is a contiguous piece of
    the normalized text; and there are at most as many chunks as windows,
    the length of the normalized text divided by [chunkSize - overlap],
    rounded up. *)
Theorem chunkText_chunks_wellformed (text : jsstring) (chunkSize overlap : Z)
    (fuel : nat) (chunks : list jsstring) :
  0 <= chunkSize ->
  overlap < chunkSize ->
  chunkText fuel text chunkSize overlap = Some chunks ->
  Forall (fun c => 60 < len c <= chunkSize /\ trim c = c /\
                   exists u v, normalize text = u ++ c ++ v) chunks /\
  (length chunks <= iterations (len (normalize text)) (chunkSize - overlap))%nat.
Proof. apply returned_chunks. Qed.

Lemma chunkText_chunks_wellformed_witness :
  Forall (fun c => 60 < len c <= 900 /\ trim c = c /\
                   exists u v, normalize spaced_text = u ++ c ++ v)
         [firstn 899 spaced_text; skipn 750 spaced_text].
Proof.
  apply (chunkText_chunks_wellformed spaced_text 900 150 3);
    [lia | lia | vm_compute; reflexivity].
Defined.

(** What holds when there is nothing long enough to emit. *)
Lemma nothing_long_enough (text : jsstring) (chunkSize overlap : Z) (fuel : nat) :
  overlap < chunkSize ->
  len (normalize text) <= 60 \/ 0 <= chunkSize <= 60 ->
  (iterations (len (normalize text)) (chunkSize - overlap) < fuel)%nat ->
  chunkText fuel text chunkSize overlap = Some [].
Proof.
  intros Hlt Hsmall Hfuel. rewrite chunkText_windows by assumption.
  f_equal. apply filter_map_none. intros o Ho.
  apply offsets_nonneg in Ho; [|lia].
  unfold long_enough. apply Z.ltb_ge.
  pose proof (len_nonneg (normalize text)) as Hnn.
  destruct Hsmall as [Hshort|Hnarrow].
  - pose proof (window_len_bound (normalize text) chunkSize o Ho). lia.
  - unfold window.
    pose proof (trim_len_le (slice (normalize text) o (o + chunkSize))).
    pose proof (slice_len_width (normalize text) o chunkSize Ho ltac:(lia)). lia.
Qed.

(** X2: when [overlap < chunkSize], a text whose normalization has at most
    60 code units yields no chunk, and so does every text when
    [0 <= chunkSize <= 60]. *)
Theorem chunkText_nothing_to_emit (text : jsstring) (chunkSize overlap : Z)
    (fuel : nat) :
  overlap < chunkSize ->
  len (normalize text) <= 60 \/ 0 <= chunkSize <= 60 ->
  (iterations (len (normalize text)) (chunkSize - overlap) < fuel)%nat ->
  chunkText fuel text chunkSize overlap = Some [].
Proof. apply nothing_long_enough. Qed.

Lemma chunkText_nothing_to_emit_witness :
  chunkText 2 (repeat 97%N 40) 900 150 = Some [] /\
  chunkText 30 (repeat 97%N 1000) 50 10 = Some [].
Proof.
  split.
  - apply chunkText_nothing_to_emit;
      [lia | left; vm_compute; discriminate | vm_compute; lia].
  - apply chunkText_nothing_to_emit;
      [lia | right; lia | vm_compute; lia].
Defined.

(** *** Normalized texts *)

Lemma single_spaced_weaken (s : jsstring) :
  single_spaced true s = true -> single_spaced false s = true.
Proof.
  destruct s as [|c s]; [reflexivity|]. simpl.
  destruct (is_space c); [|auto].
  rewrite andb_false_r. discriminate.
Qed.

(** [replace(/\s+/g, " ")] leaves single spaces as the only white space. *)
Lemma replace_ws_single_spaced (s : jsstring) :
  forall b, single_spaced b (replace_ws b s) = true.
Proof.
  induction s as [|c s IH]; intros b; [reflexivity|].
  simpl. destruct (is_space c) eqn:E.
  - destruct b; [apply IH|].
    simpl. rewrite (IH true). reflexivity.
  - simpl. rewrite E. apply IH.
Qed.

Lemma single_spaced_trimStart (s : jsstring) :
  forall b, single_spaced b s = true -> single_spaced false (trimStart s) = true.
Proof.
  induction s as [|c s IH]; intros b H; [reflexivity|].
  simpl in *. destruct (is_space c) eqn:E.
  - apply andb_true_iff in H as [_ H]. apply (IH true H).
  - simpl. rewrite E. exact H.
Qed.

Lemma single_spaced_prefix (u v : jsstring) :
  forall b, single_spaced b (u ++ v) = true -> single_spaced b u = true.
Proof.
  induction u as [|c u IH]; intros b H; [reflexivity|].
  simpl in *. destruct (is_space c).
  - apply andb_true_iff in H as [H1 H2]. rewrite H1. apply (IH true H2).
  - apply (IH false H).
Qed.

Lemma single_spaced_trim (s : jsstring) (b : bool) :
  single_spaced b s = true -> single_spaced false (trim s) = true.
Proof.
  intros H. unfold trim.
  apply single_spaced_trimStart in H.
  destruct (PagesFacts.trimEnd_prefix (trimStart s)) as [w Hw].
  rewrite Hw in H. apply (single_spaced_prefix _ w false H).
Qed.

(** Where single spaces are the only white space, the replacement changes
    nothing. *)
Lemma replace_ws_fixed (s : jsstring) :
  forall b, single_spaced b s = true -> replace_ws b s = s.
Proof.
  induction s as [|c s IH]; intros b H; [reflexivity|].
  simpl in *. destruct (is_space c).
  - apply andb_true_iff in H as [H1 H2].
    apply andb_true_iff in H1 as [Hc Hb].
    apply N.eqb_eq in Hc. subst c.
    destruct b; [discriminate Hb|].
    rewrite (IH true H2). reflexivity.
  - rewrite (IH false H). reflexivity.
Qed.

(** X3: in a normalized text every white space code unit is a single space
    between two other code units, and normalizing it again changes
    nothing. *)
Theorem normalize_collapses (text : jsstring) :
  single_spaced false (normalize text) = true /\
  trim (normalize text) = normalize text /\
  normalize (normalize text) = normalize text.
Proof.
  assert (H : single_spaced false (normalize text) = true).
  { unfold normalize. apply (single_spaced_trim _ false).
    apply replace_ws_single_spaced. }
  split; [exact H|]. split; [apply normalize_trimmed|].
  unfold normalize at 1. rewrite (replace_ws_fixed _ false H).
  apply normalize_trimmed.
Qed.

(** *** What the chunks keep of the text *)

(** Where single spaces are the only white space, a white space code unit
    is not followed by another one. *)
Lemma no_two_spaces (u : jsstring) :
  forall b s x y v, single_spaced b s = true -> s = u ++ x :: y :: v ->
    is_space x = true -> is_space y = false.
Proof.
  induction u as [|d u IH]; intros b s x y v H -> Hx.
  - simpl in H. rewrite Hx in H.
    apply andb_true_iff in H as [_ H].
    destruct (is_space y); [|reflexivity].
    apply andb_true_iff in H as [H _].
    apply andb_true_iff in H as [_ H]. discriminate H.
  - simpl in H. destruct (is_space d).
    + apply andb_true_iff in H as [_ H]. apply (IH true _ x y v H eq_refl Hx).
    + apply (IH false _ x y v H eq_refl Hx).
Qed.

Lemma single_spaced_suffix (u v : jsstring) :
  forall b, single_spaced b (u ++ v) = true -> single_spaced false v = true.
Proof.
  induction u as [|c u IH]; intros b H.
  - destruct b; [apply single_spaced_weaken|]; exact H.
  - simpl in H. destruct (is_space c).
    + apply andb_true_iff in H as [_ H]. apply (IH true H).
    + apply (IH false H).
Qed.

(** Trimming such a string takes at most one code unit from each end. *)
Lemma trimStart_short (s : jsstring) (b : bool) :
  single_spaced b s = true -> (length s <= S (length (trimStart s)))%nat.
Proof.
  intros H. destruct s as [|x [|y v]]; [simpl; lia | |].
  - simpl. destruct (is_space x); simpl; lia.
  - pose proof (no_two_spaces [] b _ x y v H eq_refl) as Hy.
    cbn [trimStart]. destruct (is_space x).
    + rewrite (Hy eq_refl). simpl. lia.
    + simpl. lia.
Qed.

Lemma trimEnd_short (s : jsstring) (b : bool) :
  single_spaced b s = true -> (length s <= S (length (trimEnd s)))%nat.
Proof.
  intros H. unfold trimEnd. rewrite length_rev.
  rewrite <- (length_rev s).
  destruct (rev s) as [|x [|y v]] eqn:E; [simpl; lia | |].
  - simpl. destruct (is_space x); simpl; lia.
  - assert (Hs : s = rev v ++ y :: x :: []).
    { rewrite <- (rev_involutive s), E. simpl. rewrite <- !app_assoc. reflexivity. }
    cbn [trimStart]. destruct (is_space x) eqn:Hx; [|simpl; lia].
    destruct (is_space y) eqn:Hy.
    + pose proof (no_two_spaces (rev v) b s y x [] H Hs Hy). congruence.
    + simpl. lia.
Qed.

Lemma trim_short (s : jsstring) (b : bool) :
  single_spaced b s = true -> len s <= len (trim s) + 2.
Proof.
  intros H. unfold trim, len.
  pose proof (trimStart_short s b H).
  pose proof (trimEnd_short (trimStart s) false (single_spaced_trimStart s b H)).
  lia.
Qed.

(** A slice from an offset inside the string, with what is before it. *)
Lemma slice_at (s : jsstring) (o w : Z) :
  0 <= o <= len s -> 0 <= w ->
  exists post,
    s = firstn (Z.to_nat o) s ++ slice s o (o + w) ++ post /\
    len (slice s o (o + w)) = Z.min (o + w) (len s) - o.
Proof.
  intros Ho Hw. unfold slice. rewrite !rel_index_nonneg by lia.
  rewrite (Z.min_l o) by lia.
  set (n := Z.to_nat (Z.min (o + w) (len s) - o)).
  exists (skipn n (skipn (Z.to_nat o) s)). split.
  - rewrite (firstn_skipn n (skipn (Z.to_nat o) s)).
    symmetry. apply firstn_skipn.
  - unfold len at 1. rewrite length_firstn, length_skipn.
    unfold n, len in *. lia.
Qed.

(** The window at offset [o] holds the code unit at [p], when it is not
    white space and [p] lies in the slice; and trimming has taken at most
    two code units from the slice. *)
Lemma window_holds (clean : jsstring) (chunkSize o : Z) (p : nat) (c : char) :
  single_spaced false clean = true ->
  0 <= o <= Z.of_nat p -> Z.of_nat p < o + chunkSize ->
  nth_error clean p = Some c -> is_space c = false ->
  exists pre post,
    clean = pre ++ window clean chunkSize o ++ post /\
    (length pre <= p < length pre + length (window clean chunkSize o))%nat /\
    Z.min (o + chunkSize) (len clean) - o <= len (window clean chunkSize o) + 2.
Proof.
  intros Hss Ho Hp Hc Hsp.
  assert (Hplen : (p < length clean)%nat)
    by (apply nth_error_Some; rewrite Hc; discriminate).
  assert (Hon : 0 <= o <= len clean) by (unfold len; lia).
  destruct (slice_at clean o chunkSize Hon ltac:(lia)) as (post & Hsplit & Hlen).
  set (s := slice clean o (o + chunkSize)) in *.
  assert (Hfirst : length (firstn (Z.to_nat o) clean) = Z.to_nat o)
    by (rewrite length_firstn; unfold len in Hon; lia).
  assert (Hnth : nth_error s (p - Z.to_nat o) = Some c).
  { rewrite Hsplit in Hc.
    rewrite nth_error_app2 in Hc by lia. rewrite Hfirst in Hc.
    rewrite nth_error_app1 in Hc; [exact Hc|].
    unfold len in Hlen. lia. }
  apply nth_error_split in Hnth as (a & b & Hs & Ha).
  assert (Hsss : single_spaced false s = true).
  { rewrite Hsplit in Hss. apply single_spaced_suffix in Hss.
    apply (single_spaced_prefix _ post false Hss). }
  pose proof (trim_short s false Hsss) as Hshort.
  assert (Htrim : trim s = trimStart a ++ c :: trimEnd b).
  { unfold trim. rewrite Hs, (trimStart_app_stop a b c Hsp).
    apply (trimEnd_app_stop (trimStart a) b c Hsp). }
  destruct (PagesFacts.trimStart_suffix a) as [a0 Ha0].
  destruct (PagesFacts.trimEnd_prefix b) as [b1 Hb1].
  exists (firstn (Z.to_nat o) clean ++ a0), (b1 ++ post).
  unfold window. fold s. split; [|split].
  - rewrite Htrim. transitivity (firstn (Z.to_nat o) clean ++ s ++ post);
      [exact Hsplit|].
    rewrite Hs. clear Htrim Hs Ha Hshort Hsss.
    revert Ha0 Hb1. generalize (trimStart a) (trimEnd b).
    intros ta tb -> ->. repeat (rewrite <- app_assoc; cbn [app]). reflexivity.
  - rewrite Htrim, !length_app, Hfirst. cbn [length].
    assert (length a = (length a0 + length (trimStart a))%nat)
      by (rewrite Ha0 at 1; apply length_app).
    lia.
  - rewrite <- Hlen. exact Hshort.
Qed.

Lemma normalize_single_spaced (text : jsstring) :
  single_spaced false (normalize text) = true.
Proof.
  unfold normalize. apply (single_spaced_trim _ false).
  apply replace_ws_single_spaced.
Qed.

Lemma offsets_In (step : Z) (n : nat) (k : Z) :
  0 <= k -> (Z.to_nat k < n)%nat -> In (k * step) (offsets step n).
Proof.
  intros Hk Hn. unfold offsets. apply in_map_iff. exists (Z.to_nat k).
  split; [rewrite Z2Nat.id by exact Hk; reflexivity|].
  apply in_seq. lia.
Qed.

(** X4: with an overlap of at least 62 code units (the default is 150),
    [chunkText] loses no text: when the normalized text has more than 60
    code units, every code unit of it that is not white space lies in a
    returned chunk, the chunk being a stretch of the normalized text that
    contains its position. *)
Theorem chunkText_keeps_text (text : jsstring) (chunkSize overlap : Z)
    (fuel p : nat) (c : char) :
  62 <= overlap < chunkSize ->
  60 < len (normalize text) ->
  (iterations (len (normalize text)) (chunkSize - overlap) < fuel)%nat ->
  nth_error (normalize text) p = Some c ->
  is_space c = false ->
  exists chunks chunk pre post,
    chunkText fuel text chunkSize overlap = Some chunks /\
    In chunk chunks /\
    normalize text = pre ++ chunk ++ post /\
    (length pre <= p < length pre + length chunk)%nat.
Proof.
  intros Hov Hlong Hfuel Hc Hsp.
  rewrite (chunkText_windows text chunkSize overlap fuel ltac:(lia) Hfuel).
  pose proof (normalize_single_spaced text) as Hss.
  pose proof (normalize_trimmed text) as Htr.
  set (clean := normalize text) in *.
  set (step := chunkSize - overlap) in *.
  assert (Hstep : 0 < step) by (unfold step; lia).
  pose proof (len_nonneg clean) as Hnn.
  destruct (iterations_spec (len clean) step Hnn Hstep) as [Hge Hbelow].
  assert (Hplen : Z.of_nat p < len clean).
  { assert (p < length clean)%nat
      by (apply nth_error_Some; rewrite Hc; discriminate).
    unfold len. lia. }
  assert (Hin : forall k, 0 <= k -> k * step < len clean ->
                  In (k * step) (offsets step (iterations (len clean) step))).
  { intros k Hk Hlt. apply offsets_In; [exact Hk|].
    apply Nat.lt_nge. intros Hle.
    assert (Z.of_nat (iterations (len clean) step) <= k) by lia. nia. }
  eexists.
  destruct (Z.le_gt_cases (len clean) chunkSize) as [Hsmall|Hbig].
  - exists clean, [], []. split; [reflexivity|].
    assert (Hw : window clean chunkSize 0 = clean).
    { unfold window. rewrite Z.add_0_l, slice_all by exact Hsmall. exact Htr. }
    split; [|split].
    + apply filter_In. split.
      * rewrite <- Hw at 1. apply in_map. apply (Hin 0); lia.
      * unfold long_enough. apply Z.ltb_lt. exact Hlong.
    + rewrite app_nil_r. reflexivity.
    + simpl. unfold len in Hplen. lia.
  - set (k := if Z.of_nat p <? chunkSize then 0
              else (Z.of_nat p - chunkSize) / step + 1).
    assert (Hk : 0 <= k /\ k * step <= Z.of_nat p /\ Z.of_nat p < k * step + chunkSize /\
                 (k = 0 \/ k * step <= Z.of_nat p - overlap)).
    { unfold k. destruct (Z.ltb_spec (Z.of_nat p) chunkSize) as [Hlt|Hge'].
      - lia.
      - pose proof (Z.div_mod (Z.of_nat p - chunkSize) step ltac:(lia)) as Hdm.
        pose proof (Z.mod_pos_bound (Z.of_nat p - chunkSize) step Hstep) as Hm.
        assert (0 <= (Z.of_nat p - chunkSize) / step) by (apply Z.div_pos; lia).
        unfold step in *. nia. }
    destruct Hk as (Hk0 & Hk1 & Hk2 & Hk3).
    destruct (window_holds clean chunkSize (k * step) p c Hss ltac:(lia) Hk2 Hc Hsp)
      as (pre & post & Hsplit & Hpos & Hkeep).
    exists (window clean chunkSize (k * step)), pre, post.
    split; [reflexivity|]. split; [|split; [exact Hsplit | exact Hpos]].
    apply filter_In. split.
    + apply in_map. apply Hin; lia.
    + unfold long_enough. apply Z.ltb_lt. lia.
Qed.

Lemma chunkText_keeps_text_witness :
  exists chunks chunk pre post,
    chunkText 3 spaced_text 900 150 = Some chunks /\
    In chunk chunks /\
    normalize spaced_text = pre ++ chunk ++ post /\
    (length pre <= 1000 < length pre + length chunk)%nat.
Proof.
  apply (chunkText_keeps_text spaced_text 900 150 3 1000 109%N);
    [lia | vm_compute; reflexivity | vm_compute; lia
     | vm_compute; reflexivity | reflexivity].
Defined.

(** Without overlap the end of a text can be lost: of 150 letters cut in
    windows of 100, the last 50 are in no chunk. *)
Example chunkText_tail_lost :
  chunkText 3 (repeat 97%N 150) 100 0 = Some [repeat 97%N 100].
Proof. vm_compute. reflexivity. Qed.

Close Scope Z_scope.

End ChunkerMore.

(* ===================================================================== *)
(** ** The retry policy: budget of calls, bounds of the waits             *)
(* ===================================================================== *)

Module RetryMore.

Import Retry RetryFacts.

Section Budget.

Context {T : Type}.
Variables (fn : nat -> Attempt T) (jitter : nat -> Z).

(** What holds of the loop from attempt [i] on, whatever [fn] does. *)
Lemma retry_loop_budget (remaining : nat) :
  forall (i : nat) (lastErr : option Failure),
    let r := retry_loop fn jitter remaining i lastErr in
    calls (fst r) <= remaining /\
    length (sleeps (fst r)) <= calls (fst r) /\
    (1 <= remaining -> 1 <= calls (fst r)) /\
    (forall v, snd r = Returned v ->
       1 <= calls (fst r) /\ fn (i + calls (fst r) - 1) = Fulfilled v) /\
    (forall thrown, snd r = Thrown thrown ->
       (thrown = lastErr /\ fst r = []) \/
       (exists e, thrown = Some e /\ 1 <= calls (fst r) /\
                  fn (i + calls (fst r) - 1) = Rejected e)).
Proof.
  induction remaining as [|remaining IH]; intros i lastErr; cbn zeta.
  - simpl. split; [lia|]. split; [lia|]. split; [lia|]. split.
    + intros v H. discriminate H.
    + intros thrown H. injection H as <-. left. auto.
  - simpl retry_loop. destruct (fn i) as [v|e] eqn:Efn.
    + simpl. split; [lia|]. split; [lia|]. split; [lia|]. split.
      * intros v' H. injection H as <-. split; [lia|].
        replace (i + 1 - 1) with i by lia. exact Efn.
      * intros thrown H. discriminate H.
    + destruct (isRateLimit e).
      * specialize (IH (S i) (Some e)). cbn zeta in IH.
        destruct IH as (Hc & Hs & _ & Hv & Hn).
        unfold emit. cbn [fst snd app calls sleeps length].
        split; [lia|]. split; [lia|]. split; [lia|]. split.
        -- intros v H. destruct (Hv v H) as [H1 H2]. split; [lia|].
           replace (i + S (calls (fst (retry_loop fn jitter remaining (S i) (Some e)))) - 1)
             with (S i + calls (fst (retry_loop fn jitter remaining (S i) (Some e))) - 1)
             by lia.
           exact H2.
        -- intros thrown H. right.
           destruct (Hn thrown H) as [[-> Hnil]|(e' & -> & H1 & H2)].
           ++ exists e. split; [reflexivity|]. rewrite Hnil. simpl.
              split; [lia|]. replace (i + 1 - 1) with i by lia. exact Efn.
           ++ exists e'. split; [reflexivity|]. split; [lia|].
              replace (i + S (calls (fst (retry_loop fn jitter remaining (S i) (Some e)))) - 1)
                with (S i + calls (fst (retry_loop fn jitter remaining (S i) (Some e))) - 1)
                by lia.
              exact H2.
      * simpl. split; [lia|]. split; [lia|]. split; [lia|]. split.
        -- intros v H. discriminate H.
        -- intros thrown H. injection H as <-. right. exists e.
           split; [reflexivity|]. split; [lia|].
           replace (i + 1 - 1) with i by lia. exact Efn.
Qed.

End Budget.

(** X5: whatever the operation does, [withRetry] calls it at most [tries]
    times and sleeps at most once per call.  With [tries = 0] it throws
    the initial [lastErr] without a call.  With [tries >= 1] it calls the
    operation at least once; a value that it returns is the value of the
    last call, and what it throws is what the last call rejected with. *)
Theorem withRetry_budget {T : Type} (fn : nat -> Attempt T) (jitter : nat -> Z)
    (tries : nat) :
  calls (fst (withRetry fn jitter tries)) <= tries /\
  length (sleeps (fst (withRetry fn jitter tries))) <=
    calls (fst (withRetry fn jitter tries)) /\
  (tries = 0 -> withRetry fn jitter tries = ([], Thrown None)) /\
  (1 <= tries ->
   1 <= calls (fst (withRetry fn jitter tries)) /\
   ((exists v, snd (withRetry fn jitter tries) = Returned v) \/
    (exists e, snd (withRetry fn jitter tries) = Thrown (Some e)))) /\
  (forall v, snd (withRetry fn jitter tries) = Returned v ->
     1 <= calls (fst (withRetry fn jitter tries)) /\
     fn (calls (fst (withRetry fn jitter tries)) - 1) = Fulfilled v) /\
  (forall e, snd (withRetry fn jitter tries) = Thrown (Some e) ->
     1 <= calls (fst (withRetry fn jitter tries)) /\
     fn (calls (fst (withRetry fn jitter tries)) - 1) = Rejected e).
Proof.
  unfold withRetry.
  destruct (retry_loop_budget fn jitter tries 0 None) as (Hc & Hs & H1 & Hv & Hn).
  split; [exact Hc|]. split; [exact Hs|].
  split; [intros ->; reflexivity|].
  split.
  - intros Ht. split; [exact (H1 Ht)|].
    destruct (snd (retry_loop fn jitter tries 0 None)) as [v|thrown] eqn:E.
    + left. exists v. reflexivity.
    + right. destruct (Hn thrown eq_refl) as [[_ Hnil]|(e & -> & _)].
      * specialize (H1 Ht). rewrite Hnil in H1. simpl in H1. lia.
      * exists e. reflexivity.
  - split; [exact Hv|].
    intros e H. destruct (Hn (Some e) H) as [[Hd _]|(e' & He & Hcalls & Hfn)].
    + discriminate Hd.
    + injection He as ->. split; [exact Hcalls | exact Hfn].
Qed.

Lemma withRetry_budget_witness :
  (1 <= calls (fst (withRetry flaky fixed_jitter 8)) /\
   flaky (calls (fst (withRetry flaky fixed_jitter 8)) - 1) = Fulfilled 7) /\
  withRetry flaky fixed_jitter 0 = ([], Thrown None) /\
  1 <= calls (fst (withRetry broken fixed_jitter 8)).
Proof.
  split; [|split].
  - destruct (withRetry_budget flaky fixed_jitter 8) as (_ & _ & _ & _ & H & _).
    apply (H 7). reflexivity.
  - destruct (withRetry_budget flaky fixed_jitter 0) as (_ & _ & H & _).
    apply H. reflexivity.
  - destruct (withRetry_budget broken fixed_jitter 8) as (_ & _ & _ & H & _).
    apply H. lia.
Defined.

Open Scope Z_scope.

Lemma pow2_ge_1 (i : nat) : 1 <= 2 ^ Z.of_nat i.
Proof.
  change 1 with (2 ^ 0) at 1. apply Z.pow_le_mono_r; lia.
Qed.

Lemma pow2_ge_64 (i : nat) : (6 <= i)%nat -> 64 <= 2 ^ Z.of_nat i.
Proof.
  intros H. change 64 with (2 ^ 6). apply Z.pow_le_mono_r; lia.
Qed.

(** X6: with a jitter in [0, 500), a wait is never shorter than one second,
    than the computed backoff, or than a positive retry-after that the
    failure carries; without a positive retry-after it stays below 60.5
    seconds; and from attempt 6 on the backoff is the cap of 60 seconds
    plus the jitter. *)
Theorem wait_ms_bounds (i : nat) (jitter : Z) (e : Failure) :
  0 <= jitter < 500 ->
  1000 <= wait_ms i jitter e /\
  backoff i jitter <= wait_ms i jitter e /\
  (forall s, retryAfter e = Seconds s -> 0 < s -> s * 1000 <= wait_ms i jitter e) /\
  ((forall s, retryAfter e = Seconds s -> s <= 0) -> wait_ms i jitter e < 60500) /\
  ((6 <= i)%nat -> backoff i jitter = 60000 + jitter).
Proof.
  intros Hj. pose proof (pow2_ge_1 i) as Hp.
  assert (Hb : 1000 <= backoff i jitter < 60500) by (unfold backoff; lia).
  assert (Hw : backoff i jitter <= wait_ms i jitter e).
  { unfold wait_ms. destruct (retryAfter e) as [| |s]; try lia.
    destruct (0 <? s); lia. }
  split; [lia|]. split; [exact Hw|]. split; [|split].
  - intros s Hs Hpos. unfold wait_ms. rewrite Hs.
    destruct (Z.ltb_spec 0 s); lia.
  - intros Hnone. unfold wait_ms.
    destruct (retryAfter e) as [| |s] eqn:E; try lia.
    specialize (Hnone s eq_refl). destruct (Z.ltb_spec 0 s); lia.
  - intros Hi. pose proof (pow2_ge_64 i Hi). unfold backoff. lia.
Qed.

Lemma wait_ms_bounds_witness :
  1000 <= wait_ms 3 100 told_to_wait /\ 120 * 1000 <= wait_ms 3 100 told_to_wait.
Proof.
  destruct (wait_ms_bounds 3 100 told_to_wait ltac:(lia)) as (H1 & _ & H3 & _).
  split; [exact H1|]. apply (H3 120); [reflexivity | lia].
Defined.

(** The sum of the waits of a trace. *)
Lemma sleeps_retries_8 (errs : nat -> Failure) (jitter : nat -> Z) :
  sleeps (retries errs jitter 0 8) =
  map (fun k => wait_ms k (jitter k) (errs k)) (seq 0 8).
Proof. reflexivity. Qed.

(** X7: when the eight attempts of the default all fail with a rate limit
    and no positive retry-after, [withRetry] has slept eight times, also
    after the last attempt, for 183 seconds plus the eight jitters in
    all, before it throws the last failure. *)
Theorem withRetry_default_total_wait {T : Type} (fn : nat -> Attempt T)
    (jitter : nat -> Z) (errs : nat -> Failure) :
  (forall j, 0 <= jitter j < 500) ->
  (forall j, (j < 8)%nat ->
     fn j = Rejected (errs j) /\ isRateLimit (errs j) = true /\
     forall s, retryAfter (errs j) = Seconds s -> s <= 0) ->
  let trace := fst (withRetry fn jitter default_tries) in
  length (sleeps trace) = 8%nat /\
  calls trace = 8%nat /\
  fold_right Z.add 0 (sleeps trace) =
    183000 + fold_right Z.add 0 (map jitter (seq 0 8)) /\
  183000 <= fold_right Z.add 0 (sleeps trace) < 187000 /\
  (exists before, trace = before ++ [Sleep (60000 + jitter 7%nat)]) /\
  snd (withRetry fn jitter default_tries) = Thrown (Some (errs 7%nat)).
Proof.
  intros Hj Hfail trace.
  assert (Hrun : withRetry fn jitter default_tries =
                 (retries errs jitter 0 8, Thrown (Some (errs 7%nat)))).
  { unfold withRetry, default_tries.
    pose proof (retry_loop_prefix fn jitter errs 8 0 0 None) as H.
    rewrite Nat.add_0_r in H. rewrite H.
    - unfold emit. simpl retry_loop. cbn [fst snd]. rewrite app_nil_r. reflexivity.
    - intros j Hr. destruct (Hfail j ltac:(lia)) as (H1 & H2 & _). auto. }
  assert (Hwait : forall k, (k < 8)%nat ->
            wait_ms k (jitter k) (errs k) = backoff k (jitter k)).
  { intros k Hk. destruct (Hfail k Hk) as (_ & _ & Hnone).
    unfold wait_ms. destruct (retryAfter (errs k)) as [| |s] eqn:E; try reflexivity.
    specialize (Hnone s eq_refl). destruct (Z.ltb_spec 0 s); [lia | reflexivity]. }
  subst trace. rewrite Hrun. cbn [fst snd].
  assert (Hsum : fold_right Z.add 0 (sleeps (retries errs jitter 0 8)) =
                 183000 + fold_right Z.add 0 (map jitter (seq 0 8))).
  { rewrite sleeps_retries_8. cbn [seq map fold_right].
    rewrite !Hwait by lia. unfold backoff. cbn [Z.of_nat Pos.of_succ_nat Pos.succ].
    change (2 ^ 0) with 1. change (2 ^ 1) with 2. change (2 ^ 2) with 4.
    change (2 ^ 3) with 8. change (2 ^ 4) with 16. change (2 ^ 5) with 32.
    change (2 ^ 6) with 64. change (2 ^ 7) with 128. lia. }
  split; [apply sleeps_retries_length|]. split; [apply calls_retries|].
  split; [exact Hsum|]. split.
  - rewrite Hsum. cbn [seq map fold_right].
    pose proof (Hj 0%nat). pose proof (Hj 1%nat). pose proof (Hj 2%nat).
    pose proof (Hj 3%nat). pose proof (Hj 4%nat). pose proof (Hj 5%nat).
    pose proof (Hj 6%nat). pose proof (Hj 7%nat). lia.
  - split; [|reflexivity].
    exists (retries errs jitter 0 7 ++ [Call 7]).
    change (retries errs jitter 0 8)
      with (retries errs jitter 0 7 ++ [Call 7; Sleep (wait_ms 7 (jitter 7%nat) (errs 7%nat))]).
    rewrite (Hwait 7%nat) by lia. rewrite <- app_assoc. reflexivity.
Qed.

Lemma withRetry_default_total_wait_witness :
  fold_right Z.add 0 (sleeps (fst (withRetry (fun _ => @Rejected nat rate_limited)
                                             fixed_jitter default_tries))) =
  183800.
Proof.
  destruct (withRetry_default_total_wait (fun _ => @Rejected nat rate_limited)
              fixed_jitter (fun _ => rate_limited)) as (_ & _ & H & _).
  - intros j. unfold fixed_jitter. lia.
  - intros j Hj. split; [reflexivity|]. split; [reflexivity|].
    intros s Hs. discriminate Hs.
  - exact H.
Defined.

Close Scope Z_scope.

End RetryMore.

(* ===================================================================== *)
(** ** The pacer: spacing of the calls                                    *)
(* ===================================================================== *)

Module PacerFacts.

Import Pacer.

Open Scope Z_scope.

Lemma paceEmbeds_gap (d last : Z) (r : Reading) :
  on_time d last r -> last + d <= snd (paceEmbeds d last r).
Proof.
  unfold on_time, paceEmbeds, pause. simpl.
  destruct (Z.ltb_spec (now r - last) d); lia.
Qed.

(** X8: when no timer fires early and the clock does not go back during a
    call, successive calls of [paceEmbeds] store times that are at least
    [EMBED_MIN_DELAY_MS] apart; a call sleeps only when less than that has
    elapsed, and then for what is missing. *)
Theorem paceEmbeds_spacing (EMBED_MIN_DELAY_MS lastEmbedCallAt : Z)
    (rs : list Reading) :
  all_on_time EMBED_MIN_DELAY_MS lastEmbedCallAt rs ->
  spaced EMBED_MIN_DELAY_MS lastEmbedCallAt
         (pace_all EMBED_MIN_DELAY_MS lastEmbedCallAt rs) /\
  (forall r ms,
     fst (paceEmbeds EMBED_MIN_DELAY_MS lastEmbedCallAt r) = Some ms ->
     0 < ms /\ now r + ms = lastEmbedCallAt + EMBED_MIN_DELAY_MS) /\
  (forall r,
     fst (paceEmbeds EMBED_MIN_DELAY_MS lastEmbedCallAt r) = None <->
     lastEmbedCallAt + EMBED_MIN_DELAY_MS <= now r).
Proof.
  intros H. split; [|split].
  - revert lastEmbedCallAt H.
    induction rs as [|r rs IH]; intros last H; simpl; [exact I|].
    destruct H as [Hr Hrs]. split.
    + apply (paceEmbeds_gap _ _ _ Hr).
    + apply IH. exact Hrs.
  - intros r ms. unfold paceEmbeds, pause. simpl.
    destruct (Z.ltb_spec (now r - lastEmbedCallAt) EMBED_MIN_DELAY_MS);
      [|discriminate].
    intros E. injection E as <-. lia.
  - intros r. unfold paceEmbeds, pause. simpl.
    destruct (Z.ltb_spec (now r - lastEmbedCallAt) EMBED_MIN_DELAY_MS).
    + split; [discriminate | lia].
    + split; [lia | reflexivity].
Qed.

Lemma paceEmbeds_spacing_witness :
  spaced 150 0 [1000; 1152; 1401].
Proof.
  destruct (paceEmbeds_spacing 150 0 sample_readings) as [H _].
  - simpl. unfold on_time. simpl. lia.
  - exact H.
Defined.

Close Scope Z_scope.

End PacerFacts.

(* ===================================================================== *)
(** ** The limiter: idle slots, sequential use, single delivery           *)
(* ===================================================================== *)

Module LimiterMore.

Import Limiter LimiterFacts LimiterUse.

Open Scope Z_scope.

(** When [max <= 0] no task is ever started. *)
Lemma nothing_starts (max : Z) (evs : list Event) :
  max <= 0 ->
  forall st st', started st = [] -> running st = [] -> 0 <= active st ->
    run max st evs = Some st' ->
    started st' = [] /\ queue st' = queue st ++ seq (submitted st) (length evs).
Proof.
  intros Hmax. induction evs as [|ev evs IH]; intros st st' Hs Hr Ha; simpl.
  - intros H. injection H as <-. rewrite app_nil_r. auto.
  - destruct ev as [|t o]; simpl.
    + intros H.
      assert (E : limit max st =
                  mkState (active st) (queue st ++ [submitted st]) (running st)
                          (started st) (delivered st) (S (submitted st))).
      { unfold limit, next. cbn [active].
        destruct (Z.leb_spec max (active st)); [reflexivity | lia]. }
      rewrite E in H. apply IH in H; cbn [started running active] in *; auto.
      destruct H as [H1 H2]. split; [exact H1|].
      rewrite H2. cbn [queue submitted]. rewrite <- app_assoc. reflexivity.
    + unfold settle. rewrite Hr. simpl. discriminate.
Qed.

(** X9: a limiter with [max >= 0] leaves no slot idle while a task waits:
    in every state that it reaches, a queue that is not empty means that
    exactly [max] tasks are running.  A limiter with [max <= 0] never
    starts a task: every submitted task stays in the queue. *)
Theorem limiter_no_idle_slot (max : Z) (evs : list Event) (st : State) :
  run max createLimiter evs = Some st ->
  (0 <= max -> queue st <> [] -> Z.of_nat (length (running st)) = max) /\
  (max <= 0 -> started st = [] /\ queue st = seq 0 (length evs)).
Proof.
  intros Hrun. split.
  - intros Hmax Hq.
    assert (Hinv : Invariant max st).
    { apply (run_invariant max evs createLimiter st Hmax); [|exact Hrun].
      apply createLimiter_invariant. exact Hmax. }
    rewrite <- (inv_active max st Hinv). apply (inv_busy max st Hinv Hq).
  - intros Hmax.
    apply (nothing_starts max evs Hmax createLimiter st);
      [reflexivity | reflexivity | simpl; lia | exact Hrun].
Qed.

Lemma limiter_no_idle_slot_witness :
  Z.of_nat (length (running (mkState 2 [2%nat] [0; 1]%nat [0; 1]%nat [] 3))) = 2.
Proof.
  destruct (limiter_no_idle_slot 2 [Submit; Submit; Submit]
              (mkState 2 [2%nat] [0; 1]%nat [0; 1]%nat [] 3) eq_refl) as [H _].
  apply H; [lia | discriminate].
Defined.

Lemma remove_only (t : nat) : remove Nat.eq_dec t [t] = [].
Proof. simpl. destruct (Nat.eq_dec t t); [reflexivity | congruence]. Qed.

(** One task that is submitted to an idle limiter and settles. *)
Lemma idle_round (max : Z) (k : nat) (d : list (nat * Settlement)) (o : Settlement) :
  1 <= max ->
  limit max (mkState 0 [] [] (seq 0 k) d k) =
    mkState 1 [] [k] (seq 0 (S k)) d (S k) /\
  settle max (mkState 1 [] [k] (seq 0 (S k)) d (S k)) k o =
    Some (mkState 0 [] [] (seq 0 (S k)) (d ++ [(k, o)]) (S k)).
Proof.
  intros Hmax. split.
  - unfold limit, next. cbn [active queue running started delivered submitted app].
    destruct (Z.leb_spec max 0); [lia|].
    rewrite seq_S. reflexivity.
  - unfold settle. cbn [running].
    destruct (in_dec Nat.eq_dec k [k]) as [_|Hn]; [|exfalso; apply Hn; left; reflexivity].
    rewrite remove_only. unfold next. cbn [active queue].
    destruct (Z.leb_spec max (1 - 1)); [lia|]. reflexivity.
Qed.

Lemma one_at_a_time_states (max : Z) (outcomes : list Settlement) :
  1 <= max ->
  forall (k : nat) (d : list (nat * Settlement)),
    run max (mkState 0 [] [] (seq 0 k) d k) (one_at_a_time k outcomes) =
      Some (mkState 0 [] [] (seq 0 (k + length outcomes))
              (d ++ combine (seq k (length outcomes)) outcomes)
              (k + length outcomes)) /\
    (forall evs tail, evs ++ tail = one_at_a_time k outcomes ->
       exists st, run max (mkState 0 [] [] (seq 0 k) d k) evs = Some st /\
                  at_most_one st).
Proof.
  intros Hmax. induction outcomes as [|o outcomes IH]; intros k d.
  - simpl. rewrite Nat.add_0_r, app_nil_r. split; [reflexivity|].
    intros evs tail H. apply app_eq_nil in H as [-> _].
    eexists. split; [reflexivity|]. split; [reflexivity | simpl; lia].
  - destruct (idle_round max k d o Hmax) as [Hl Hs].
    destruct (IH (S k) (d ++ [(k, o)])) as [IH1 IH2].
    cbn [one_at_a_time run step]. rewrite Hl, Hs. split.
    + rewrite IH1. cbn [length seq combine].
      rewrite <- app_assoc. cbn [app].
      replace (S k + length outcomes)%nat with (k + S (length outcomes))%nat by lia.
      reflexivity.
    + intros evs tail H.
      destruct evs as [|e1 evs].
      { eexists. split; [reflexivity|]. split; [reflexivity | simpl; lia]. }
      cbn [app] in H. injection H as -> H.
      cbn [run step]. rewrite Hl.
      destruct evs as [|e2 evs].
      { eexists. split; [reflexivity|]. split; [reflexivity | simpl; lia]. }
      cbn [app] in H. injection H as -> H.
      cbn [run step]. rewrite Hs. apply (IH2 evs tail H).
Qed.

(** X10: when the calls of [limit] are awaited one after the other, as the
    driver awaits [embed], a limiter with [max >= 1] starts every task at
    its submission: the queue is empty and at most one task is running
    in every state on the way, and at the end the limiter is idle, with
    all the tasks started and their settlements delivered in order. *)
Theorem limiter_sequential_use (max : Z) (outcomes : list Settlement) :
  1 <= max ->
  run max createLimiter (one_at_a_time 0 outcomes) =
    Some (mkState 0 [] [] (seq 0 (length outcomes))
            (combine (seq 0 (length outcomes)) outcomes)
            (length outcomes)) /\
  (forall evs tail, evs ++ tail = one_at_a_time 0 outcomes ->
     exists st, run max createLimiter evs = Some st /\
                queue st = [] /\ (length (running st) <= 1)%nat).
Proof.
  intros Hmax.
  destruct (one_at_a_time_states max outcomes Hmax 0 []) as [H1 H2].
  split; [exact H1 | exact H2].
Qed.

Lemma limiter_sequential_use_witness :
  run 2 createLimiter (one_at_a_time 0 [Resolved 7; Failed 3]) =
  Some (mkState 0 [] [] [0; 1]%nat [(0%nat, Resolved 7); (1%nat, Failed 3)] 2).
Proof.
  destruct (limiter_sequential_use 2 [Resolved 7; Failed 3] ltac:(lia)) as [H _].
  exact H.
Defined.

(** *** A settlement is delivered once *)

Lemma nodup_app_disjoint {A : Type} (l1 l2 : list A) (a : A) :
  NoDup (l1 ++ l2) -> In a l1 -> ~ In a l2.
Proof.
  induction l1 as [|x l1 IH]; intros Hnd Hin; [destruct Hin|].
  simpl in Hnd. inversion Hnd as [|y l Hx Hnd']; subst.
  destruct Hin as [->|Hin].
  - intros H2. apply Hx. apply in_or_app. right. exact H2.
  - apply IH; assumption.
Qed.

Lemma next_settled (max : Z) (st : State) :
  started st ++ queue st = seq 0 (submitted st) ->
  incl (running st) (started st) ->
  Settled st -> Settled (next max st).
Proof.
  intros Hf Hincl [Hnd Hd]. unfold next.
  destruct (max <=? active st); [split; assumption|].
  destruct (queue st) as [|job rest] eqn:Eq; [split; assumption|].
  assert (Hfresh : ~ In job (started st)).
  { pose proof (seq_NoDup (submitted st) 0) as Hseq. rewrite <- Hf in Hseq.
    apply NoDup_remove_2 in Hseq. intros Hin. apply Hseq.
    apply in_or_app. left. exact Hin. }
  split; cbn [delivered running started].
  - rewrite app_assoc. apply NoDup_app; [exact Hnd | repeat constructor; intros [] |].
    intros x Hx [<-|[]]. apply Hfresh.
    apply in_app_or in Hx as [Hx|Hx]; [apply Hd | apply Hincl]; exact Hx.
  - intros x Hx. apply in_or_app. left. apply Hd. exact Hx.
Qed.

Lemma settle_settled (max : Z) (st st' : State) (t : nat) (o : Settlement) :
  0 <= max -> Invariant max st -> Settled st ->
  settle max st t o = Some st' -> Settled st'.
Proof.
  intros Hmax Hinv [Hnd Hd]. unfold settle.
  destruct (in_dec Nat.eq_dec t (running st)) as [Hin|]; [|discriminate].
  intros H. injection H as <-.
  apply next_settled; cbn [started queue submitted running delivered].
  - apply (inv_fifo max st Hinv).
  - intros x Hx. apply in_remove in Hx as [Hx _].
    apply (inv_running max st Hinv). exact Hx.
  - split; cbn [delivered running started].
    + rewrite map_app. cbn [map fst]. rewrite <- app_assoc. cbn [app].
      apply NoDup_app_remove_l in Hnd as Hr.
      apply NoDup_app.
      * apply NoDup_app_remove_r in Hnd. exact Hnd.
      * constructor.
        -- intros Hx. apply in_remove in Hx as [_ Hx]. congruence.
        -- apply remove_nodup. exact Hr.
      * intros x Hx [<-|Hx'].
        -- apply (nodup_app_disjoint _ _ _ Hnd Hx). exact Hin.
        -- apply in_remove in Hx' as [Hx' _].
           apply (nodup_app_disjoint _ _ _ Hnd Hx). exact Hx'.
    + rewrite map_app. intros x Hx. apply in_app_or in Hx as [Hx|[<-|[]]].
      * apply Hd. exact Hx.
      * apply (inv_running max st Hinv). exact Hin.
Qed.

Lemma limit_settled (max : Z) (st : State) :
  Invariant max st -> Settled st -> Settled (limit max st).
Proof.
  intros Hinv Hs. unfold limit.
  apply next_settled; cbn [started queue submitted running delivered].
  - rewrite app_assoc, (inv_fifo max st Hinv). symmetry. apply seq_S.
  - apply (inv_running max st Hinv).
  - exact Hs.
Qed.

Lemma run_settled (max : Z) (evs : list Event) :
  0 <= max ->
  forall st st', Invariant max st -> Settled st ->
    run max st evs = Some st' -> Settled st'.
Proof.
  intros Hmax. induction evs as [|ev evs IH]; intros st st' Hinv Hs; simpl.
  - intros H. injection H as <-. exact Hs.
  - destruct (step max st ev) as [st1|] eqn:E; [|discriminate].
    apply IH.
    + apply (step_invariant max st st1 ev Hmax Hinv E).
    + destruct ev as [|t o]; simpl in E.
      * injection E as <-. apply limit_settled; assumption.
      * apply (settle_settled max st st1 t o Hmax Hinv Hs E).
Qed.

(** X11: in every state that a limiter with [max >= 0] reaches, no task
    has had two settlements delivered, a task whose settlement has been
    delivered is no longer running and cannot settle again, and only
    tasks that were started have a settlement. *)
Theorem limiter_single_delivery (max : Z) (evs : list Event) (st : State) :
  0 <= max ->
  run max createLimiter evs = Some st ->
  NoDup (map fst (delivered st)) /\
  (forall t o, In (t, o) (delivered st) ->
     In t (started st) /\ ~ In t (running st) /\
     forall o', settle max st t o' = None).
Proof.
  intros Hmax Hrun.
  assert (Hs : Settled st).
  { apply (run_settled max evs Hmax createLimiter st); [| |exact Hrun].
    - apply createLimiter_invariant. exact Hmax.
    - split; simpl; [constructor | intros x []]. }
  destruct Hs as [Hnd Hd].
  split; [apply NoDup_app_remove_r in Hnd; exact Hnd|].
  intros t o Hin.
  assert (Ht : In t (map fst (delivered st))).
  { apply in_map_iff. exists (t, o). auto. }
  assert (Hnr : ~ In t (running st)).
  { apply (nodup_app_disjoint _ _ _ Hnd Ht). }
  split; [apply Hd; exact Ht|]. split; [exact Hnr|].
  intros o'. unfold settle.
  destruct (in_dec Nat.eq_dec t (running st)); [contradiction | reflexivity].
Qed.

Lemma limiter_single_delivery_witness :
  NoDup (map fst [(1%nat, Resolved 7); (0%nat, Failed 3)]).
Proof.
  destruct (limiter_single_delivery 2
              [Submit; Submit; Submit; Settle 1%nat (Resolved 7); Settle 0%nat (Failed 3)]
              (mkState 1 [] [2%nat] [0; 1; 2]%nat
                 [(1%nat, Resolved 7); (0%nat, Failed 3)] 3)
              ltac:(lia) eq_refl) as [H _].
  exact H.
Defined.

(** X23: whatever integer [EMBED_CONCURRENCY] is, also 0 or a negative
    one, the limiter of [embed] has a bound of at least 1: it runs at most
    [max(1, EMBED_CONCURRENCY)] tasks at a time, and a task at position [k]
    of its queue has been started once [k + 1] running tasks have settled,
    so that no call of [embed] waits for ever behind tasks that settle. *)
Theorem limitEmbed_never_starves (EMBED_CONCURRENCY : Z) (evs : list Event)
    (st : State) :
  run (limitEmbed_max EMBED_CONCURRENCY) createLimiter evs = Some st ->
  1 <= limitEmbed_max EMBED_CONCURRENCY /\
  Z.of_nat (length (running st)) <= limitEmbed_max EMBED_CONCURRENCY /\
  (forall k t evs' st',
     nth_error (queue st) k = Some t ->
     run (limitEmbed_max EMBED_CONCURRENCY) st evs' = Some st' ->
     (k < settlements evs')%nat ->
     In t (started st')).
Proof.
  intros Hrun.
  assert (Hmax : 1 <= limitEmbed_max EMBED_CONCURRENCY)
    by (unfold limitEmbed_max; lia).
  assert (Hinv : Invariant (limitEmbed_max EMBED_CONCURRENCY) st).
  { apply (run_invariant (limitEmbed_max EMBED_CONCURRENCY) evs createLimiter st);
      [lia | | exact Hrun].
    apply createLimiter_invariant. lia. }
  split; [exact Hmax|]. split; [apply Hinv|].
  intros k t evs' st' Hk Hrun' Hcount.
  apply (queued_task_starts (limitEmbed_max EMBED_CONCURRENCY) evs' st st' k t);
    assumption.
Qed.

Lemma limitEmbed_never_starves_witness :
  In 1%nat (started (mkState 1 [] [1%nat] [0; 1]%nat [(0%nat, Resolved 7)] 2)).
Proof.
  destruct (limitEmbed_never_starves 0 [Submit; Submit]
              (mkState 1 [1%nat] [0%nat] [0%nat] [] 2) eq_refl)
    as (_ & _ & H).
  apply (H 0%nat 1%nat [Settle 0%nat (Resolved 7)]);
    [reflexivity | reflexivity | simpl; lia].
Defined.

Close Scope Z_scope.

End LimiterMore.

(* ===================================================================== *)
(** ** Page markers: texts without markers, any page numbers, images      *)
(* ===================================================================== *)

Module PagesMore.

Import JSFacts Pages PagesFacts OcrImages.

Open Scope N_scope.

(** X12: a text in which the marker expression matches nowhere comes back
    as the single record of page 1, its content being the text as it is,
    with the white space at its ends. *)
Theorem splitByPages_without_marker (text : jsstring) :
  has_marker text = false ->
  splitByPages text = [mkPage 1 text].
Proof.
  intros H. unfold splitByPages.
  assert (E : split_marker [] text = [text]).
  { rewrite <- (app_nil_r text) at 1.
    rewrite split_marker_skip by (apply no_match_before_end; exact H).
    rewrite split_marker_equation_1, app_nil_r, rev_involutive. reflexivity. }
  rewrite E. reflexivity.
Qed.

Lemma splitByPages_without_marker_witness :
  splitByPages [32; 80; 65; 71; 69; 32] = [mkPage 1 [32; 80; 65; 71; 69; 32]].
Proof.
  apply splitByPages_without_marker. vm_compute. reflexivity.
Defined.

(** *** The stitched text of pages with any numbers *)

Lemma trimEnd_body_of (rest : list (N * jsstring)) :
  forall (p x : jsstring),
    Forall plain_page (p :: map snd rest) ->
    trimEnd (x ++ p ++ concat (map block_of rest)) = x ++ body_of p rest.
Proof.
  induction rest as [|[k p'] rest IH]; intros p x H.
  - cbn [map concat body_of]. rewrite app_nil_r.
    apply trimEnd_app_nonblank. apply Forall_inv in H. apply H.
  - cbn [map concat body_of fst snd]. unfold block_of at 1, page_block.
    cbn [fst snd].
    apply Forall_inv_tail in H. cbn [map snd] in H.
    specialize (IH p' (x ++ p ++ LF :: LF :: marker k ++ [LF]) H).
    etransitivity; [|etransitivity; [exact IH|]].
    + f_equal.
      repeat (rewrite <- app_assoc || rewrite <- app_comm_cons). reflexivity.
    + repeat (rewrite <- app_assoc || rewrite <- app_comm_cons). reflexivity.
Qed.

Lemma ocr_text_body_of (k : N) (p : jsstring) (rest : list (N * jsstring)) :
  Forall plain_page (p :: map snd rest) ->
  ocr_text ((k, p) :: rest) = marker k ++ LF :: body_of p rest.
Proof.
  intros H. unfold ocr_text, trim. rewrite stitch_concat.
  cbn [map concat fst snd]. unfold page_block at 1.
  assert (E : trimStart ((LF :: LF :: marker k ++ LF :: p) ++
                concat (map (fun q => page_block (fst q) (snd q)) rest)) =
              (marker k ++ [LF]) ++ p ++ concat (map block_of rest)).
  { repeat (rewrite <- app_assoc || rewrite <- app_comm_cons).
    rewrite trimStart_block. reflexivity. }
  rewrite E. rewrite (trimEnd_body_of rest p _ H).
  rewrite <- app_assoc. reflexivity.
Qed.

Lemma split_marker_body_of (rest : list (N * jsstring)) :
  forall p : jsstring,
    Forall plain_page (p :: map snd rest) ->
    split_marker [] (LF :: body_of p rest) = segments_of p rest.
Proof.
  induction rest as [|[k p'] rest IH]; intros p H.
  - cbn [body_of segments_of].
    pose proof (Forall_inv H) as [_ Hp].
    rewrite <- (app_nil_r (LF :: trimEnd p)) at 1.
    rewrite split_marker_skip.
    + rewrite split_marker_equation_1, app_nil_r, rev_involutive. reflexivity.
    + apply no_match_before_end. rewrite has_marker_LF.
      destruct (trimEnd_prefix p) as [w Hw].
      apply (has_marker_prefix _ w). rewrite <- Hw. exact Hp.
  - cbn [body_of segments_of].
    pose proof (Forall_inv H) as [_ Hp].
    apply Forall_inv_tail in H. cbn [map snd] in H.
    replace (LF :: p ++ LF :: LF :: marker k ++ LF :: body_of p' rest)
      with ((LF :: p ++ [LF; LF]) ++ marker k ++ LF :: body_of p' rest)
      by (repeat (rewrite <- app_assoc || rewrite <- app_comm_cons); reflexivity).
    rewrite split_marker_skip.
    + rewrite split_marker_at_marker. rewrite app_nil_r, rev_involutive.
      rewrite (IH _ H). reflexivity.
    + change (LF :: p ++ [LF; LF]) with ((LF :: p) ++ [LF; LF]).
      apply no_match_before_app.
      * rewrite marker_head. apply no_match_before_gap.
        rewrite has_marker_LF. exact Hp.
      * cbn [no_match_before]. auto.
Qed.

Lemma pages_loop_segments_of (rest : list (N * jsstring)) :
  forall (k : N) (p : jsstring),
    Forall plain_page (p :: map snd rest) ->
    pages_loop (decimal k :: segments_of p rest) =
    map record_of ((k, p) :: rest).
Proof.
  induction rest as [|[k' p'] rest IH]; intros k p H.
  - cbn [segments_of pages_loop map]. unfold record_of. cbn [fst snd].
    pose proof (Forall_inv H) as [Hp _].
    assert (E : trim (LF :: trimEnd p) = trim p).
    { rewrite <- (trim_trimEnd p).
      pose proof (trim_app_space [LF] (trimEnd p) [] eq_refl eq_refl) as E.
      rewrite app_nil_r in E. exact E. }
    rewrite E, (truthy_nonempty _ Hp).
    destruct (decimal_spec k) as (_ & _ & ->). reflexivity.
  - cbn [segments_of]. rewrite pages_loop_step.
    pose proof (Forall_inv H) as [Hp _].
    apply Forall_inv_tail in H. cbn [map snd] in H.
    rewrite (IH _ _ H).
    assert (E : trim (LF :: p ++ [LF; LF]) = trim p).
    { apply (trim_app_space [LF] p [LF; LF]); reflexivity. }
    rewrite E, (truthy_nonempty _ Hp).
    destruct (decimal_spec k) as (_ & _ & ->). reflexivity.
Qed.

Lemma splitByPages_stitched (k : N) (p : jsstring) (rest : list (N * jsstring)) :
  Forall plain_page (p :: map snd rest) ->
  splitByPages (ocr_text ((k, p) :: rest)) = map record_of ((k, p) :: rest).
Proof.
  intros H. unfold splitByPages.
  rewrite (ocr_text_body_of k p rest H).
  rewrite split_marker_at_marker.
  rewrite (split_marker_body_of rest p H).
  cbn [tl rev].
  rewrite (pages_loop_segments_of rest k p H).
  destruct (segments_of p rest); reflexivity.
Qed.

(** X13: whatever the page numbers of the markers are up to
    [Number.MAX_SAFE_INTEGER] (in any order, with repetitions, with 0),
    when there is at least one page and the text of every page is not
    blank and has no match of the marker expression, [splitByPages] gives
    back, from the text that the OCR step stitches, each number with the
    trimmed text of its page, in order. *)
Theorem splitByPages_any_numbers (pages : list (N * jsstring)) :
  pages <> [] ->
  Forall (fun np => fst np <= MAX_SAFE_INTEGER) pages ->
  Forall plain_page (map snd pages) ->
  splitByPages (ocr_text pages) = map record_of pages.
Proof.
  intros Hne _ H. destruct pages as [|[k p] rest]; [congruence|].
  apply splitByPages_stitched. exact H.
Qed.

Lemma splitByPages_any_numbers_witness :
  splitByPages (ocr_text [(7, [97; 32]); (0, [98]); (7, [99])]) =
  [mkPage 7 [97]; mkPage 0 [98]; mkPage 7 [99]].
Proof.
  rewrite splitByPages_any_numbers.
  - reflexivity.
  - discriminate.
  - repeat constructor; vm_compute; discriminate.
  - repeat constructor; vm_compute; discriminate.
Defined.

(** *** The images in the order of their pages *)

Lemma insert_image_perm (a : jsstring) (l : list jsstring) :
  Permutation (insert_image a l) (a :: l).
Proof.
  induction l as [|b l IH]; simpl; [reflexivity|].
  destruct (page_number a <=? page_number b); [reflexivity|].
  rewrite IH. apply perm_swap.
Qed.

Lemma sort_images_perm (l : list jsstring) : Permutation (sort_images l) l.
Proof.
  induction l as [|a l IH]; simpl; [constructor|].
  rewrite insert_image_perm. constructor. exact IH.
Qed.

Lemma insert_image_sorted (a : jsstring) (l : list jsstring) :
  Sorted N.le (map page_number l) ->
  Sorted N.le (map page_number (insert_image a l)).
Proof.
  induction l as [|b l IH]; intros H; simpl.
  - repeat constructor.
  - destruct (N.leb_spec (page_number a) (page_number b)) as [Hle|Hgt].
    + simpl. constructor; [exact H|]. constructor. exact Hle.
    + simpl in H. apply Sorted_inv in H as [Hs Hhd].
      simpl. constructor; [apply IH; exact Hs|].
      destruct l as [|c l]; simpl.
      * constructor. lia.
      * destruct (page_number a <=? page_number c); simpl.
        -- constructor. lia.
        -- constructor. simpl in Hhd. apply HdRel_inv in Hhd. exact Hhd.
Qed.

Lemma sort_images_sorted (l : list jsstring) :
  Sorted N.le (map page_number (sort_images l)).
Proof.
  induction l as [|a l IH]; simpl; [constructor|].
  apply insert_image_sorted. exact IH.
Qed.

(** Among names with the same page number the insertion keeps the order. *)
Lemma insert_image_filter (n : N) (a : jsstring) (l : list jsstring) :
  Sorted N.le (map page_number l) ->
  filter (fun f => page_number f =? n) (insert_image a l) =
  filter (fun f => page_number f =? n) (a :: l).
Proof.
  induction l as [|b l IH]; intros H; [reflexivity|].
  cbn [insert_image].
  destruct (N.leb_spec (page_number a) (page_number b)) as [Hle|Hgt];
    [reflexivity|].
  simpl in H. apply Sorted_inv in H as [Hs _].
  cbn [filter]. rewrite (IH Hs). cbn [filter].
  destruct (N.eqb_spec (page_number a) n) as [Ea|Ea];
    destruct (N.eqb_spec (page_number b) n) as [Eb|Eb]; try reflexivity.
  lia.
Qed.

Lemma sort_images_stable (n : N) (l : list jsstring) :
  filter (fun f => page_number f =? n) (sort_images l) =
  filter (fun f => page_number f =? n) l.
Proof.
  induction l as [|a l IH]; [reflexivity|].
  cbn [sort_images fold_right].
  rewrite insert_image_filter by apply sort_images_sorted.
  cbn [filter]. fold (sort_images l). rewrite IH. reflexivity.
Qed.

(** The page number of the name [page-<digits>.png]. *)
Lemma page_number_page_file (d : char) (ds : jsstring) :
  forallb is_digit (d :: ds) = true ->
  page_number (page_file (d :: ds)) = Number_of_digits (d :: ds).
Proof.
  intros H. unfold page_number, page_file.
  assert (E : match_page_png (PAGE_dash ++ (d :: ds) ++ DOT_png) = Some (d :: ds)).
  { unfold match_page_png. rewrite strip_prefix_same.
    pose proof (span_stop is_digit (d :: ds) (tl DOT_png) 46 H eq_refl) as E.
    change (46 :: tl DOT_png) with DOT_png in E.
    unfold jsstring, char in *. rewrite E. reflexivity. }
  change (PAGE_dash ++ (d :: ds) ++ DOT_png)
    with (112 :: tl PAGE_dash ++ (d :: ds) ++ DOT_png) in *.
  cbn [search_page_png]. rewrite E. reflexivity.
Qed.

Lemma is_page_image_page_file (digits : jsstring) :
  is_page_image (page_file digits) = true.
Proof.
  unfold is_page_image, page_file, endsWith, startsWith.
  rewrite strip_prefix_same. rewrite !rev_app_distr, <- app_assoc.
  rewrite strip_prefix_same. reflexivity.
Qed.

(** X14: when the page numbers in the names of the listing are at most
    [Number.MAX_SAFE_INTEGER], the images that [ocrPdfToText] reads are
    the names of the listing that start with [page-] and end with [.png],
    each once, in the order of their page numbers, names with the same
    number keeping the order of the listing; and for [n] up to that bound
    the number of [page-<digits of n>.png] is [n], also with a leading
    zero, so that page 10 comes after page 9. *)
Theorem images_in_page_order (listing : list jsstring) :
  safe_page_numbers (filter is_page_image listing) ->
  Permutation (images listing) (filter is_page_image listing) /\
  Sorted N.le (map page_number (images listing)) /\
  (forall n,
     filter (fun f => page_number f =? n) (images listing) =
     filter (fun f => page_number f =? n) (filter is_page_image listing)) /\
  safe_page_numbers (images listing) /\
  (forall n, n <= MAX_SAFE_INTEGER ->
     is_page_image (page_file (decimal n)) = true /\
     page_number (page_file (decimal n)) = n /\
     page_number (page_file (48 :: decimal n)) = n).
Proof.
  intros Hsafe.
  unfold images. split; [apply sort_images_perm|].
  split; [apply sort_images_sorted|].
  split; [intros n; apply sort_images_stable|].
  split.
  - unfold safe_page_numbers in *. rewrite Forall_forall in *.
    intros f Hf. apply Hsafe.
    apply (Permutation_in f (sort_images_perm (filter is_page_image listing))).
    exact Hf.
  - intros n _. split; [apply is_page_image_page_file|].
    destruct (decimal_spec n) as (Hne & Hdig & Hnum). split.
    + destruct (decimal n) as [|d ds] eqn:E; [congruence|].
      rewrite page_number_page_file by exact Hdig. exact Hnum.
    + rewrite page_number_page_file.
      * unfold Number_of_digits in *. cbn [fold_left].
        change (10 * 0 + digit_value 48) with 0. exact Hnum.
      * cbn [forallb]. rewrite Hdig. reflexivity.
Qed.

Lemma images_in_page_order_witness :
  Sorted N.le (map page_number (images sample_listing)) /\
  page_number (page_file (decimal 10)) = 10.
Proof.
  assert (Hsafe : safe_page_numbers (filter is_page_image sample_listing)).
  { repeat constructor; vm_compute; discriminate. }
  destruct (images_in_page_order sample_listing Hsafe) as (_ & Hs & _ & _ & Hn).
  split; [exact Hs|].
  apply (Hn 10). vm_compute. discriminate.
Defined.

(** The sample listing, sorted. *)
Example images_sample :
  images sample_listing =
  [page_file [50]; page_file [48; 57]; page_file [49; 48]].
Proof. vm_compute. reflexivity. Qed.

(** X15: when the listing has a page image, the page numbers in its names
    are at most [Number.MAX_SAFE_INTEGER], and the text recognized in
    every image is not blank and has no match of the marker expression,
    [splitByPages] gives back, from the text of [ocrPdfToText], one record
    for each image, with the page number of its name and its trimmed text;
    the page numbers of these records do not decrease, and the number of
    pages that [ocrPdfToText] reports is the number of records. *)
Theorem splitByPages_of_ocrPdfToText (recognize : jsstring -> jsstring)
    (listing : list jsstring) :
  images listing <> [] ->
  safe_page_numbers (filter is_page_image listing) ->
  Forall (fun imgName => plain_page (recognize imgName)) (images listing) ->
  splitByPages (fst (ocrPdfToText recognize listing)) =
    map (fun imgName => mkPage (page_number imgName) (trim (recognize imgName)))
        (images listing) /\
  Sorted N.le (map page (splitByPages (fst (ocrPdfToText recognize listing)))) /\
  snd (ocrPdfToText recognize listing) =
    length (splitByPages (fst (ocrPdfToText recognize listing))).
Proof.
  intros Hne _ Hplain. unfold ocrPdfToText. cbn [fst snd].
  assert (E : splitByPages (ocr_text (pages_of_images recognize (images listing))) =
              map (fun imgName => mkPage (page_number imgName) (trim (recognize imgName)))
                  (images listing)).
  { unfold pages_of_images.
    destruct (images listing) as [|img imgs] eqn:Ei; [congruence|].
    cbn [map]. rewrite splitByPages_stitched.
    - cbn [map]. unfold record_of at 1. cbn [fst snd]. f_equal.
      rewrite map_map. reflexivity.
    - rewrite map_map. cbn [snd].
      apply Forall_cons; [apply (Forall_inv Hplain)|].
      apply Forall_map. apply (Forall_inv_tail Hplain). }
  rewrite E. split; [reflexivity|]. split.
  - rewrite map_map. cbn [page].
    pose proof (sort_images_sorted (filter is_page_image listing)) as Hs.
    exact Hs.
  - rewrite length_map. reflexivity.
Qed.

Lemma splitByPages_of_ocrPdfToText_witness :
  map page (splitByPages (fst (ocrPdfToText (fun imgName => imgName) sample_listing))) =
  [2; 9; 10].
Proof.
  destruct (splitByPages_of_ocrPdfToText (fun imgName => imgName) sample_listing)
    as [H _].
  - vm_compute. discriminate.
  - repeat constructor; vm_compute; discriminate.
  - vm_compute. repeat constructor; discriminate.
  - rewrite H. vm_compute. reflexivity.
Defined.

Close Scope N_scope.

End PagesMore.

(* ===================================================================== *)
(** ** The text extractor: what it returns, what it throws                *)
(* ===================================================================== *)

Module ExtractMore.

Import JSFacts Extract.

Open Scope Z_scope.

(** X16: a text that [extractTextSmart] returns with [usedOcr = false] is
    the trimmed native text and has at least 300 code units; one that it
    returns with [usedOcr = true] is the text of the OCR, run because the
    trimmed native text has fewer than 300; and what it throws was thrown
    by native extraction, the OCR then not being run, or by the OCR after
    a native text of fewer than 300 code units. *)
Theorem extractTextSmart_outcomes {Buffer Path Err : Type}
    (parsePdf : Buffer -> Outcome Err (option jsstring))
    (ocrPdfToText : Path -> Outcome Err (jsstring * nat))
    (pdfBuffer : Buffer) (pdfPath : Path) :
  (forall r, extractTextSmart parsePdf ocrPdfToText pdfBuffer pdfPath = Ok r ->
     exists parsed_text,
       parsePdf pdfBuffer = Ok parsed_text /\
       (usedOcr r = false ->
          text r = native_text parsed_text /\ 300 <= len (text r) /\
          trim (text r) = text r) /\
       (usedOcr r = true ->
          len (native_text parsed_text) < 300 /\
          exists ocr, ocrPdfToText pdfPath = Ok ocr /\ text r = fst ocr)) /\
  (forall e, extractTextSmart parsePdf ocrPdfToText pdfBuffer pdfPath = Threw e ->
     (parsePdf pdfBuffer = Threw e /\
      forall ocr' : Path -> Outcome Err (jsstring * nat),
        extractTextSmart parsePdf ocr' pdfBuffer pdfPath = Threw e) \/
     (exists parsed_text,
        parsePdf pdfBuffer = Ok parsed_text /\
        len (native_text parsed_text) < 300 /\
        ocrPdfToText pdfPath = Threw e)).
Proof.
  unfold extractTextSmart. split.
  - intros r H. destruct (parsePdf pdfBuffer) as [parsed_text|e]; [|discriminate H].
    exists parsed_text. split; [reflexivity|].
    destruct (Z.ltb_spec (len (native_text parsed_text)) 300) as [Hlt|Hge].
    + destruct (ocrPdfToText pdfPath) as [ocr|e]; [|discriminate H].
      injection H as <-. cbn [usedOcr text]. split; [discriminate|].
      intros _. split; [exact Hlt|]. exists ocr. auto.
    + injection H as <-. cbn [usedOcr text]. split; [|discriminate].
      intros _. split; [reflexivity|]. split; [exact Hge|].
      unfold native_text. apply trim_idem.
  - intros e H. destruct (parsePdf pdfBuffer) as [parsed_text|e'] eqn:E.
    + right. exists parsed_text. split; [reflexivity|].
      destruct (Z.ltb_spec (len (native_text parsed_text)) 300) as [Hlt|Hge];
        [|discriminate H].
      destruct (ocrPdfToText pdfPath) as [ocr|e'']; [discriminate H|].
      injection H as <-. auto.
    + left. injection H as <-. split; [reflexivity|]. intros ocr'. reflexivity.
Qed.

Lemma extractTextSmart_outcomes_witness :
  exists parsed_text,
    parse_as_is (repeat 97%N 50) = Ok parsed_text /\
    len (native_text parsed_text) < 300.
Proof.
  destruct (extractTextSmart_outcomes parse_as_is ocr_one_page (repeat 97%N 50) tt)
    as [H _].
  destruct (H (mkExtraction scanned true) eq_refl) as (parsed_text & Hp & _ & Hocr).
  exists parsed_text. split; [exact Hp|]. apply Hocr. reflexivity.
Defined.

Close Scope Z_scope.

End ExtractMore.

(* ===================================================================== *)
(** ** The ingestion driver: what the rows hold, short pages, reruns      *)
(* ===================================================================== *)

Module IngestMore.

Import JSFacts Chunker ChunkerFacts ChunkerMore Extract Pages Ingest IngestFacts
  IngestNotions.

(** The chunks of a page have more than 60 and at most 900 code units and
    no white space at their ends. *)
Lemma chunks_of_wellformed (content c : jsstring) :
  In c (chunks_of content) -> (60 < len c <= 900)%Z /\ trim c = c.
Proof.
  unfold chunks_of.
  destruct (chunkText (S (length content)) content 900 150) as [chunks|] eqn:E;
    [|intros []].
  intros Hin.
  destruct (returned_chunks content 900 150 _ chunks ltac:(lia) ltac:(lia) E)
    as [Hall _].
  rewrite Forall_forall in Hall. destruct (Hall c Hin) as (H1 & H2 & _). auto.
Qed.

(** A page whose normalized content has at most 60 code units has no
    chunk. *)
Lemma chunks_of_short (content : jsstring) :
  (len (normalize content) <= 60)%Z -> chunks_of content = [].
Proof.
  intros H. unfold chunks_of.
  rewrite (nothing_long_enough content 900 150 (S (length content)));
    [reflexivity | lia | left; exact H |].
  pose proof (normalize_len_le content) as Hle.
  pose proof (iterations_le (len (normalize content)) (900 - 150)
                (len_nonneg _) ltac:(lia)) as Hit.
  unfold len in *. lia.
Qed.

Section MainMore.

Variables (File Buffer Err Num Literal : Type).
Variable startup : Outcome Err unit.
Variable is_pdf : File -> bool.
Variable readFileSync : File -> Outcome Err Buffer.
Variable parsePdf : Buffer -> Outcome Err (option jsstring).
Variable ocrPdfToText : File -> Outcome Err (jsstring * nat).
Variable embed : nat -> jsstring -> Outcome Err (list Num).
Variable vector_literal : list Num -> Literal.
Variable insert_error : Row File Literal -> option Err.
Variable empty_vector : Err.

Local Abbreviation State := (Ingest.State File Literal).
Local Abbreviation run_main :=
  (main startup is_pdf readFileSync parsePdf ocrPdfToText embed vector_literal
        insert_error empty_vector).
Local Abbreviation the_plan := (plan is_pdf readFileSync parsePdf ocrPdfToText).

(** A run of [main] appends the rows of its plan. *)
Lemma main_appends (listing : list File) (st : State) :
  appends (the_plan listing) st (run_main listing st).
Proof.
  unfold main, plan.
  change (flat_map (file_plan readFileSync parsePdf ocrPdfToText)
                   (filter is_pdf listing))
    with ([] ++ flat_map (file_plan readFileSync parsePdf ocrPdfToText)
                         (filter is_pdf listing)).
  apply appends_bind; [apply appends_lift|].
  intros _ st1. apply appends_file_loop.
Qed.

Lemma chunk_plan_chunk (file : File) (page : N) (chunks : list jsstring) :
  forall idx k, In k (chunk_plan file page idx chunks) ->
    exists i ch, k = (file, page, i, ch) /\ In ch chunks.
Proof.
  unfold chunk_plan. intros idx k Hk.
  apply in_map_iff in Hk as ([i ch] & <- & Hin).
  exists i, ch. split; [reflexivity|]. apply (in_combine_r _ _ _ _ Hin).
Qed.

Lemma plan_good (listing : list File) (k : Key File) :
  In k (the_plan listing) -> good_key is_pdf listing k.
Proof.
  unfold plan. intros Hk.
  apply in_flat_map in Hk as (file & Hfile & Hk).
  apply filter_In in Hfile as [Hlist Hpdf].
  unfold file_plan in Hk.
  destruct (readFileSync file) as [pdfBuffer|e]; [|destruct Hk].
  destruct (extractTextSmart parsePdf ocrPdfToText pdfBuffer file) as [r|e];
    [|destruct Hk].
  apply in_flat_map in Hk as (p & _ & Hk).
  unfold page_plan in Hk.
  apply chunk_plan_chunk in Hk as (i & ch & -> & Hch).
  apply chunks_of_wellformed in Hch. unfold good_key. tauto.
Qed.

(** X17: the rows that a run of [main] appends, whether it finishes or is
    aborted, are rows of PDF files of the listing; their chunks have more
    than 60 and at most 900 code units and no white space at their ends;
    and the rows that the table had are kept, in front of the new ones. *)
Theorem main_rows_wellformed (listing : list File) (st : State) :
  match run_main listing st with
  | Finished _ st' | Aborted _ st' =>
      exists rows,
        db st' = db st ++ rows /\
        Forall (fun row =>
                  is_pdf (source row) = true /\ In (source row) listing /\
                  (60 < len (chunk row) <= 900)%Z /\
                  trim (chunk row) = chunk row) rows
  | Diverged => False
  end.
Proof.
  pose proof (main_appends listing st) as H.
  assert (Hgood : forall (rows : list (Row File Literal)) rest,
            the_plan listing = map key rows ++ rest ->
            Forall (fun row =>
                      is_pdf (source row) = true /\ In (source row) listing /\
                      (60 < len (chunk row) <= 900)%Z /\
                      trim (chunk row) = chunk row) rows).
  { intros rows rest E. apply Forall_forall. intros row Hrow.
    assert (Hk : In (key row) (the_plan listing)).
    { rewrite E. apply in_or_app. left. apply in_map. exact Hrow. }
    apply plan_good in Hk. unfold good_key, key in Hk. exact Hk. }
  destruct (run_main listing st) as [a st'|e st'|]; simpl in H.
  - destruct H as (rows & Hdb & Hkeys & _). exists rows. split; [exact Hdb|].
    apply (Hgood rows []). rewrite app_nil_r. symmetry. exact Hkeys.
  - destruct H as (rows & rest & Hdb & Hkeys & _). exists rows.
    split; [exact Hdb|]. apply (Hgood rows rest Hkeys).
  - exact H.
Qed.

(** X18: a page whose normalized content has at most 60 code units is
    passed over: the loop over the pages goes on with the next page
    without a call of [embed] and without a row. *)
Theorem short_page_is_skipped (file : File) (p : PageRecord)
    (pages : list PageRecord) (st : State) :
  (len (normalize (content p)) <= 60)%Z ->
  page_loop embed vector_literal insert_error empty_vector file (p :: pages) st =
  page_loop embed vector_literal insert_error empty_vector file pages st /\
  page_plan file p = [].
Proof.
  intros H. split.
  - cbn [page_loop]. unfold bind at 1. rewrite chunk_page_finished.
    rewrite (chunks_of_short _ H). reflexivity.
  - unfold page_plan. rewrite (chunks_of_short _ H). reflexivity.
Qed.

(** X19: [main] has no check for rows that are already there: when a run
    finishes and a second run on the same files finishes too, the table
    holds the rows of the plan twice, after the rows it had, and [embed]
    has been called once for each of them. *)
Theorem main_rerun_duplicates (listing : list File) (st st1 st2 : State) :
  run_main listing st = Finished tt st1 ->
  run_main listing st1 = Finished tt st2 ->
  map key (db st2) = map key (db st) ++ the_plan listing ++ the_plan listing /\
  embed_calls st2 = embed_calls st + 2 * length (the_plan listing).
Proof.
  intros H1 H2.
  pose proof (main_appends listing st) as A1. rewrite H1 in A1.
  pose proof (main_appends listing st1) as A2. rewrite H2 in A2.
  simpl in A1, A2.
  destruct A1 as (rows1 & Hdb1 & Hk1 & Hc1).
  destruct A2 as (rows2 & Hdb2 & Hk2 & Hc2).
  split.
  - rewrite Hdb2, Hdb1, !map_app, Hk1, Hk2, <- app_assoc. reflexivity.
  - rewrite <- Hk1 at 1. rewrite length_map.
    assert (length rows2 = length rows1).
    { rewrite <- (length_map key rows2), <- (length_map key rows1), Hk1, Hk2.
      reflexivity. }
    lia.
Qed.

End MainMore.

Lemma short_page_is_skipped_witness :
  page_plan 5 (mkPage 2 (repeat 97%N 40)) = @nil (Key nat).
Proof.
  destruct (short_page_is_skipped nat nat nat (list nat) (fun n _ => Ok [n])
              (fun v => v) (fun _ => None) 1 5 (mkPage 2 (repeat 97%N 40)) []
              (mkState [] 0)) as [_ H].
  - vm_compute. discriminate.
  - exact H.
Defined.

Lemma main_rerun_duplicates_witness :
  map key (db (mkState [mkRow 5 1%N 0 (repeat 97%N 900) [0];
                        mkRow 5 1%N 1 (repeat 97%N 250) [1];
                        mkRow 5 1%N 0 (repeat 97%N 900) [2];
                        mkRow 5 1%N 1 (repeat 97%N 250) [3]] 4)) =
  [(5, 1%N, 0, repeat 97%N 900); (5, 1%N, 1, repeat 97%N 250);
   (5, 1%N, 0, repeat 97%N 900); (5, 1%N, 1, repeat 97%N 250)].
Proof.
  destruct (main_rerun_duplicates nat (list N) nat nat (list nat)
              (Ok tt) (fun _ => true)
              (fun _ => Ok (repeat 97%N 1000))
              (fun buffer => Ok (Some buffer))
              (fun _ => Threw 0)
              (fun n _ => Ok [n])
              (fun v => v)
              (fun _ => None)
              1
              [5] (mkState [] 0)
              (mkState [mkRow 5 1%N 0 (repeat 97%N 900) [0];
                        mkRow 5 1%N 1 (repeat 97%N 250) [1]] 2)
              (mkState [mkRow 5 1%N 0 (repeat 97%N 900) [0];
                        mkRow 5 1%N 1 (repeat 97%N 250) [1];
                        mkRow 5 1%N 0 (repeat 97%N 900) [2];
                        mkRow 5 1%N 1 (repeat 97%N 250) [3]] 4))
    as [H _].
  - vm_compute. reflexivity.
  - vm_compute. reflexivity.
  - vm_compute. reflexivity.
Defined.

End IngestMore.

(* ===================================================================== *)
(** ** Vector literals: reading back, the two versions                    *)
(* ===================================================================== *)

Module VectorLiteralFacts.

Import Extract VectorLiteral.

Lemma join_cons2 (sep p q : jsstring) (rest : list jsstring) :
  join sep (p :: q :: rest) = p ++ sep ++ join sep (q :: rest).
Proof. reflexivity. Qed.

(** Two texts that agree up to their first comma and after it. *)
Lemma first_separator (c : char) (a b x y : jsstring) :
  ~ In c a -> ~ In c b -> a ++ c :: x = b ++ c :: y -> a = b /\ x = y.
Proof.
  revert b. induction a as [|d a IH]; intros b Ha Hb H.
  - destruct b as [|e b]; simpl in H.
    + injection H as <-. auto.
    + injection H as <- _. exfalso. apply Hb. left. reflexivity.
  - destruct b as [|e b]; simpl in H.
    + injection H as -> _. exfalso. apply Ha. left. reflexivity.
    + injection H as <- H.
      destruct (IH b) as [<- <-]; auto.
      * intros Hin. apply Ha. right. exact Hin.
      * intros Hin. apply Hb. right. exact Hin.
Qed.

Lemma join_nonempty (p : jsstring) (rest : list jsstring) :
  p <> [] -> join [COMMA] (p :: rest) <> [].
Proof.
  intros Hp H. destruct rest as [|q rest]; simpl in H; [congruence|].
  apply app_eq_nil in H as [H _]. congruence.
Qed.

(** The parts of a joined text can be read back when they are not empty
    and hold no comma. *)
Lemma join_injective (ps : list jsstring) :
  forall qs, Forall piece ps -> Forall piece qs ->
    join [COMMA] ps = join [COMMA] qs -> ps = qs.
Proof.
  induction ps as [|p ps IH]; intros qs Hps Hqs H.
  - destruct qs as [|q qs]; [reflexivity|].
    exfalso. apply (join_nonempty q qs); [apply (Forall_inv Hqs)|].
    symmetry. exact H.
  - destruct qs as [|q qs].
    + exfalso. apply (join_nonempty p ps); [apply (Forall_inv Hps) | exact H].
    + pose proof (Forall_inv Hps) as [Hp _].
      pose proof (Forall_inv Hqs) as [Hq _].
      apply Forall_inv_tail in Hps. apply Forall_inv_tail in Hqs.
      destruct ps as [|p2 ps]; destruct qs as [|q2 qs].
      * simpl in H. congruence.
      * exfalso. rewrite join_cons2 in H. cbn [join app] in H.
        apply Hp. rewrite H. apply in_or_app. right. left. reflexivity.
      * exfalso. rewrite join_cons2 in H. cbn [join app] in H.
        apply Hq. rewrite <- H. apply in_or_app. right. left. reflexivity.
      * rewrite !join_cons2 in H. cbn [app] in H.
        apply first_separator in H as [<- H]; [|exact Hp|exact Hq].
        f_equal. apply IH; assumption.
Qed.

Lemma count_join (ps : list jsstring) :
  Forall piece ps ->
  count_occ N.eq_dec (join [COMMA] ps) COMMA = length ps - 1.
Proof.
  induction ps as [|p ps IH]; intros H; [reflexivity|].
  pose proof (Forall_inv H) as [Hp _]. apply Forall_inv_tail in H.
  apply (count_occ_not_In N.eq_dec) in Hp.
  destruct ps as [|q ps].
  - simpl. exact Hp.
  - rewrite join_cons2, !count_occ_app. specialize (IH H).
    unfold jsstring, char in *. rewrite Hp, IH. simpl. lia.
Qed.

Section Render.

Variable Num : Type.
Variable render : Num -> jsstring.

Lemma rendered_pieces (v : list Num) :
  (forall x, ~ In COMMA (render x)) -> (forall x, render x <> []) ->
  Forall piece (map render v).
Proof.
  intros H1 H2. apply Forall_map. apply Forall_forall. intros x _.
  split; [apply H1 | apply H2].
Qed.

(** X20: when the text of a number is never empty and holds no comma,
    the texts of the numbers can be read back from the literal of a
    vector, and the literal of [n] numbers has [n - 1] commas; the
    ingestion script and the search build the same literal of a vector
    that is not empty, and for the empty vector the first throws where the
    second returns [[]]. *)
Theorem vector_literal_reads_back {Err : Type} (empty_vector : Err) :
  (forall x, ~ In COMMA (render x)) ->
  (forall x, render x <> []) ->
  (forall v w, literal_of render v = literal_of render w ->
               map render v = map render w) /\
  (forall v, count_occ N.eq_dec (literal_of render v) COMMA = length v - 1) /\
  (forall v, v <> [] ->
     toVectorLiteral_ingest render empty_vector v =
     Ok (toVectorLiteral_search render v)) /\
  toVectorLiteral_ingest render empty_vector [] = Threw empty_vector /\
  toVectorLiteral_search render [] = [Pages.BRACKET_open; Pages.BRACKET_close].
Proof.
  intros H1 H2. split; [|split; [|split; [|split]]].
  - intros v w H. unfold literal_of in H. injection H as H.
    apply app_inv_tail in H.
    apply join_injective; [apply rendered_pieces | apply rendered_pieces |]; assumption.
  - intros v. unfold literal_of. cbn [count_occ].
    destruct (N.eq_dec Pages.BRACKET_open COMMA) as [E|_]; [discriminate E|].
    rewrite count_occ_app. cbn [count_occ].
    destruct (N.eq_dec Pages.BRACKET_close COMMA) as [E|_]; [discriminate E|].
    rewrite count_join by (apply rendered_pieces; assumption).
    rewrite length_map. lia.
  - intros v Hv. destruct v as [|x v]; [congruence | reflexivity].
  - reflexivity.
  - reflexivity.
Qed.

End Render.

Lemma render_nat_piece (n : nat) : piece (render_nat n).
Proof.
  unfold render_nat.
  destruct (PagesFacts.decimal_spec (N.of_nat n)) as (Hne & Hdig & _).
  split; [|exact Hne]. intros Hin.
  rewrite forallb_forall in Hdig. specialize (Hdig _ Hin). discriminate Hdig.
Qed.

Lemma vector_literal_reads_back_witness :
  count_occ N.eq_dec (literal_of render_nat [3; 14; 15]) COMMA = 2 /\
  literal_of render_nat [3; 14; 15] =
    [91; 51; 44; 49; 52; 44; 49; 53; 93]%N.
Proof.
  destruct (vector_literal_reads_back nat render_nat tt) as (_ & H & _).
  - intros x. apply render_nat_piece.
  - intros x. apply render_nat_piece.
  - split; [apply (H [3; 14; 15]) | vm_compute; reflexivity].
Defined.

End VectorLiteralFacts.

(* ===================================================================== *)
(** ** The ingestion driver: chunk and embedding of a row, trimmed texts  *)
(* ===================================================================== *)

Module IngestRows.

Import JSFacts Chunker ChunkerFacts ChunkerMore Extract Pages Ingest IngestFacts
  IngestNotions.

(** *** Trimming does not change the chunks *)

Lemma trim_cons_space (c : char) (s : jsstring) :
  is_space c = true -> trim (c :: s) = trim s.
Proof.
  intros H. pose proof (trim_app_space [c] s []) as E.
  rewrite app_nil_r in E. apply E; [|reflexivity].
  simpl. rewrite H. reflexivity.
Qed.

(** The flag of [replace_ws] only decides about a space in front, which
    [trim] removes. *)
Lemma trim_replace_ws (s : jsstring) (b : bool) :
  trim (replace_ws b s) = normalize s.
Proof.
  unfold normalize. destruct b; [|reflexivity].
  destruct s as [|c s]; [reflexivity|]. simpl.
  destruct (is_space c); [|reflexivity].
  symmetry. apply trim_cons_space. reflexivity.
Qed.

Lemma normalize_space_front (w s : jsstring) :
  forallb is_space w = true -> normalize (w ++ s) = normalize s.
Proof.
  induction w as [|c w IH]; intros H; [reflexivity|].
  simpl in H. apply andb_true_iff in H as [Hc Hw].
  unfold normalize. simpl. rewrite Hc.
  rewrite trim_cons_space by reflexivity.
  rewrite trim_replace_ws. apply IH. exact Hw.
Qed.

Lemma replace_ws_all_space (w : jsstring) :
  forall b, forallb is_space w = true ->
    forallb is_space (replace_ws b w) = true.
Proof.
  induction w as [|c w IH]; intros b H; [reflexivity|].
  simpl in *. apply andb_true_iff in H as [Hc Hw]. rewrite Hc.
  destruct b; [apply IH; exact Hw|].
  simpl. apply IH. exact Hw.
Qed.

Lemma replace_ws_space_back (w s : jsstring) :
  forallb is_space w = true ->
  forall b, exists tail,
    forallb is_space tail = true /\
    replace_ws b (s ++ w) = replace_ws b s ++ tail.
Proof.
  intros Hw. induction s as [|c s IH]; intros b.
  - exists (replace_ws b w). split; [apply replace_ws_all_space; exact Hw|].
    reflexivity.
  - simpl. destruct (is_space c).
    + destruct b.
      * apply IH.
      * destruct (IH true) as (tail & Ht & E). exists tail.
        split; [exact Ht|]. rewrite E. reflexivity.
    + destruct (IH false) as (tail & Ht & E). exists tail.
      split; [exact Ht|]. rewrite E. reflexivity.
Qed.

Lemma normalize_space_back (s w : jsstring) :
  forallb is_space w = true -> normalize (s ++ w) = normalize s.
Proof.
  intros Hw. unfold normalize.
  destruct (replace_ws_space_back w s Hw false) as (tail & Ht & ->).
  apply (trim_app_space [] (replace_ws false s) tail); [reflexivity | exact Ht].
Qed.

Lemma trimStart_split (s : jsstring) :
  exists w, forallb is_space w = true /\ s = w ++ trimStart s.
Proof.
  induction s as [|c s (w & Hw & IH)]; [exists []; auto|].
  simpl. destruct (is_space c) eqn:E.
  - exists (c :: w). simpl. rewrite E, Hw. split; [reflexivity|].
    f_equal. exact IH.
  - exists []. auto.
Qed.

Lemma trimEnd_split (s : jsstring) :
  exists w, forallb is_space w = true /\ s = trimEnd s ++ w.
Proof.
  unfold trimEnd. destruct (trimStart_split (rev s)) as (w & Hw & H).
  exists (rev w). split.
  - rewrite forallb_forall in *. intros x Hx. apply Hw. apply in_rev. exact Hx.
  - rewrite <- rev_app_distr, <- H. symmetry. apply rev_involutive.
Qed.

Lemma normalize_trim (s : jsstring) : normalize (trim s) = normalize s.
Proof.
  destruct (trimStart_split s) as (w1 & Hw1 & H1).
  destruct (trimEnd_split (trimStart s)) as (w2 & Hw2 & H2).
  pose proof (normalize_space_front w1 (trimStart s) Hw1) as E1.
  rewrite <- H1 in E1.
  pose proof (normalize_space_back (trimEnd (trimStart s)) w2 Hw2) as E2.
  rewrite <- H2 in E2.
  rewrite E1, E2. reflexivity.
Qed.

(** The chunks of a page are the long windows of its normalized content. *)
Lemma chunks_of_windows (content : jsstring) :
  chunks_of content =
  filter long_enough
    (map (window (normalize content) 900)
         (offsets (900 - 150) (iterations (len (normalize content)) (900 - 150)))).
Proof.
  unfold chunks_of. rewrite chunkText_windows; [reflexivity | lia |].
  pose proof (normalize_len_le content) as Hle.
  pose proof (iterations_le (len (normalize content)) (900 - 150)
                (len_nonneg _) ltac:(lia)) as Hit.
  unfold len in *. lia.
Qed.

(** X21: [chunkText] does not see the white space at the ends of a text:
    a text and the text that [trim] makes of it have the same
    normalization and the same chunks, whatever the arguments, so the rows
    of a page are the same whether its content was trimmed or not. *)
Theorem chunkText_ignores_trim (s : jsstring) :
  normalize (trim s) = normalize s /\
  (forall fuel chunkSize overlap,
     chunkText fuel (trim s) chunkSize overlap =
     chunkText fuel s chunkSize overlap) /\
  (forall (File : Type) (file : File) (k : N),
     page_plan file (mkPage k (trim s)) = page_plan file (mkPage k s)).
Proof.
  split; [apply normalize_trim|]. split.
  - intros fuel chunkSize overlap. unfold chunkText.
    rewrite normalize_trim. reflexivity.
  - intros File file k. unfold page_plan. cbn [content page].
    rewrite !chunks_of_windows, normalize_trim. reflexivity.
Qed.

(** *** The embedding of a row *)

Section RowsOfMain.

Variables (File Buffer Err Num Literal : Type).
Variable startup : Outcome Err unit.
Variable is_pdf : File -> bool.
Variable readFileSync : File -> Outcome Err Buffer.
Variable parsePdf : Buffer -> Outcome Err (option jsstring).
Variable ocrPdfToText : File -> Outcome Err (jsstring * nat).
Variable embed : nat -> jsstring -> Outcome Err (list Num).
Variable vector_literal : list Num -> Literal.
Variable insert_error : Row File Literal -> option Err.
Variable empty_vector : Err.

Local Abbreviation State := (Ingest.State File Literal).
Local Abbreviation good := (embedded_row embed vector_literal insert_error).

Lemma grows_nothing {A : Type} (r : Run File Err Literal A) (st : State) :
  match r with
  | Finished _ st' | Aborted _ st' => db st' = db st
  | Diverged => True
  end ->
  grows good st r.
Proof.
  destruct r as [a st'|e st'|]; simpl; intros H; try exact I;
    exists []; rewrite app_nil_r; auto.
Qed.

Lemma grows_bind {A B : Type} (m : M File Err Literal A)
    (k : A -> M File Err Literal B) (st : State) :
  grows good st (m st) ->
  (forall a st', grows good st' (k a st')) ->
  grows good st (bind m k st).
Proof.
  intros Hm Hk. unfold bind.
  destruct (m st) as [a st1|e st1|]; simpl in Hm; [| exact Hm | exact I].
  destruct Hm as (rows1 & Hdb1 & Hall1).
  specialize (Hk a st1).
  destruct (k a st1) as [b st2|e st2|]; simpl in *; try exact I;
    destruct Hk as (rows2 & Hdb2 & Hall2); exists (rows1 ++ rows2);
    (split; [rewrite Hdb2, Hdb1, app_assoc; reflexivity
            | apply Forall_app; auto]).
Qed.

Lemma grows_insert_chunk (file : File) (page : N) (idx : nat) (ch : jsstring)
    (st : State) :
  grows good st
        (insert_chunk embed vector_literal insert_error empty_vector
                      file page idx ch st).
Proof.
  unfold insert_chunk, bind, embed_m.
  destruct (embed (embed_calls st) ch) as [vec|e] eqn:Ee;
    [|apply grows_nothing; reflexivity].
  unfold lift, toVectorLiteral.
  destruct vec as [|x vec]; [apply grows_nothing; reflexivity|].
  unfold insert_m.
  destruct (insert_error (mkRow file page idx ch (vector_literal (x :: vec))))
    as [e|] eqn:Ei; [apply grows_nothing; reflexivity|].
  simpl. eexists [_]. split; [reflexivity|].
  constructor; [|constructor].
  split; [exact Ei|]. exists (embed_calls st), (x :: vec).
  cbn [chunk embedding]. split; [exact Ee|]. split; [discriminate | reflexivity].
Qed.

Lemma grows_chunk_loop (file : File) (page : N) (chunks : list jsstring) :
  forall (idx : nat) (st : State),
    grows good st
          (chunk_loop embed vector_literal insert_error empty_vector
                      file page idx chunks st).
Proof.
  induction chunks as [|ch chunks IH]; intros idx st.
  - apply grows_nothing. reflexivity.
  - rewrite chunk_loop_step.
    apply grows_bind; [apply grows_insert_chunk|].
    intros _ st1. apply IH.
Qed.

Lemma grows_page_loop (file : File) (pages : list PageRecord) :
  forall st : State,
    grows good st
          (page_loop embed vector_literal insert_error empty_vector
                     file pages st).
Proof.
  induction pages as [|p pages IH]; intros st.
  - apply grows_nothing. reflexivity.
  - cbn [page_loop]. unfold bind at 1. rewrite chunk_page_finished.
    apply grows_bind; [apply grows_chunk_loop|].
    intros _ st1. apply IH.
Qed.

Lemma grows_file_loop (files : list File) :
  forall st : State,
    grows good st
          (file_loop readFileSync parsePdf ocrPdfToText embed vector_literal
                     insert_error empty_vector files st).
Proof.
  induction files as [|file files IH]; intros st.
  - apply grows_nothing. reflexivity.
  - cbn [file_loop]. unfold bind at 1.
    destruct (readFileSync file) as [pdfBuffer|e]; cbn [lift];
      [|apply grows_nothing; reflexivity].
    unfold bind at 1.
    destruct (extractTextSmart parsePdf ocrPdfToText pdfBuffer file)
      as [r|e]; cbn [lift]; [|apply grows_nothing; reflexivity].
    apply grows_bind; [apply grows_page_loop|].
    intros _ st1. apply IH.
Qed.

(** X22: every row that a run of [main] appends was accepted by the
    store, and its embedding is the literal of a vector, not empty, that
    [embed] returned for the chunk of that row: a chunk is never stored
    with the vector of another text or with an empty vector. *)
Theorem main_rows_embedded (listing : list File) (st : State) :
  match main startup is_pdf readFileSync parsePdf ocrPdfToText embed
             vector_literal insert_error empty_vector listing st with
  | Finished _ st' | Aborted _ st' =>
      exists rows,
        db st' = db st ++ rows /\
        Forall (fun row =>
                  insert_error row = None /\
                  exists n vec,
                    embed n (chunk row) = Ok vec /\ vec <> [] /\
                    embedding _ _ row = vector_literal vec) rows
  | Diverged => True
  end.
Proof.
  assert (H : grows good st
                (main startup is_pdf readFileSync parsePdf ocrPdfToText embed
                      vector_literal insert_error empty_vector listing st)).
  { unfold main. apply grows_bind.
    - destruct startup; apply grows_nothing; reflexivity.
    - intros _ st1. apply grows_file_loop. }
  exact H.
Qed.

End RowsOfMain.

End IngestRows.
